(** * lat-long-tracking: the attestation pipeline of [api/server.js]

    A shallow embedding of the server side of the visit tracker: the
    challenge table and its consumption ([verifyChallenge]), the signing
    payload ([buildSigningPayload]), the signature check
    ([verifySignature]), the photo gate ([photoExists]), the event
    pipeline ([insertEvent]) and the two visit routes
    ([POST /api/visits/check-in], [POST /api/visits/:visitId/check-out]),
    over a model of the three PostgreSQL tables and their constraints as
    declared in the schema.

    Conventions of the model.
    - Strings are [string] (8-bit code units); text is taken to be ASCII,
      so [trim] strips the ASCII white space of ECMAScript and
      [toLowerCase] / SQL [LOWER] fold [A-Z].
    - A JavaScript number is given by the decimal decomposition that
      ECMAScript's [Number::toString] is defined on (digits [s], exponent
      [n]); comparison and [String(x)] are computed from it.
    - Every [await pool.query(...)] is one atomic statement on the
      database value; the storage is available, so a statement fails only
      by violating a constraint of the schema or, for the event INSERT,
      by a value that PostgreSQL does not take for its column (a capture
      time it does not read as a [TIMESTAMPTZ], a text with a NUL
      character).
    - Identifiers are held and compared in the text form in which
      [crypto.randomUUID()] issues them and PostgreSQL prints them; the
      statements that depend on how a request spells an identifier say
      that it is given in this form ([canonical_uuid]). The visit id of
      the check-out URL is the one identifier that nothing validates:
      its SELECT fails on a text that PostgreSQL does not read as a
      UUID ([pg_uuid]).
    - [crypto.randomUUID()], [Date.now()], SQL [NOW()], the file system
      and the [crypto] primitives are inputs of a request ([Ctx], [Env]). *)

From Stdlib Require Import ZArith Ascii Decimal DecimalString DecimalNat.
From Stdlib.Strings Require Import Byte.
From stdpp Require Import base strings list gmap.

Local Open Scope Z_scope.

(** ** JavaScript values *)

Module JS.

(** [Array.prototype.join] on an array of strings. *)
Fixpoint join (sep : string) (xs : list string) : string :=
  match xs with
  | [] => ""
  | [x] => x
  | x :: rest => x +:+ sep +:+ join sep rest
  end.

(** [s.split(c)] for a one-character separator. *)
Fixpoint split (c : ascii) (s : string) : list string :=
  match s with
  | EmptyString => [EmptyString]
  | String a rest =>
      if Ascii.eqb a c then EmptyString :: split c rest
      else
        match split c rest with
        | seg :: segs => String a seg :: segs
        | [] => [String a EmptyString]
        end
  end.

(** [s.startsWith(p)]. *)
Definition startsWith (s p : string) : bool := String.prefix p s.

(** ECMAScript WhiteSpace and LineTerminator, ASCII range:
    TAB, LF, VT, FF, CR, SP. *)
Definition is_space (c : ascii) : bool :=
  let n := nat_of_ascii c in
  ((9 <=? n)%nat && (n <=? 13)%nat) || (n =? 32)%nat.

Fixpoint trimStart (s : string) : string :=
  match s with
  | EmptyString => EmptyString
  | String c rest => if is_space c then trimStart rest else s
  end.

(** Drops trailing white space: a character is kept when something
    after it is kept or when it is not white space. *)
Fixpoint trimEnd (s : string) : string :=
  match s with
  | EmptyString => EmptyString
  | String c rest =>
      match trimEnd rest with
      | EmptyString => if is_space c then EmptyString else String c EmptyString
      | kept => String c kept
      end
  end.

(** [s.trim()]. *)
Definition trim (s : string) : string := trimEnd (trimStart s).

Definition lower_char (c : ascii) : ascii :=
  let n := nat_of_ascii c in
  if ((65 <=? n)%nat && (n <=? 90)%nat)%bool then ascii_of_nat (n + 32) else c.

(** [s.toLowerCase()]; also SQL [LOWER(s)]. *)
Fixpoint toLowerCase (s : string) : string :=
  match s with
  | EmptyString => EmptyString
  | String c rest => String (lower_char c) (toLowerCase rest)
  end.

(** *** Numbers

    A finite number is zero or [± s × 10^(n-k)], where [s] is the
    shortest digit string that identifies the double and [k] its
    length: the [n], [k], [s] of ECMAScript [Number::toString].
    [+0] and [-0] are one value ([===] equates them and both print
    ["0"]). NaN and the infinities do not pass the request schema. *)
Inductive number : Type :=
| Zero
| Finite (negative : bool) (s : uint) (n : Z).

Definition digits (s : uint) : string := NilEmpty.string_of_uint s.

Definition num_k (s : uint) : Z := Z.of_nat (String.length (digits s)).

Fixpoint zeros (m : nat) : string :=
  match m with
  | O => ""
  | S m' => String "0" (zeros m')
  end.

Fixpoint take (m : nat) (s : string) : string :=
  match m, s with
  | S m', String c rest => String c (take m' rest)
  | _, _ => ""
  end.

Fixpoint drop (m : nat) (s : string) : string :=
  match m, s with
  | S m', String _ rest => drop m' rest
  | _, _ => s
  end.

(** Decimal digits of a natural number (the exponent part). *)
Definition nat_to_string (m : nat) : string := digits (Nat.to_uint m).

(** The exponent part: ["e"], the sign of [n - 1], its digits. *)
Definition exponent_part (n : Z) : string :=
  let e := n - 1 in
  let sign := if e <? 0 then "-" else "+" in
  "e" +:+ sign +:+ nat_to_string (Z.abs_nat e).

(** [Number::toString(x, 10)] for [x > 0] given by [s] and [n]. *)
Definition positive_to_string (s : uint) (n : Z) : string :=
  let ds := digits s in
  let k := num_k s in
  if (k <=? n) && (n <=? 21) then
    ds +:+ zeros (Z.to_nat (n - k))
  else if (0 <? n) && (n <=? 21) then
    take (Z.to_nat n) ds +:+ "." +:+ drop (Z.to_nat n) ds
  else if (-6 <? n) && (n <=? 0) then
    "0." +:+ zeros (Z.to_nat (- n)) +:+ ds
  else if k =? 1 then ds +:+ exponent_part n
  else take 1 ds +:+ "." +:+ drop 1 ds +:+ exponent_part n.

(** [String(x)] for a number [x]. *)
Definition toString (x : number) : string :=
  match x with
  | Zero => "0"
  | Finite negative s n =>
      if negative then "-" +:+ positive_to_string s n
      else positive_to_string s n
  end.

Definition starts_nonzero (s : string) : bool :=
  match s with
  | EmptyString => false
  | String c _ => negb (Ascii.eqb c "0")
  end.

Fixpoint ends_nonzero (s : string) : bool :=
  match s with
  | EmptyString => false
  | String c rest =>
      match rest with
      | EmptyString => negb (Ascii.eqb c "0")
      | String _ _ => ends_nonzero rest
      end
  end.

(** The digit string ECMAScript picks is the shortest one: it has a
    digit and neither a leading nor a trailing zero. *)
Definition canonical (x : number) : bool :=
  match x with
  | Zero => true
  | Finite _ s _ => starts_nonzero (digits s) && ends_nonzero (digits s)
  end.

(** The five layouts of [Number::toString], in the order of its
    steps. *)
Inductive layout : Type := Integral | Fractional | Small | ExponentShort | ExponentLong.

Definition layout_of (s : uint) (n : Z) : layout :=
  if (num_k s <=? n) && (n <=? 21) then Integral
  else if (0 <? n) && (n <=? 21) then Fractional
  else if (-6 <? n) && (n <=? 0) then Small
  else if num_k s =? 1 then ExponentShort
  else ExponentLong.

(** The value as [m × 10^e]. *)
Definition significand (x : number) : Z :=
  match x with
  | Zero => 0
  | Finite negative s _ =>
      let m := Z.of_N (N.of_uint s) in if negative then - m else m
  end.

Definition exponent10 (x : number) : Z :=
  match x with
  | Zero => 0
  | Finite _ s n => n - num_k s
  end.

Definition compare (a b : number) : comparison :=
  let e := Z.min (exponent10 a) (exponent10 b) in
  Z.compare (significand a * 10 ^ (exponent10 a - e))
            (significand b * 10 ^ (exponent10 b - e)).

(** [a > b]. *)
Definition gt (a b : number) : bool :=
  match compare a b with Gt => true | _ => false end.

End JS.


(** ** Request bodies *)

Inductive EventType : Type := CHECK_IN | CHECK_OUT.

(** The string an event type is on the wire and in the payload. *)
Definition EventType_str (t : EventType) : string :=
  match t with
  | CHECK_IN => "CHECK_IN"
  | CHECK_OUT => "CHECK_OUT"
  end.

Definition EventType_eqb (a b : EventType) : bool :=
  match a, b with
  | CHECK_IN, CHECK_IN | CHECK_OUT, CHECK_OUT => true
  | _, _ => false
  end.

(** The object [EventSchema] describes ([parsed.data]). *)
Record Body : Type := {
  eventType : EventType;
  vendorName : string;
  latitude : JS.number;
  longitude : JS.number;
  accuracyMeters : JS.number;
  capturedAt : string;
  photoUrl : string;
  photoSha256 : string;
  devicePublicKey : string;
  deviceSignature : string;
  challengeId : string;
  challengeNonce : string
}.

(** ** The database *)

(** A row of [server_challenges]; the key [id] is the map key.
    Timestamps are milliseconds since the epoch. *)
Record ChallengeRow : Type := {
  nonce : string;
  expires_at : Z;
  used_at : option Z
}.

Record VisitRow : Type := {
  visit_pk : string;
  vendor_name : string;
  visit_created_at : Z
}.

Record EventRow : Type := {
  event_pk : string;
  visit_id : string;
  event_type : EventType;
  event_vendor_name : string;
  event_latitude : JS.number;
  event_longitude : JS.number;
  accuracy_meters : JS.number;
  captured_at : string;
  photo_url : string;
  photo_sha256 : string;
  device_public_key : string;
  device_signature : string;
  server_challenge_id : string;
  user_agent : string;
  ip_address : option string;
  event_created_at : Z
}.

Record DB : Type := {
  server_challenges : gmap string ChallengeRow;
  visits : list VisitRow;
  visit_events : list EventRow
}.

Definition empty_db : DB :=
  {| server_challenges := ∅; visits := []; visit_events := [] |}.

(** ** Completions and the request monad

    A JavaScript evaluation ends normally or throws; a request threads
    the database through its statements. *)

Inductive completion (A : Type) : Type :=
| Normal (a : A)
| Throw (e : string).
Arguments Normal {A} a.
Arguments Throw {A} e.

Definition M (A : Type) : Type := DB -> completion A * DB.

Definition ret {A} (a : A) : M A := fun db => (Normal a, db).

Definition bind {A B} (m : M A) (k : A -> M B) : M B :=
  fun db =>
    match m db with
    | (Normal a, db') => k a db'
    | (Throw e, db') => (Throw e, db')
    end.

(** [try { m } catch { h }]. *)
Definition try_catch {A} (m : M A) (h : string -> M A) : M A :=
  fun db =>
    match m db with
    | (Normal a, db') => (Normal a, db')
    | (Throw e, db') => h e db'
    end.

(** [try { m } catch { ... }] where the code after the statement
    branches on whether [m] threw. *)
Definition attempt {A} (m : M A) : M (completion A) :=
  fun db => let '(c, db') := m db in (Normal c, db').

(** A pure evaluation that may throw, inside a request. *)
Definition lift {A} (c : completion A) : M A := fun db => (c, db).

Instance M_ret : MRet M := @ret.
Instance M_bind : MBind M := fun A B k m => bind m k.

(** ** The process and the request environment *)

(** What the process is started with and the libraries it calls. *)
Record Env : Type := {
  (** [Number(process.env.ACCURACY_THRESHOLD_METERS || 5)] *)
  ACCURACY_THRESHOLD_METERS : JS.number;
  (** [Number(process.env.CHALLENGE_TTL_SECONDS || 120)] *)
  CHALLENGE_TTL_SECONDS : Z;
  (** zod's [z.string().datetime()] and [z.string().uuid()] *)
  zod_datetime : string -> bool;
  zod_uuid : string -> bool;
  (** [path.join(__dirname, p)] *)
  path_join_dirname : string -> string;
  (** [Buffer.from(s, "base64")] *)
  Buffer_from_base64 : string -> completion (list Byte.byte);
  (** [crypto.createPublicKey({key, format: "der", type: "spki"})] *)
  KeyObject : Type;
  createPublicKey : list Byte.byte -> completion KeyObject;
  (** [crypto.verify("sha256", data, publicKey, signature)] *)
  crypto_verify : list Byte.byte -> KeyObject -> list Byte.byte -> completion bool;
  (** Whether PostgreSQL reads the text as a value of [TIMESTAMPTZ]; it
      refuses some texts that [z.string().datetime()] lets through, the
      year 0000 among them. *)
  pg_timestamptz : string -> bool;
  (** Whether PostgreSQL reads the text as a value of [UUID]. *)
  pg_uuid : string -> bool
}.

(** What one request observes of the outside world. *)
Record Ctx : Type := {
  (** [Date.now()] *)
  date_now : Z;
  (** SQL [NOW()] *)
  db_now : Z;
  (** [crypto.randomUUID()] drawn for the visit, the event, the challenge *)
  uuid_visit : string;
  uuid_event : string;
  uuid_challenge : string;
  (** [crypto.randomBytes(24).toString("base64url")] *)
  random_nonce : string;
  (** [fs.existsSync] *)
  existsSync : string -> bool;
  (** [String(req.headers["user-agent"] || "")] and [getClientIp(req)] *)
  req_user_agent : string;
  req_client_ip : option string
}.

(** ** SQL statements, each atomic *)

(** [SELECT id, nonce, expires_at, used_at FROM server_challenges
     WHERE id = $1], for an id in canonical text. *)
Definition select_challenge (id : string) : M (option ChallengeRow) :=
  fun db => (Normal (server_challenges db !! id), db).

Definition mark_used (t : Z) (row : ChallengeRow) : ChallengeRow :=
  {| nonce := nonce row; expires_at := expires_at row; used_at := Some t |}.

Definition set_used_at (id : string) (t : Z) (db : DB) : DB :=
  {| server_challenges := alter (mark_used t) id (server_challenges db);
     visits := visits db;
     visit_events := visit_events db |}.

(** [UPDATE server_challenges SET used_at = NOW() WHERE id = $1]:
    the only condition is the id. *)
Definition update_challenge_used (id : string) (t : Z) : M unit :=
  fun db => (Normal tt, set_used_at id t db).

(** [INSERT INTO server_challenges (id, nonce, expires_at)]; the primary
    key rejects an id already present. *)
Definition insert_challenge (id nonce_ : string) (expires : Z) : M unit :=
  fun db =>
    match server_challenges db !! id with
    | Some _ => (Throw "duplicate key value violates unique constraint server_challenges_pkey", db)
    | None =>
        (Normal tt,
         {| server_challenges :=
              <[id := {| nonce := nonce_; expires_at := expires; used_at := None |}]>
                (server_challenges db);
            visits := visits db;
            visit_events := visit_events db |})
    end.

(** [LOWER(vendor_name) = LOWER($1)] on a row of [visits]. *)
Definition lower_vendor_is (name : string) (v : VisitRow) : bool :=
  String.eqb (JS.toLowerCase (vendor_name v)) (JS.toLowerCase name).

(** [id = $1] on a row of [visits]. *)
Definition visit_pk_is (id : string) (v : VisitRow) : bool := String.eqb (visit_pk v) id.

(** [visit_id = $1 AND event_type = $2] on a row of [visit_events]. *)
Definition event_of (visitId : string) (t : EventType) (e : EventRow) : bool :=
  String.eqb (visit_id e) visitId && EventType_eqb (event_type e) t.

(** [SELECT id FROM visits WHERE LOWER(vendor_name) = LOWER($1) LIMIT 1]. *)
Definition select_visit_by_vendor (name : string) : M (option string) :=
  fun db => (Normal (visit_pk <$> find (lower_vendor_is name) (visits db)), db).

(** [SELECT vendor_name FROM visits WHERE id = $1]. The parameter is
    the text of the URL and the column is of type [UUID]: the statement
    fails on a text that PostgreSQL does not read as one. The rows are
    found for an id in canonical text. *)
Definition select_visit_by_id (env : Env) (id : string) : M (option string) :=
  fun db =>
    if negb (pg_uuid env id) then (Throw "invalid input syntax for type uuid", db)
    else (Normal (vendor_name <$> find (visit_pk_is id) (visits db)), db).

(** [INSERT INTO visits (id, vendor_name)] under the primary key and the
    unique index [uniq_vendor_name] on [LOWER(vendor_name)]. *)
Definition insert_visit (id name : string) (t : Z) : M unit :=
  fun db =>
    if existsb (visit_pk_is id) (visits db) then
      (Throw "duplicate key value violates unique constraint visits_pkey", db)
    else if existsb (lower_vendor_is name) (visits db) then
      (Throw "duplicate key value violates unique constraint uniq_vendor_name", db)
    else
      (Normal tt,
       {| server_challenges := server_challenges db;
          visits := visits db ++ [{| visit_pk := id; vendor_name := name; visit_created_at := t |}];
          visit_events := visit_events db |}).

(** A value of type [TEXT] holds no NUL character: PostgreSQL refuses
    a text parameter that has one. *)
Fixpoint holds_nul (s : string) : bool :=
  match s with
  | EmptyString => false
  | String c rest => Ascii.eqb c "000" || holds_nul rest
  end.

Definition pg_text (s : string) : bool := negb (holds_nul s).

(** Whether PostgreSQL takes the values of an event row that the
    request supplies as text: the capture time as a [TIMESTAMPTZ] and
    the [TEXT] columns. *)
Definition pg_accepts (env : Env) (row : EventRow) : bool :=
  pg_timestamptz env (captured_at row)
  && pg_text (event_vendor_name row)
  && pg_text (photo_url row)
  && pg_text (photo_sha256 row)
  && pg_text (device_public_key row)
  && pg_text (device_signature row)
  && pg_text (user_agent row)
  && match ip_address row with
     | Some a => pg_text a
     | None => true
     end.

(** [INSERT INTO visit_events (...)]: the values have to be of the
    column types, and the row has to keep the primary key, the two
    foreign keys and the partial unique indexes
    [uniq_one_checkin_per_visit] and [uniq_one_checkout_per_visit]. *)
Definition insert_visit_event (env : Env) (row : EventRow) : M unit :=
  fun db =>
    if negb (pg_accepts env row) then
      (Throw "invalid input value for a column of visit_events", db)
    else if existsb (fun e => String.eqb (event_pk e) (event_pk row)) (visit_events db) then
      (Throw "duplicate key value violates unique constraint visit_events_pkey", db)
    else if negb (existsb (visit_pk_is (visit_id row)) (visits db)) then
      (Throw "violates foreign key constraint visit_events_visit_id_fkey", db)
    else if negb (bool_decide (is_Some (server_challenges db !! server_challenge_id row))) then
      (Throw "violates foreign key constraint visit_events_server_challenge_id_fkey", db)
    else if existsb (event_of (visit_id row) (event_type row)) (visit_events db) then
      (Throw (match event_type row with
              | CHECK_IN => "duplicate key value violates unique constraint uniq_one_checkin_per_visit"
              | CHECK_OUT => "duplicate key value violates unique constraint uniq_one_checkout_per_visit"
              end), db)
    else
      (Normal tt,
       {| server_challenges := server_challenges db;
          visits := visits db;
          visit_events := visit_events db ++ [row] |}).

(** ** The functions of [server.js] *)

Definition num (negative : bool) (s : uint) (n : Z) : JS.number := JS.Finite negative s n.

Definition num_le (a b : JS.number) : bool := negb (JS.gt a b).

(** [EventSchema.safeParse(req.body).success] on an object that has the
    twelve fields with their JSON types and one of the two event types. *)
Definition EventSchema_success (env : Env) (b : Body) : bool :=
  let len s := String.length s in
  (1 <=? len (vendorName b))%nat && (len (vendorName b) <=? 255)%nat
  && num_le (num true (D9 Nil) 2) (latitude b) && num_le (latitude b) (num false (D9 Nil) 2)
  && num_le (num true (D1 (D8 Nil)) 3) (longitude b)
  && num_le (longitude b) (num false (D1 (D8 Nil)) 3)
  && num_le JS.Zero (accuracyMeters b) && num_le (accuracyMeters b) (num false (D1 Nil) 6)
  && zod_datetime env (capturedAt b)
  && (1 <=? len (photoUrl b))%nat
  && (len (photoSha256 b) =? 64)%nat
  && (1 <=? len (devicePublicKey b))%nat
  && (1 <=? len (deviceSignature b))%nat
  && zod_uuid env (challengeId b)
  && (1 <=? len (challengeNonce b))%nat.

Definition buildSigningPayload (p : Body) : string :=
  JS.join "|" [
    challengeNonce p;
    EventType_str (eventType p);
    vendorName p;
    JS.toString (latitude p);
    JS.toString (longitude p);
    JS.toString (accuracyMeters p);
    capturedAt p;
    photoSha256 p
  ].

(** What [verifyChallenge] resolves to: [{ ok: true }] or
    [{ ok: false, reason }]. *)
Inductive ChallengeResult : Type :=
| ChallengeOk
| ChallengeRejected (reason : string).

Definition verifyChallenge (ctx : Ctx) (challengeId_ challengeNonce_ : string)
  : M ChallengeResult :=
  r ← select_challenge challengeId_;
  match r with
  | None => mret (ChallengeRejected "Challenge not found")
  | Some row =>
      if bool_decide (is_Some (used_at row)) then
        mret (ChallengeRejected "Challenge already used")
      else if date_now ctx >? expires_at row then
        mret (ChallengeRejected "Challenge expired")
      else if negb (String.eqb (nonce row) challengeNonce_) then
        mret (ChallengeRejected "Challenge nonce mismatch")
      else
        _ ← update_challenge_used challengeId_ (db_now ctx);
        mret ChallengeOk
  end.

(** [Buffer.from(s, "utf8")] on ASCII text. *)
Definition Buffer_from_utf8 (s : string) : list Byte.byte := String.list_byte_of_string s.

Definition completion_bind {A B} (c : completion A) (k : A -> completion B) : completion B :=
  match c with
  | Normal a => k a
  | Throw e => Throw e
  end.

Definition completion_catch {A} (c : completion A) (h : string -> completion A) : completion A :=
  match c with
  | Normal a => Normal a
  | Throw e => h e
  end.

Definition verifySignature (env : Env)
    (devicePublicKeyBase64 signatureBase64 payloadString : string) : completion bool :=
  completion_catch
    (completion_bind (Buffer_from_base64 env devicePublicKeyBase64) (fun publicKeyDer =>
     completion_bind (Buffer_from_base64 env signatureBase64) (fun signature =>
     completion_bind (createPublicKey env publicKeyDer) (fun publicKey =>
     crypto_verify env (Buffer_from_utf8 payloadString) publicKey signature))))
    (fun _ => Normal false).

Definition photoExists (env : Env) (ctx : Ctx) (photoUrl_ : string) : bool :=
  if negb (JS.startsWith photoUrl_ "/uploads/") then false
  else
    let p := path_join_dirname env photoUrl_ in
    existsSync ctx p.

(** What [insertEvent] resolves to: [{ ok: true, id }] or
    [{ ok: false, status, error }]. *)
Inductive InsertResult : Type :=
| InsertOk (id : string)
| InsertFailed (status : Z) (error : string).

Definition event_row (ctx : Ctx) (id visitId : string) (body : Body) : EventRow :=
  {| event_pk := id;
     visit_id := visitId;
     event_type := eventType body;
     event_vendor_name := vendorName body;
     event_latitude := latitude body;
     event_longitude := longitude body;
     accuracy_meters := accuracyMeters body;
     captured_at := capturedAt body;
     photo_url := photoUrl body;
     photo_sha256 := photoSha256 body;
     device_public_key := devicePublicKey body;
     device_signature := deviceSignature body;
     server_challenge_id := challengeId body;
     user_agent := req_user_agent ctx;
     ip_address := req_client_ip ctx;
     event_created_at := db_now ctx |}.

Definition insertEvent (env : Env) (ctx : Ctx) (visitId : string) (body : Body)
  : M InsertResult :=
  if JS.gt (accuracyMeters body) (ACCURACY_THRESHOLD_METERS env) then
    mret (InsertFailed 400
            ("Accuracy must be <= " +:+ JS.toString (ACCURACY_THRESHOLD_METERS env) +:+ " meters"))
  else if negb (photoExists env ctx (photoUrl body)) then
    mret (InsertFailed 400 "Photo not found. Upload photo first.")
  else
    challenge ← verifyChallenge ctx (challengeId body) (challengeNonce body);
    match challenge with
    | ChallengeRejected reason => mret (InsertFailed 400 reason)
    | ChallengeOk =>
        let payload := buildSigningPayload body in
        sigOk ← lift (verifySignature env (devicePublicKey body) (deviceSignature body) payload);
        if negb sigOk then mret (InsertFailed 400 "Invalid device signature")
        else
          let id := uuid_event ctx in
          try_catch
            (_ ← insert_visit_event env (event_row ctx id visitId body);
             mret (InsertOk id))
            (fun _ => mret (InsertFailed 500 "Failed to save event"))
    end.

(** The JSON an endpoint answers with. *)
Inductive Json : Type :=
| JsonError (error : string)
| JsonInvalidPayload
| JsonCreated (visitId eventId : string)
| JsonChallenge (challengeId_ nonce_ : string) (expiresAt : Z).

Record Response : Type := { status : Z; json : Json }.

Definition respond (st : Z) (j : Json) : M Response := mret {| status := st; json := j |}.

(** [POST /api/visits/check-in]. *)
Definition check_in (env : Env) (ctx : Ctx) (body : Body) : M Response :=
  if negb (EventSchema_success env body) then respond 400 JsonInvalidPayload
  else if negb (EventType_eqb (eventType body) CHECK_IN) then
    respond 400 (JsonError "eventType must be CHECK_IN")
  else
    existing ← attempt (select_visit_by_vendor (vendorName body));
    match existing with
    | Throw _ => respond 500 (JsonError "Failed to validate vendor name")
    | Normal (Some _) => respond 409 (JsonError "Vendor name already exists")
    | Normal None =>
        let visitId := uuid_visit ctx in
        let normalizedVendor := JS.trim (vendorName body) in
        created ← attempt (insert_visit visitId normalizedVendor (db_now ctx));
        match created with
        | Throw _ => respond 500 (JsonError "Failed to create visit")
        | Normal _ =>
            r ← insertEvent env ctx visitId body;
            match r with
            | InsertFailed st error => respond st (JsonError error)
            | InsertOk id => respond 201 (JsonCreated visitId id)
            end
        end
    end.

Definition dquote : string := String "034"%char "".

(** [POST /api/visits/:visitId/check-out]. The SELECT of the visit is
    outside any [try]: when it fails the handler ends with its exception
    and sends no response of its own. *)
Definition check_out (env : Env) (ctx : Ctx) (visitId : string) (body : Body) : M Response :=
  if negb (EventSchema_success env body) then respond 400 JsonInvalidPayload
  else if negb (EventType_eqb (eventType body) CHECK_OUT) then
    respond 400 (JsonError "eventType must be CHECK_OUT")
  else
    visit ← select_visit_by_id env visitId;
    match visit with
    | None => respond 404 (JsonError "Visit not found")
    | Some checkInVendor =>
        let normalizedCheckIn := JS.toLowerCase (JS.trim checkInVendor) in
        let normalizedCheckOut := JS.toLowerCase (JS.trim (vendorName body)) in
        if negb (String.eqb normalizedCheckOut normalizedCheckIn) then
          respond 400 (JsonError ("Vendor mismatch: check-in was " +:+ dquote +:+ checkInVendor
                                  +:+ dquote +:+ " but check-out is " +:+ dquote
                                  +:+ vendorName body +:+ dquote))
        else
          r ← insertEvent env ctx visitId body;
          match r with
          | InsertFailed st error => respond st (JsonError error)
          | InsertOk id => respond 201 (JsonCreated visitId id)
          end
    end.

(** [createChallenge] and [GET /api/challenge]. *)
Definition createChallenge (env : Env) (ctx : Ctx) : M (string * string * Z) :=
  let id := uuid_challenge ctx in
  let nonce_ := random_nonce ctx in
  let expiresAt := date_now ctx + CHALLENGE_TTL_SECONDS env * 1000 in
  _ ← insert_challenge id nonce_ expiresAt;
  mret (id, nonce_, expiresAt).

Definition get_challenge (env : Env) (ctx : Ctx) : M Response :=
  try_catch
    (c ← createChallenge env ctx;
     respond 200 (JsonChallenge c.1.1 c.1.2 c.2))
    (fun _ => respond 500 (JsonError "Failed to create challenge")).

(** ** The routes as one request handler *)

Inductive Request : Type :=
| GetChallenge
| PostCheckIn (body : Body)
| PostCheckOut (visitId : string) (body : Body).

Definition handle (env : Env) (ctx : Ctx) (req : Request) : M Response :=
  match req with
  | GetChallenge => get_challenge env ctx
  | PostCheckIn body => check_in env ctx body
  | PostCheckOut visitId body => check_out env ctx visitId body
  end.

(** The database after a sequence of requests, each in its own request
    environment. *)
Fixpoint run_requests (env : Env) (reqs : list (Ctx * Request)) (db : DB) : DB :=
  match reqs with
  | [] => db
  | (ctx, req) :: rest => run_requests env rest (handle env ctx req db).2
  end.

(** Whether the device signature of a body verifies. *)
Definition signature_accepted (env : Env) (body : Body) : bool :=
  match verifySignature env (devicePublicKey body) (deviceSignature body)
          (buildSigningPayload body) with
  | Normal b => b
  | Throw _ => false
  end.

(** ** Callers of [verifyChallenge] between their awaits

    [verifyChallenge] awaits twice: the SELECT, and the UPDATE when
    the row read passed the three checks. Other requests run between
    the two statements. *)

Record Call : Type := {
  call_ctx : Ctx;
  call_id : string;
  call_nonce : string
}.

Inductive Caller : Type :=
| AtSelect
| AtUpdate
| Returned (r : ChallengeResult).

Definition caller_step (c : Call) (pc : Caller) (db : DB) : Caller * DB :=
  match pc with
  | AtSelect =>
      match server_challenges db !! call_id c with
      | None => (Returned (ChallengeRejected "Challenge not found"), db)
      | Some row =>
          if bool_decide (is_Some (used_at row)) then
            (Returned (ChallengeRejected "Challenge already used"), db)
          else if date_now (call_ctx c) >? expires_at row then
            (Returned (ChallengeRejected "Challenge expired"), db)
          else if negb (String.eqb (nonce row) (call_nonce c)) then
            (Returned (ChallengeRejected "Challenge nonce mismatch"), db)
          else (AtUpdate, db)
      end
  | AtUpdate =>
      (Returned ChallengeOk, set_used_at (call_id c) (db_now (call_ctx c)) db)
  | Returned r => (Returned r, db)
  end.

(** A schedule names, tick by tick, the caller whose next statement
    the database executes. *)
Fixpoint run_schedule (calls : list Call) (schedule : list nat)
    (pcs : list Caller) (db : DB) : list Caller * DB :=
  match schedule with
  | [] => (pcs, db)
  | i :: rest =>
      match calls !! i, pcs !! i with
      | Some c, Some pc =>
          let '(pc', db') := caller_step c pc db in
          run_schedule calls rest (<[i := pc']> pcs) db'
      | _, _ => run_schedule calls rest pcs db
      end
  end.

Definition is_success (r : ChallengeResult) : bool :=
  match r with ChallengeOk => true | ChallengeRejected _ => false end.

Definition caller_succeeded (pc : Caller) : bool :=
  match pc with Returned r => is_success r | _ => false end.

Definition successes (rs : list ChallengeResult) : nat := length (filter is_success rs).

(** Calls that run one after the other. *)
Fixpoint consume_each (calls : list Call) : M (list ChallengeResult) :=
  match calls with
  | [] => mret []
  | c :: rest =>
      r ← verifyChallenge (call_ctx c) (call_id c) (call_nonce c);
      rs ← consume_each rest;
      mret (r :: rs)
  end.

(** ** The specification's vocabulary *)

(** The payload as section 4.2 words it: the eight fields in order,
    joined by the delimiter, the three numbers given by decimal
    numerals. *)
Definition canonicalize (challengeNonce_ : string) (eventType_ : EventType)
    (vendorName_ : string) (latitude_ longitude_ accuracy_ : string)
    (capturedAt_ photoDigest_ : string) : string :=
  challengeNonce_ +:+ "|" +:+ EventType_str eventType_ +:+ "|" +:+ vendorName_ +:+ "|"
  +:+ latitude_ +:+ "|" +:+ longitude_ +:+ "|"
  +:+ accuracy_ +:+ "|" +:+ capturedAt_ +:+ "|" +:+ photoDigest_.

(** The field set the payload is built from. *)
Definition signed_fields (p : Body)
  : string * EventType * string * JS.number * JS.number * JS.number * string * string :=
  (challengeNonce p, eventType p, vendorName p, latitude p, longitude p,
   accuracyMeters p, capturedAt p, photoSha256 p).

(** Every character of [s] satisfies [P]. *)
Fixpoint all_chars (P : ascii -> bool) (s : string) : bool :=
  match s with
  | EmptyString => true
  | String a rest => P a && all_chars P rest
  end.

(** [c] does not occur in [s]. *)
Definition free_of (c : ascii) (s : string) : bool :=
  all_chars (fun a => negb (Ascii.eqb a c)) s.

Definition bar_free (s : string) : bool := free_of "|" s.

Definition is_digit (c : ascii) : bool :=
  let n := nat_of_ascii c in (48 <=? n)%nat && (n <=? 57)%nat.

Definition head_is (c : ascii) (s : string) : bool :=
  match s with
  | EmptyString => false
  | String a _ => Ascii.eqb a c
  end.

(** What tells the layouts of [String(x)] apart: no ["e"], no ["."],
    a leading ["0"], a leading ["-"]. *)
Definition shape (s : string) : bool * bool * bool * bool :=
  (free_of "e" s, free_of "." s, head_is "0" s, head_is "-" s).

Definition layout_shape (l : JS.layout) : bool * bool * bool * bool :=
  match l with
  | JS.Integral => (true, true, false, false)
  | JS.Fractional => (true, false, false, false)
  | JS.Small => (true, false, true, false)
  | JS.ExponentShort => (false, true, false, false)
  | JS.ExponentLong => (false, false, false, false)
  end.

(** [s] without its trailing zeros. *)
Fixpoint rstrip_zeros (s : string) : string :=
  match s with
  | EmptyString => EmptyString
  | String c rest =>
      match rstrip_zeros rest with
      | EmptyString => if Ascii.eqb c "0" then EmptyString else String c EmptyString
      | kept => String c kept
      end
  end.

(** The characters [String(x)] is made of. *)
Definition number_char (c : ascii) : bool :=
  is_digit c || Ascii.eqb c "-" || Ascii.eqb c "+" || Ascii.eqb c "." || Ascii.eqb c "e".

(** The delimiter occurs in none of the free-text fields that are
    followed by one. *)
Definition delimiter_free (p : Body) : bool :=
  bar_free (challengeNonce p) && bar_free (vendorName p) && bar_free (capturedAt p).

(** The three numbers are given by their canonical digits. *)
Definition numbers_canonical (p : Body) : bool :=
  JS.canonical (latitude p) && JS.canonical (longitude p)
  && JS.canonical (accuracyMeters p).

(** Two bodies that differ, though only in where a delimiter falls. *)
Definition straddle_left : Body :=
  {| eventType := CHECK_IN; vendorName := "Acme|CHECK_IN|Bolt";
     latitude := num false (D3 (D7 Nil)) 2; longitude := num true (D1 (D2 (D2 Nil))) 3;
     accuracyMeters := num false (D4 Nil) 1; capturedAt := "2024-01-01T00:00:00Z";
     photoUrl := "/uploads/Acme.jpg";
     photoSha256 := "9f86d081884c7d659a2feaa0c55ad015a3bf4f1b2b0b822cd15d6c15b0f00a08";
     devicePublicKey := "0device-key-A"; deviceSignature := "c2ln";
     challengeId := "123e4567-e89b-12d3-a456-426614174000";
     challengeNonce := "abc123" |}.

Definition straddle_right : Body :=
  {| eventType := CHECK_IN; vendorName := "Bolt";
     latitude := num false (D3 (D7 Nil)) 2; longitude := num true (D1 (D2 (D2 Nil))) 3;
     accuracyMeters := num false (D4 Nil) 1; capturedAt := "2024-01-01T00:00:00Z";
     photoUrl := "/uploads/Acme.jpg";
     photoSha256 := "9f86d081884c7d659a2feaa0c55ad015a3bf4f1b2b0b822cd15d6c15b0f00a08";
     devicePublicKey := "0device-key-A"; deviceSignature := "c2ln";
     challengeId := "123e4567-e89b-12d3-a456-426614174000";
     challengeNonce := "abc123|CHECK_IN|Acme" |}.

(** The rejection reasons of section 4.1 and the messages that carry
    them. *)
Inductive Rejection : Type := NotFound | AlreadyUsed | Expired | NonceMismatch.

Definition rejection_message (r : Rejection) : string :=
  match r with
  | NotFound => "Challenge not found"
  | AlreadyUsed => "Challenge already used"
  | Expired => "Challenge expired"
  | NonceMismatch => "Challenge nonce mismatch"
  end.

(** The outcome section 4.1 prescribes, checks in precedence order. *)
Definition consume_spec (now : Z) (row : option ChallengeRow) (presentedNonce : string)
  : option Rejection :=
  match row with
  | None => Some NotFound
  | Some r =>
      if bool_decide (is_Some (used_at r)) then Some AlreadyUsed
      else if now >? expires_at r then Some Expired
      else if bool_decide (presentedNonce ≠ nonce r) then Some NonceMismatch
      else None
  end.

Definition result_of_spec (o : option Rejection) : ChallengeResult :=
  match o with
  | None => ChallengeOk
  | Some r => ChallengeRejected (rejection_message r)
  end.

(** The state-conflict outcomes of sections 4.5 and 7, and the
    responses of the routes that carry them. The routes have no response
    for [AlreadyClosed]; status 500 is the generic storage failure. *)
Inductive Outcome : Type :=
| DuplicateVendor | VisitNotFound | VendorMismatch | AlreadyClosed
| StorageFailure | Accepted | OtherRejection.

Definition error_is (r : Response) (msg : string) : bool :=
  match json r with
  | JsonError e => String.eqb e msg
  | _ => false
  end.

Definition error_starts (r : Response) (msg : string) : bool :=
  match json r with
  | JsonError e => String.prefix msg e
  | _ => false
  end.

Definition outcome (r : Response) : Outcome :=
  if status r =? 201 then Accepted
  else if (status r =? 409) && error_is r "Vendor name already exists" then DuplicateVendor
  else if (status r =? 404) && error_is r "Visit not found" then VisitNotFound
  else if (status r =? 400) && error_starts r "Vendor mismatch" then VendorMismatch
  else if status r =? 500 then StorageFailure
  else OtherRejection.

(** ** Database invariants *)

Definition vendor_keys (db : DB) : list string :=
  (fun v => JS.toLowerCase (vendor_name v)) <$> visits db.

(** At most one visit per case-insensitive vendor name. *)
Definition vendors_unique (db : DB) : Prop := NoDup (vendor_keys db).

Definition has_event (db : DB) (visitId : string) (t : EventType) : bool :=
  existsb (event_of visitId t) (visit_events db).

Definition has_visit (db : DB) (visitId : string) : bool :=
  existsb (visit_pk_is visitId) (visits db).

(** Some visit has this vendor name up to case. *)
Definition vendor_taken (db : DB) (name : string) : bool :=
  existsb (lower_vendor_is name) (visits db).

Definition has_vendor (db : DB) (name : string) : bool :=
  existsb (fun v => String.eqb (vendor_name v) name) (visits db).

(** The row [POST /api/visits/check-in] inserts into [visits]. *)
Definition visit_row (ctx : Ctx) (name : string) : VisitRow :=
  {| visit_pk := uuid_visit ctx; vendor_name := name; visit_created_at := db_now ctx |}.

Definition challenge_used (db : DB) (id : string) : Prop :=
  exists row, server_challenges db !! id = Some row /\ is_Some (used_at row).

(** ** A concrete deployment for worked examples

    Threshold 5 m and TTL 120 s are the defaults of [server.js]. The
    crypto provider stands in for a real one: encoded material is read
    as its bytes, a key parses when its DER starts with the SEQUENCE tag
    0x30, and a signature verifies when it is the key followed by the
    data. *)

Module Fixture.

Definition is_hex (c : ascii) : bool :=
  let n := nat_of_ascii c in
  is_digit c || ((65 <=? n)%nat && (n <=? 70)%nat) || ((97 <=? n)%nat && (n <=? 102)%nat).

Definition is_char (a c : ascii) : bool := Ascii.eqb a c.

Fixpoint has_shape (shape : list (ascii -> bool)) (s : string) : bool :=
  match shape, s with
  | [], EmptyString => true
  | f :: shape', String c rest => f c && has_shape shape' rest
  | _, _ => false
  end.

Definition uuid_shape : list (ascii -> bool) :=
  replicate 8 is_hex ++ [is_char "-"] ++ replicate 4 is_hex ++ [is_char "-"]
  ++ replicate 4 is_hex ++ [is_char "-"] ++ replicate 4 is_hex ++ [is_char "-"]
  ++ replicate 12 is_hex.

Definition datetime_shape : list (ascii -> bool) :=
  replicate 4 is_digit ++ [is_char "-"] ++ replicate 2 is_digit ++ [is_char "-"]
  ++ replicate 2 is_digit ++ [is_char "T"] ++ replicate 2 is_digit ++ [is_char ":"]
  ++ replicate 2 is_digit ++ [is_char ":"] ++ replicate 2 is_digit.

Definition env : Env :=
  {| ACCURACY_THRESHOLD_METERS := num false (D5 Nil) 1;
     CHALLENGE_TTL_SECONDS := 120;
     zod_datetime := fun s =>
       has_shape (datetime_shape ++ [is_char "Z"]) s
       || has_shape (datetime_shape ++ [is_char "."] ++ replicate 3 is_digit ++ [is_char "Z"]) s;
     zod_uuid := has_shape uuid_shape;
     path_join_dirname := fun p => "/srv/api" +:+ p;
     Buffer_from_base64 := fun s => Normal (String.list_byte_of_string s);
     KeyObject := list Byte.byte;
     createPublicKey := fun der =>
       match der with
       | x30 :: _ => Normal der
       | _ => Throw "ERR_OSSL_ASN1_WRONG_TAG"
       end;
     crypto_verify := fun data key signature =>
       Normal (bool_decide (Byte.to_N <$> signature = Byte.to_N <$> (key ++ data)));
     pg_timestamptz := fun s =>
       (has_shape (datetime_shape ++ [is_char "Z"]) s
        || has_shape (datetime_shape ++ [is_char "."] ++ replicate 3 is_digit
                      ++ [is_char "Z"]) s)
       && negb (String.prefix "0000" s);
     pg_uuid := has_shape uuid_shape |}.

Definition visit1 : string := "7c9e6679-7425-40de-944b-e07fc1f90ae7".
Definition event1 : string := "16fd2706-8baf-433b-82eb-8c7fada847da".
Definition event2 : string := "886313e1-3b8a-5372-9b90-0c9aee199e5d".
Definition event3 : string := "6ba7b810-9dad-11d1-80b4-00c04fd430c8".
Definition visit2 : string := "6ba7b811-9dad-11d1-80b4-00c04fd430c8".
Definition chal1 : string := "123e4567-e89b-12d3-a456-426614174000".
Definition chal2 : string := "123e4567-e89b-12d3-a456-426614174001".
Definition chal3 : string := "123e4567-e89b-12d3-a456-426614174002".

Definition digest : string :=
  "9f86d081884c7d659a2feaa0c55ad015a3bf4f1b2b0b822cd15d6c15b0f00a08".

Definition device_key : string := "0device-key-A".

(** The disk holds the one uploaded photo. *)
Definition disk (p : string) : bool := String.eqb p "/srv/api/uploads/Riverside-Market.jpg".

Definition ctx_at (t : Z) (visit event challenge : string) : Ctx :=
  {| date_now := t; db_now := t;
     uuid_visit := visit; uuid_event := event; uuid_challenge := challenge;
     random_nonce := "abc123";
     existsSync := disk;
     req_user_agent := "Mozilla/5.0";
     req_client_ip := Some "203.0.113.7" |}.

Definition sign (b : Body) : string := devicePublicKey b +:+ buildSigningPayload b.

(** An event over challenge [chal] with nonce ["abc123"], accuracy
    [acc], photo reference [photo]; the signature is computed last. *)
Definition unsigned (t : EventType) (vendor : string) (acc : JS.number)
    (photo chal : string) : Body :=
  {| eventType := t; vendorName := vendor;
     latitude := num false (D3 (D7 Nil)) 2;
     longitude := num true (D1 (D2 (D2 Nil))) 3;
     accuracyMeters := acc;
     capturedAt := "2024-01-01T00:00:00Z";
     photoUrl := photo;
     photoSha256 := digest;
     devicePublicKey := device_key;
     deviceSignature := "-";
     challengeId := chal;
     challengeNonce := "abc123" |}.

Definition with_signature (b : Body) (sig : string) : Body :=
  {| eventType := eventType b; vendorName := vendorName b;
     latitude := latitude b; longitude := longitude b;
     accuracyMeters := accuracyMeters b; capturedAt := capturedAt b;
     photoUrl := photoUrl b; photoSha256 := photoSha256 b;
     devicePublicKey := devicePublicKey b; deviceSignature := sig;
     challengeId := challengeId b; challengeNonce := challengeNonce b |}.

Definition signed (t : EventType) (vendor : string) (acc : JS.number)
    (photo chal : string) : Body :=
  let b := unsigned t vendor acc photo chal in with_signature b (sign b).

Definition four : JS.number := num false (D4 Nil) 1.
Definition ten : JS.number := num false (D1 Nil) 2.
Definition photo : string := "/uploads/Riverside-Market.jpg".

(** The database after [GET /api/challenge] at time 1000. *)
Definition db_challenge (challenge : string) (db : DB) : DB :=
  (get_challenge env (ctx_at 1000 visit1 event1 challenge) db).2.

Definition db1 : DB := db_challenge chal1 empty_db.

(** A visit of "Riverside Market" opened over [chal1], then closed
    over [chal2]; [chal3] is issued afterwards and still unused. *)
Definition opening : list (Ctx * Request) :=
  [ (ctx_at 1000 visit1 event1 chal1, GetChallenge);
    (ctx_at 2000 visit1 event1 chal1,
     PostCheckIn (signed CHECK_IN "Riverside Market" four photo chal1)) ].

Definition closing : list (Ctx * Request) :=
  [ (ctx_at 3000 visit2 event2 chal2, GetChallenge);
    (ctx_at 4000 visit2 event2 chal2,
     PostCheckOut visit1 (signed CHECK_OUT "Riverside Market" four photo chal2));
    (ctx_at 5000 visit2 event3 chal3, GetChallenge) ].

(** Two requests presenting [chal1] with its nonce. *)
Definition racers : list Call :=
  [ {| call_ctx := ctx_at 2000 visit1 event1 chal2; call_id := chal1;
       call_nonce := "abc123" |};
    {| call_ctx := ctx_at 2001 visit2 event2 chal2; call_id := chal1;
       call_nonce := "abc123" |} ].

Definition db_open : DB := run_requests env opening empty_db.
Definition db_closed : DB := run_requests env closing db_open.

End Fixture.

(** ** What the tables keep *)

(** The visit and the type of an event: the columns of the two partial
    unique indexes. *)
Definition event_key (e : EventRow) : string * string :=
  (visit_id e, EventType_str (event_type e)).

(** Two vendor names are the same after [trim] and [toLowerCase], the
    comparison of the check-out route. *)
Definition same_vendor (a b : string) : Prop :=
  JS.toLowerCase (JS.trim a) = JS.toLowerCase (JS.trim b).

Record consistent (db : DB) : Prop := {
  visit_ids_unique : NoDup (visit_pk <$> visits db);
  vendor_names_trimmed : forall v, v ∈ visits db -> JS.trim (vendor_name v) = vendor_name v;
  event_ids_unique : NoDup (event_pk <$> visit_events db);
  events_have_visit :
    forall e, e ∈ visit_events db ->
      exists v, v ∈ visits db /\ visit_pk v = visit_id e
                /\ same_vendor (event_vendor_name e) (vendor_name v);
  events_challenge_used :
    forall e, e ∈ visit_events db -> challenge_used db (server_challenge_id e);
  one_event_per_type : NoDup (event_key <$> visit_events db);
  one_event_per_challenge : NoDup (server_challenge_id <$> visit_events db)
}.

(** [db'] holds everything [db] holds: the visits and the events of
    [db] in front of any new ones, and every challenge of [db] with its
    nonce and expiry, and with its [used_at] once that is set. *)
Definition grows (db db' : DB) : Prop :=
  visits db `prefix_of` visits db'
  /\ visit_events db `prefix_of` visit_events db'
  /\ forall id row,
       server_challenges db !! id = Some row ->
       exists row',
         server_challenges db' !! id = Some row'
         /\ nonce row' = nonce row /\ expires_at row' = expires_at row
         /\ (is_Some (used_at row) -> used_at row' = used_at row).

(** ** The web client ([web/src/App.jsx])

    What [checkIn] and [checkOut] build once their guards have passed:
    the vendor name typed, the position, the photo reference and digest,
    the device key. *)

Record ClientState : Type := {
  cl_vendorName : string;
  cl_lat : JS.number;
  cl_lng : JS.number;
  cl_accuracy : JS.number;
  cl_photoUrl : string;
  cl_photoSha : string;
  cl_publicKeyB64 : string
}.

(** The string [checkIn] ([t] = CHECK_IN) and [checkOut] sign. *)
Definition client_payload (t : EventType) (st : ClientState) (nonce_ capturedAt_ : string)
  : string :=
  JS.join "|" [
    nonce_;
    EventType_str t;
    cl_vendorName st;
    JS.toString (cl_lat st);
    JS.toString (cl_lng st);
    JS.toString (cl_accuracy st);
    capturedAt_;
    cl_photoSha st
  ].

(** The JSON body they post. *)
Definition client_body (t : EventType) (st : ClientState)
    (challengeId_ nonce_ capturedAt_ signature : string) : Body :=
  {| eventType := t;
     vendorName := JS.trim (cl_vendorName st);
     latitude := cl_lat st;
     longitude := cl_lng st;
     accuracyMeters := cl_accuracy st;
     capturedAt := capturedAt_;
     photoUrl := cl_photoUrl st;
     photoSha256 := cl_photoSha st;
     devicePublicKey := cl_publicKeyB64 st;
     deviceSignature := signature;
     challengeId := challengeId_;
     challengeNonce := nonce_ |}.

(** ** Photo upload ([POST /api/photos]) *)

(** [s.includes(sub)]. *)
Fixpoint includes (sub s : string) : bool :=
  String.prefix sub s
  || match s with
     | EmptyString => false
     | String _ rest => includes sub rest
     end.

(** [s.replace(/\s+/g, "-")]: [in_run] tells that the run of white
    space the scan is in has been replaced already. *)
Fixpoint dash_runs (in_run : bool) (s : string) : string :=
  match s with
  | EmptyString => EmptyString
  | String c rest =>
      if JS.is_space c then
        if in_run then dash_runs true rest else String "-" (dash_runs true rest)
      else String c (dash_runs false rest)
  end.

Definition replace_space_runs (s : string) : string := dash_runs false s.

(** A file part of the form: its MIME type and its bytes. *)
Record UploadedFile : Type := {
  mimetype : string;
  buffer : list Byte.byte
}.

(** What the route reads of the request: the file part named
    ["photo"] and the text field [vendorName]. *)
Record PhotoRequest : Type := {
  req_file : option UploadedFile;
  req_vendorName : option string
}.

(** The disk, the digest and the path the route writes to. *)
Record Platform : Type := {
  Disk : Type;
  (** [sha256Hex(buf)] *)
  sha256Hex : list Byte.byte -> string;
  (** [path.join(__dirname, PHOTO_DIR, filename)] *)
  path_join_photo_dir : string -> string;
  (** [fs.writeFileSync(p, data)] *)
  writeFileSync : string -> list Byte.byte -> Disk -> completion unit * Disk;
  (** multer's test of a file against [limits.fileSize] *)
  within_fileSize : Z -> list Byte.byte -> bool
}.

(** What the route does with a request: the JSON of the handler, or,
    when [upload.single] refuses the upload, the [MulterError] it passes
    to Express, in which case the handler does not run. *)
Inductive PhotoAnswer : Type :=
| PhotoJson (photoUrl_ photoSha256_ : string)
| PhotoError (status_ : Z) (error : string)
| PhotoRefused (code : string).

(** [upload.single("photo")] with [limits: { fileSize: 5 * 1024 * 1024 }]
    and memory storage: the file part of the form becomes [req.file]
    unless it is over the limit. *)
Definition upload_single (pf : Platform) (part : option UploadedFile)
  : completion (option UploadedFile) :=
  match part with
  | Some file =>
      if within_fileSize pf (5 * 1024 * 1024) (buffer file) then Normal (Some file)
      else Throw "LIMIT_FILE_SIZE"
  | None => Normal None
  end.

(** [String(v || "")] for a form field that is a string or absent. *)
Definition text_or_empty (v : option string) : string :=
  match v with
  | Some s => s
  | None => ""
  end.

Definition photo_filename (vendorName_ mime : string) : string :=
  let rawVendor := JS.trim vendorName_ in
  let vendorSlug := replace_space_runs rawVendor in
  let ext := if includes "png" mime then "png" else "jpg" in
  vendorSlug +:+ "." +:+ ext.

Definition post_photos (pf : Platform) (req : PhotoRequest) (disk : Disk pf)
  : PhotoAnswer * Disk pf :=
  match upload_single pf (req_file req) with
  | Throw code => (PhotoRefused code, disk)
  | Normal None => (PhotoError 400 "Missing photo", disk)
  | Normal (Some file) =>
      let mime := mimetype file in
      if negb (JS.startsWith mime "image/") then (PhotoError 400 "Invalid file type", disk)
      else
        let rawVendor := JS.trim (text_or_empty (req_vendorName req)) in
        if String.eqb rawVendor "" then (PhotoError 400 "Missing vendorName", disk)
        else
          let filename := photo_filename (text_or_empty (req_vendorName req)) mime in
          let filePath := path_join_photo_dir pf filename in
          match writeFileSync pf filePath (buffer file) disk with
          | (Throw _, disk') => (PhotoError 500 "Photo upload failed", disk')
          | (Normal _, disk') =>
              let sha := sha256Hex pf (buffer file) in
              let publicUrl := "/uploads/" +:+ filename in
              (PhotoJson publicUrl sha, disk')
          end
  end.

(** The request [processPhoto] of the web client sends: a form with the
    one field ["photo"]. *)
Definition client_photo_request (file : UploadedFile) : PhotoRequest :=
  {| req_file := Some file; req_vendorName := None |}.

(** ** The client address ([getClientIp]) *)

(** [req.headers["x-forwarded-for"]]: absent, a string, or an array of
    strings. *)
Inductive HeaderValue : Type :=
| HeaderAbsent
| HeaderText (s : string)
| HeaderTexts (l : list string).

Definition getClientIp (xf : HeaderValue) (remoteAddress : option string) : option string :=
  let fallback :=
    match remoteAddress with
    | Some a => if String.eqb a "" then None else Some a
    | None => None
    end in
  match xf with
  | HeaderText s =>
      if (0 <? String.length s)%nat then Some (JS.trim (hd "" (JS.split "," s)))
      else fallback
  | _ => fallback
  end.

(** ** CSV export ([GET /api/export.csv]) *)

(** A value of a result row: [null], [undefined] (no such column), a
    string, or a number. A timestamp column arrives as a [Date]; it
    stands here as the text [String] gives for it. *)
Inductive Cell : Type :=
| CellNull
| CellUndefined
| CellText (s : string)
| CellNumber (x : JS.number).

Definition quote_char : ascii := "034"%char.
Definition newline_char : ascii := "010"%char.

Definition contains (c : ascii) (s : string) : bool := negb (free_of c s).

(** [s.replaceAll] of every double quote by two double quotes. *)
Fixpoint double_quotes (s : string) : string :=
  match s with
  | EmptyString => EmptyString
  | String c rest =>
      if Ascii.eqb c quote_char then String quote_char (String quote_char (double_quotes rest))
      else String c (double_quotes rest)
  end.

(** The body of [escapeCsv] after [const s = String(v)]. *)
Definition escape_text (s : string) : string :=
  if contains quote_char s || contains "," s || contains newline_char s
  then String quote_char (double_quotes s +:+ String quote_char "")
  else s.

Definition escapeCsv (v : Cell) : string :=
  match v with
  | CellNull | CellUndefined => ""
  | CellText s => escape_text s
  | CellNumber x => escape_text (JS.toString x)
  end.

Definition csv_headers : list string :=
  ["visit_id"; "vendor_name"; "event_type"; "latitude"; "longitude"; "accuracy_meters";
   "captured_at"; "photo_url"; "photo_sha256"; "user_agent"; "ip_address"; "created_at"].

(** The text [res.send] is given for the rows [r.rows]; a row object
    is read by column name. *)
Definition export_csv (rows : list (string -> Cell)) : string :=
  let lines :=
    JS.join "," csv_headers
    :: map (fun row => JS.join "," (map (fun h => escapeCsv (row h)) csv_headers)) rows in
  JS.join (String newline_char "") lines.

(** The text a cell stands for in the file. *)
Definition cell_text (v : Cell) : string :=
  match v with
  | CellNull | CellUndefined => ""
  | CellText s => s
  | CellNumber x => JS.toString x
  end.

(** The reading of a CSV text that the export is written for (RFC 4180,
    with the line feed as record separator): fields are separated by
    commas and records by line feeds; a field that opens with a quote
    runs to the next quote that is not doubled, and a doubled quote in it
    stands for one. The reader is not code of the server; it says what a
    consumer of the file sees. *)
Inductive CsvMode : Type := FieldStart | InPlain | InQuoted | AfterQuote.

Fixpoint csv_read (m : CsvMode) (field : string) (record : list string) (s : string)
  : list (list string) :=
  match s with
  | EmptyString => [record ++ [field]]
  | String c rest =>
      match m with
      | InQuoted =>
          if Ascii.eqb c quote_char then csv_read AfterQuote field record rest
          else csv_read InQuoted (field +:+ String c "") record rest
      | _ =>
          if Ascii.eqb c "," then csv_read FieldStart "" (record ++ [field]) rest
          else if Ascii.eqb c newline_char then
            (record ++ [field]) :: csv_read FieldStart "" [] rest
          else if Ascii.eqb c quote_char then
            match m with
            | FieldStart => csv_read InQuoted "" record rest
            | AfterQuote => csv_read InQuoted (field +:+ String quote_char "") record rest
            | _ => csv_read InPlain (field +:+ String c "") record rest
            end
          else csv_read InPlain (field +:+ String c "") record rest
      end
  end.

Definition read_csv (s : string) : list (list string) := csv_read FieldStart "" [] s.

(** What the reader does with a finished field when the rest of the
    text is [t]: the end of the text, a comma, or a line feed. *)
Definition csv_close (field : string) (record : list string) (t : string)
  : list (list string) :=
  match t with
  | EmptyString => [record ++ [field]]
  | String c rest =>
      if Ascii.eqb c "," then csv_read FieldStart "" (record ++ [field]) rest
      else (record ++ [field]) :: csv_read FieldStart "" [] rest
  end.

Definition ends_field (t : string) : bool :=
  match t with
  | EmptyString => true
  | String c _ => Ascii.eqb c "," || Ascii.eqb c newline_char
  end.

Definition ends_line (t : string) : bool :=
  match t with
  | EmptyString => true
  | String c _ => Ascii.eqb c newline_char
  end.

(** ** The photo digest as text ([hashFile] in [App.jsx]) *)

(** The digit characters of [Number.prototype.toString(radix)]. *)
Definition digit_char (d : N) : ascii :=
  match String.get (N.to_nat d) "0123456789abcdefghijklmnopqrstuvwxyz" with
  | Some c => c
  | None => "0"%char
  end.

Fixpoint radix_digits (fuel : nat) (radix n : N) (acc : string) : string :=
  match fuel with
  | O => acc
  | S fuel' =>
      let acc' := String (digit_char (n mod radix)%N) acc in
      if (n / radix =? 0)%N then acc' else radix_digits fuel' radix (n / radix)%N acc'
  end.

(** [n.toString(radix)] for a non-negative integer [n]; [n] has at most
    [N.size_nat n] digits in any radix from 2 on. *)
Definition toString_radix (radix n : N) : string :=
  radix_digits (S (N.size_nat n)) radix n "".

Fixpoint repeat_char (c : ascii) (m : nat) : string :=
  match m with
  | O => ""
  | S m' => String c (repeat_char c m')
  end.

(** [s.padStart(width, c)] for a one-character pad [c]. *)
Definition padStart (width : nat) (c : ascii) (s : string) : string :=
  repeat_char c (width - String.length s) +:+ s.

(** [b.toString(16).padStart(2, "0")] for an element of the
    [Uint8Array]. *)
Definition hex_byte (b : Byte.byte) : string :=
  padStart 2 "0" (toString_radix 16 (Byte.to_N b)).

(** The text [hashFile] returns for the digest bytes. *)
Definition hashFile_hex (digest_bytes : list Byte.byte) : string :=
  JS.join "" (map hex_byte digest_bytes).

Definition is_lower_hex (c : ascii) : bool :=
  let n := nat_of_ascii c in
  is_digit c || ((97 <=? n)%nat && (n <=? 102)%nat).

(** ** The device key as a PEM file ([exportPublicKeyPEM] in [App.jsx]) *)

(** The characters [.] does not match; in a text of 8-bit characters
    these are the line feed and the carriage return. *)
Definition line_terminator (c : ascii) : bool :=
  Ascii.eqb c "010" || Ascii.eqb c "013".

Definition flush (cur : string) : list string :=
  match cur with
  | EmptyString => []
  | _ => [cur]
  end.

(** The matches of [/.{1,width}/g], from left to right: [cur] is the
    match under way and [room] the number of characters it may still
    take. A match takes as many characters as it can; a line terminator
    ends it and is skipped. *)
Fixpoint match_chunks (width : nat) (cur : string) (room : nat) (s : string) : list string :=
  match s with
  | EmptyString => flush cur
  | String c rest =>
      if line_terminator c then flush cur ++ match_chunks width "" width rest
      else
        match room with
        | O => flush cur ++ match_chunks width (String c "") (width - 1) rest
        | S room' => match_chunks width (cur +:+ String c "") room' rest
        end
  end.

(** [s.match(/.{1,64}/g)]: the array of matches, or [null] when there is
    none. *)
Definition match_lines (s : string) : option (list string) :=
  match match_chunks 64 "" 64 s with
  | [] => None
  | ls => Some ls
  end.

Inductive PemExport : Type :=
| PemNothing
| PemTypeError
| PemFile (text : string).

(** The text of the blob that [exportPublicKeyPEM] offers for download;
    nothing when there is no key yet, and a [TypeError] from [.join] on
    [null] when the key text has no match. *)
Definition exportPublicKeyPEM (publicKeyB64 : option string) : PemExport :=
  match publicKeyB64 with
  | None => PemNothing
  | Some s =>
      if String.eqb s "" then PemNothing
      else
        match match_lines s with
        | None => PemTypeError
        | Some ls =>
            PemFile ("-----BEGIN PUBLIC KEY-----" +:+ String newline_char ""
                     +:+ JS.join (String newline_char "") ls
                     +:+ String newline_char "" +:+ "-----END PUBLIC KEY-----")
        end
  end.

(** ** Allowed origins (the [cors] callback of [server.js]) *)

(** The regular expressions of the callback, as data. *)
Inductive Regex : Type :=
| Void
| Eps
| Chr (c : ascii)
| Digit
| Range (lo hi : ascii)
| Seq (r1 r2 : Regex)
| Alt (r1 r2 : Regex)
| Star (r : Regex).

(** [r+] *)
Definition Plus (r : Regex) : Regex := Seq r (Star r).

(** A run of literal characters. *)
Fixpoint Str (s : string) : Regex :=
  match s with
  | EmptyString => Eps
  | String c rest => Seq (Chr c) (Str rest)
  end.

Definition in_range (lo hi c : ascii) : bool :=
  (nat_of_ascii lo <=? nat_of_ascii c)%nat && (nat_of_ascii c <=? nat_of_ascii hi)%nat.

Fixpoint nullable (r : Regex) : bool :=
  match r with
  | Void => false
  | Eps => true
  | Chr _ | Digit | Range _ _ => false
  | Seq r1 r2 => nullable r1 && nullable r2
  | Alt r1 r2 => nullable r1 || nullable r2
  | Star _ => true
  end.

(** What is left of [r] to match after the character [c]. *)
Fixpoint deriv (c : ascii) (r : Regex) : Regex :=
  match r with
  | Void | Eps => Void
  | Chr a => if Ascii.eqb a c then Eps else Void
  | Digit => if is_digit c then Eps else Void
  | Range lo hi => if in_range lo hi c then Eps else Void
  | Seq r1 r2 =>
      if nullable r1 then Alt (Seq (deriv c r1) r2) (deriv c r2)
      else Seq (deriv c r1) r2
  | Alt r1 r2 => Alt (deriv c r1) (deriv c r2)
  | Star r1 => Seq (deriv c r1) (Star r1)
  end.

(** [/^r$/.test(s)]: without the [m] flag the anchors are the two ends
    of [s], so the whole of [s] has to match [r]. *)
Fixpoint test (r : Regex) (s : string) : bool :=
  match s with
  | EmptyString => nullable r
  | String c rest => test (deriv c r) rest
  end.

(** The strings a regular expression matches. *)
Inductive Matches : Regex -> string -> Prop :=
| MEps : Matches Eps ""
| MChr c : Matches (Chr c) (String c "")
| MDigit c : is_digit c = true -> Matches Digit (String c "")
| MRange lo hi c : in_range lo hi c = true -> Matches (Range lo hi) (String c "")
| MSeq r1 r2 s1 s2 : Matches r1 s1 -> Matches r2 s2 -> Matches (Seq r1 r2) (s1 +:+ s2)
| MAltL r1 r2 s : Matches r1 s -> Matches (Alt r1 r2) s
| MAltR r1 r2 s : Matches r2 s -> Matches (Alt r1 r2) s
| MStarNil r : Matches (Star r) ""
| MStarCons r s1 s2 : Matches r s1 -> Matches (Star r) s2 -> Matches (Star r) (s1 +:+ s2).

(** [^http:\/\/host:\d+$] *)
Definition origin_re (host : Regex) : Regex :=
  Seq (Str "http://") (Seq host (Seq (Chr ":") (Plus Digit))).

(** [localhost] *)
Definition host_localhost : Regex := Str "localhost".

(** [127\.0\.0\.1] *)
Definition host_loopback : Regex := Str "127.0.0.1".

(** [192\.168\.\d+\.\d+] *)
Definition host_192 : Regex :=
  Seq (Str "192.168.") (Seq (Plus Digit) (Seq (Chr ".") (Plus Digit))).

(** [10\.\d+\.\d+\.\d+] *)
Definition host_10 : Regex :=
  Seq (Str "10.")
    (Seq (Plus Digit) (Seq (Chr ".") (Seq (Plus Digit) (Seq (Chr ".") (Plus Digit))))).

(** [172\.(1[6-9]|2\d|3[0-1])\.\d+\.\d+] *)
Definition host_172 : Regex :=
  Seq (Str "172.")
    (Seq (Alt (Seq (Chr "1") (Range "6" "9"))
            (Alt (Seq (Chr "2") Digit) (Seq (Chr "3") (Range "0" "1"))))
       (Seq (Chr ".") (Seq (Plus Digit) (Seq (Chr ".") (Plus Digit))))).

(** [process.env.CORS_ORIGIN || "http://localhost:5173"] *)
Definition CORS_ORIGIN (setting : option string) : string :=
  match setting with
  | Some v => if String.eqb v "" then "http://localhost:5173" else v
  | None => "http://localhost:5173"
  end.

(** The [origin] callback: [true] for [callback(null, true)], [false]
    for [callback(new Error("Not allowed by CORS"))]; [None] is a request
    without an [Origin]. *)
Definition origin_allowed (setting : option string) (origin : option string) : bool :=
  match origin with
  | None => true
  | Some o =>
      if String.eqb o "" then true
      else if String.eqb o (CORS_ORIGIN setting) then true
      else if test (origin_re host_localhost) o then true
      else if test (origin_re host_loopback) o then true
      else if test (origin_re host_192) o then true
      else if test (origin_re host_10) o then true
      else if test (origin_re host_172) o then true
      else false
  end.

(** Every character class of [r] lies within [P]. *)
Fixpoint within (P : ascii -> bool) (r : Regex) : bool :=
  match r with
  | Void | Eps => true
  | Chr c => P c
  | Digit => all_chars P "0123456789"
  | Range lo hi =>
      forallb (fun n => P (ascii_of_nat n))
        (seq (nat_of_ascii lo) (S (nat_of_ascii hi) - nat_of_ascii lo))
  | Seq r1 r2 | Alt r1 r2 => within P r1 && within P r2
  | Star r1 => within P r1
  end.

Definition digit_or_dot (c : ascii) : bool := is_digit c || Ascii.eqb c ".".

(** ** The duplicate guard of the web client ([duplicateVisit] in [App.jsx]) *)

(** An item of the list the client keeps from [GET /api/visits/recent],
    with the two columns of the visit row. *)
Record VisitItem : Type := {
  item_visitId : string;
  item_vendorName : string
}.

(** [null] when nothing is typed, else the first listed visit with the
    name typed up to [trim] and case. *)
Definition duplicateVisit (vendorName_ : string) (listed : list VisitItem)
  : option VisitItem :=
  let normalizedVendorName := JS.toLowerCase (JS.trim vendorName_) in
  if String.eqb normalizedVendorName "" then None
  else
    find (fun v =>
            let current := JS.toLowerCase (JS.trim (item_vendorName v)) in
            String.eqb current normalizedVendorName)
         listed.

(** Every stored vendor name is trimmed. *)
Definition names_trimmed (db : DB) : Prop :=
  Forall (fun v => JS.trim (vendor_name v) = vendor_name v) (visits db).

(** ** Identifiers as text

    [crypto.randomUUID()] issues, and PostgreSQL prints, a UUID as 32
    lower-case hexadecimal digits in groups of 8, 4, 4, 4 and 12. On a
    column of type [UUID] PostgreSQL compares the identifiers themselves,
    and reads other spellings of one (upper-case digits among them) as
    the same identifier; the tables of the model hold identifiers in this
    text form and compare them as text, which is the same comparison for
    a parameter in this form. The statements below that depend on it
    take their identifiers in this form. *)
Fixpoint has_form (form : list (ascii -> bool)) (s : string) : bool :=
  match form, s with
  | [], EmptyString => true
  | f :: form', String c rest => f c && has_form form' rest
  | _, _ => false
  end.

Definition is_hyphen (c : ascii) : bool := Ascii.eqb c "-".

Definition uuid_form : list (ascii -> bool) :=
  replicate 8 is_lower_hex ++ [is_hyphen] ++ replicate 4 is_lower_hex ++ [is_hyphen]
  ++ replicate 4 is_lower_hex ++ [is_hyphen] ++ replicate 4 is_lower_hex ++ [is_hyphen]
  ++ replicate 12 is_lower_hex.

Definition canonical_uuid (s : string) : bool := has_form uuid_form s.

(** ** Decimal numerals

    What a decimal numeral denotes, read without reference to
    [String(x)]: an optional minus sign, digits with an optional point
    among them, and an optional exponent part (the letter e, a sign,
    digits). The numeral read as the pair [(m, e)] denotes [m × 10^e]. *)
Definition digit_value (c : ascii) : Z := Z.of_nat (nat_of_ascii c) - 48.

Fixpoint read_digits (acc : Z) (s : string) : option Z :=
  match s with
  | EmptyString => Some acc
  | String c rest =>
      if is_digit c then read_digits (10 * acc + digit_value c) rest else None
  end.

(** [s] cut at the first [c]: what is before it, and what is after it
    when [c] occurs. *)
Fixpoint cut_at (c : ascii) (s : string) : string * option string :=
  match s with
  | EmptyString => (EmptyString, None)
  | String a rest =>
      if Ascii.eqb a c then (EmptyString, Some rest)
      else (String a (cut_at c rest).1, (cut_at c rest).2)
  end.

Definition read_natural (s : string) : option Z :=
  match s with
  | EmptyString => None
  | String _ _ => read_digits 0 s
  end.

Definition read_exponent (s : string) : option Z :=
  match s with
  | EmptyString => None
  | String c rest =>
      if Ascii.eqb c "+" then read_natural rest
      else if Ascii.eqb c "-" then Z.opp <$> read_natural rest
      else read_natural s
  end.

(** The digits before the exponent part: their number, and minus the
    count of those after the point. *)
Definition read_mantissa (mantissa : string) : option (Z * Z) :=
  let whole := (cut_at "." mantissa).1 in
  let fraction :=
    match (cut_at "." mantissa).2 with
    | Some f => f
    | None => ""
    end in
  match read_natural whole, read_digits 0 (whole +:+ fraction) with
  | Some _, Some m => Some (m, - Z.of_nat (String.length fraction))
  | _, _ => None
  end.

Definition read_unsigned (s : string) : option (Z * Z) :=
  match read_mantissa (cut_at "e" s).1,
        match (cut_at "e" s).2 with
        | Some t => read_exponent t
        | None => Some 0
        end with
  | Some (m, d), Some e => Some (m, e + d)
  | _, _ => None
  end.

Definition decimal_value (s : string) : option (Z * Z) :=
  match s with
  | EmptyString => None
  | String c rest =>
      if Ascii.eqb c "-" then
        match read_unsigned rest with
        | Some (m, e) => Some (- m, e)
        | None => None
        end
      else read_unsigned s
  end.

(** [text] is a numeral of exactly the value of [x]. *)
Definition denotes (text : string) (x : JS.number) : Prop :=
  exists m e,
    decimal_value text = Some (m, e)
    /\ m * 10 ^ (e - Z.min e (JS.exponent10 x))
       = JS.significand x * 10 ^ (JS.exponent10 x - Z.min e (JS.exponent10 x)).

(** The number a digit string stands for, read from the left onto
    [acc]. *)
Fixpoint uint_value (acc : Z) (d : uint) : Z :=
  match d with
  | Nil => acc
  | D0 l => uint_value (10 * acc) l
  | D1 l => uint_value (10 * acc + 1) l
  | D2 l => uint_value (10 * acc + 2) l
  | D3 l => uint_value (10 * acc + 3) l
  | D4 l => uint_value (10 * acc + 4) l
  | D5 l => uint_value (10 * acc + 5) l
  | D6 l => uint_value (10 * acc + 6) l
  | D7 l => uint_value (10 * acc + 7) l
  | D8 l => uint_value (10 * acc + 8) l
  | D9 l => uint_value (10 * acc + 9) l
  end.

(** ** Further worked examples *)

Module Scenario.

(** A check-in refused for its accuracy has left the visit row of
    "Riverside Market" without any event; [chal2] is issued afterwards. *)
Definition db_orphan : DB :=
  Fixture.db_challenge Fixture.chal2
    (check_in Fixture.env (Fixture.ctx_at 2000 Fixture.visit1 Fixture.event1 Fixture.chal1)
       (Fixture.signed CHECK_IN "Riverside Market" Fixture.ten Fixture.photo Fixture.chal1)
       Fixture.db1).2.

Definition check_out_ctx : Ctx :=
  Fixture.ctx_at 4000 Fixture.visit2 Fixture.event2 Fixture.chal2.

Definition check_out_body : Body :=
  Fixture.signed CHECK_OUT "Riverside Market" Fixture.four Fixture.photo Fixture.chal2.

Definition check_in_ctx : Ctx :=
  Fixture.ctx_at 2000 Fixture.visit1 Fixture.event1 Fixture.chal1.

Definition check_in_body : Body :=
  Fixture.signed CHECK_IN "Riverside Market" Fixture.four Fixture.photo Fixture.chal1.

(** The client state with a vendor name typed with a trailing space. *)
Definition padded : ClientState :=
  {| cl_vendorName := "Riverside Market ";
     cl_lat := num false (D3 (D7 Nil)) 2;
     cl_lng := num true (D1 (D2 (D2 Nil))) 3;
     cl_accuracy := Fixture.four;
     cl_photoUrl := Fixture.photo;
     cl_photoSha := Fixture.digest;
     cl_publicKeyB64 := Fixture.device_key |}.

(** A disk that is a map from paths to contents, with a digest that
    only counts the bytes. *)
Definition platform : Platform :=
  {| Disk := gmap string (list Byte.byte);
     sha256Hex := fun b => JS.nat_to_string (length b);
     path_join_photo_dir := fun f => "/srv/api/uploads/" +:+ f;
     writeFileSync := fun p b d => (Normal tt, <[p := b]> d);
     within_fileSize := fun limit b => Z.of_nat (length b) <=? limit |}.

Definition jpeg : UploadedFile := {| mimetype := "image/jpeg"; buffer := [xff; xd8; xff] |}.

(** Signing with the device key under the stand-in provider. *)
Definition device_sign (payload : string) : string := Fixture.device_key +:+ payload.

End Scenario.

(** * Properties *)

(** Unfolds the request monad down to the database function. *)
Ltac monad :=
  unfold mbind, mret, M_bind, M_ret, bind, ret, try_catch, attempt, lift, respond in *.

(** ** Challenge consumption, one call *)

Lemma verifyChallenge_run ctx id presented db :
  verifyChallenge ctx id presented db =
    match consume_spec (date_now ctx) (server_challenges db !! id) presented with
    | Some r => (Normal (ChallengeRejected (rejection_message r)), db)
    | None => (Normal ChallengeOk, set_used_at id (db_now ctx) db)
    end.
Proof.
  unfold verifyChallenge, select_challenge, update_challenge_used, consume_spec. monad.
  destruct (server_challenges db !! id) as [row|]; [|reflexivity].
  destruct (bool_decide (is_Some (used_at row))); [reflexivity|].
  destruct (date_now ctx >? expires_at row); [reflexivity|].
  destruct (String.eqb_spec (nonce row) presented) as [->|Hne]; simpl.
  - rewrite bool_decide_eq_false_2; [reflexivity | intros H; apply H; reflexivity].
  - rewrite bool_decide_eq_true_2; [reflexivity | congruence].
Qed.

(** C3: for a challenge id presented in canonical text, the result of
    [verifyChallenge] is the outcome of the four checks taken in the
    order NotFound, AlreadyUsed, Expired, NonceMismatch; in particular an
    unused challenge past its expiry is rejected as expired whatever
    nonce is presented. *)
Theorem verifyChallenge_precedence ctx id presented db :
  canonical_uuid id = true ->
  (verifyChallenge ctx id presented db).1
    = Normal (result_of_spec
                (consume_spec (date_now ctx) (server_challenges db !! id) presented))
  /\ (forall row,
        server_challenges db !! id = Some row ->
        used_at row = None ->
        date_now ctx > expires_at row ->
        verifyChallenge ctx id presented db
          = (Normal (ChallengeRejected "Challenge expired"), db)).
Proof.
  intros _. rewrite verifyChallenge_run. split.
  - destruct (consume_spec _ _ _); reflexivity.
  - intros row Hrow Hunused Hlate.
    unfold consume_spec. rewrite Hrow, Hunused.
    rewrite bool_decide_eq_false_2 by (intros [? ?]; discriminate).
    replace (date_now ctx >? expires_at row) with true; [reflexivity|].
    symmetry. apply Z.gtb_lt. lia.
Qed.

Lemma verifyChallenge_precedence_witness :
  (verifyChallenge (Fixture.ctx_at 500000 Fixture.visit1 Fixture.event1 Fixture.chal2)
     Fixture.chal1 "abc123" Fixture.db1).1
  = Normal (ChallengeRejected "Challenge expired").
Proof.
  pose proof (verifyChallenge_precedence
                (Fixture.ctx_at 500000 Fixture.visit1 Fixture.event1 Fixture.chal2)
                Fixture.chal1 "abc123" Fixture.db1 eq_refl) as [_ H].
  rewrite (H {| nonce := "abc123"; expires_at := 121000; used_at := None |});
    [reflexivity | vm_compute; reflexivity | reflexivity | vm_compute; reflexivity].
Defined.

(** ** The signature check *)

(** The [catch] covers the whole body and its handler cannot throw. *)
Lemma verifySignature_returns env (devicePublicKeyBase64 signatureBase64 payload : string) :
  exists b, verifySignature env devicePublicKeyBase64 signatureBase64 payload = Normal b.
Proof.
  unfold verifySignature, completion_catch, completion_bind.
  destruct (Buffer_from_base64 env devicePublicKeyBase64) as [der|e]; [|eauto].
  destruct (Buffer_from_base64 env signatureBase64) as [sg|e]; [|eauto].
  destruct (createPublicKey env der) as [key|e]; [|eauto].
  destruct (crypto_verify env _ key sg) as [b|e]; eauto.
Qed.

(** C7: [verifySignature] returns a boolean on every input, whatever
    the decoder and the crypto provider do; the boolean is [true] only
    when both decodings and the key parse succeed and the verification
    returns [true]; in particular a key that does not parse gives
    [false]. *)
Theorem verifySignature_total env (devicePublicKeyBase64 signatureBase64 payload : string) :
  (exists b, verifySignature env devicePublicKeyBase64 signatureBase64 payload = Normal b)
  /\ (verifySignature env devicePublicKeyBase64 signatureBase64 payload = Normal true <->
      exists der sg key,
        Buffer_from_base64 env devicePublicKeyBase64 = Normal der
        /\ Buffer_from_base64 env signatureBase64 = Normal sg
        /\ createPublicKey env der = Normal key
        /\ crypto_verify env (Buffer_from_utf8 payload) key sg = Normal true)
  /\ (forall der e,
        Buffer_from_base64 env devicePublicKeyBase64 = Normal der ->
        createPublicKey env der = Throw e ->
        verifySignature env devicePublicKeyBase64 signatureBase64 payload = Normal false).
Proof.
  split; [apply verifySignature_returns|].
  unfold verifySignature, completion_catch, completion_bind. split.
  - split.
    + destruct (Buffer_from_base64 env devicePublicKeyBase64) as [der|e]; [|discriminate].
      destruct (Buffer_from_base64 env signatureBase64) as [sg|e]; [|discriminate].
      destruct (createPublicKey env der) as [key|e] eqn:Hkey; [|discriminate].
      destruct (crypto_verify env _ key sg) as [b|e] eqn:Hverify; [|discriminate].
      intros [= ->]. exists der, sg, key. auto.
    + intros (der & sg & key & -> & -> & -> & ->). reflexivity.
  - intros der e -> Hkey.
    destruct (Buffer_from_base64 env signatureBase64) as [sg|e']; [|reflexivity].
    rewrite Hkey. reflexivity.
Qed.

Lemma verifySignature_total_witness :
  verifySignature Fixture.env "not a key" "AAAA" "abc123|CHECK_IN" = Normal false.
Proof.
  destruct (verifySignature_total Fixture.env "not a key" "AAAA" "abc123|CHECK_IN")
    as (_ & _ & Hparse).
  apply (Hparse (String.list_byte_of_string "not a key") "ERR_OSSL_ASN1_WRONG_TAG");
    reflexivity.
Defined.

Lemma verifySignature_accepted env (body : Body) :
  verifySignature env (devicePublicKey body) (deviceSignature body) (buildSigningPayload body)
  = Normal (signature_accepted env body).
Proof.
  unfold signature_accepted.
  destruct (verifySignature_returns env (devicePublicKey body) (deviceSignature body)
              (buildSigningPayload body)) as [b ->].
  reflexivity.
Qed.

(** ** The event pipeline *)

(** [insertEvent] as a function of the database: the two gate checks,
    the challenge, the signature, the insert. *)
Lemma insertEvent_run env ctx visitId body db :
  insertEvent env ctx visitId body db =
    if JS.gt (accuracyMeters body) (ACCURACY_THRESHOLD_METERS env) then
      (Normal (InsertFailed 400
         ("Accuracy must be <= " +:+ JS.toString (ACCURACY_THRESHOLD_METERS env) +:+ " meters")),
       db)
    else if negb (photoExists env ctx (photoUrl body)) then
      (Normal (InsertFailed 400 "Photo not found. Upload photo first."), db)
    else
      match consume_spec (date_now ctx) (server_challenges db !! challengeId body)
              (challengeNonce body) with
      | Some r => (Normal (InsertFailed 400 (rejection_message r)), db)
      | None =>
          let db1 := set_used_at (challengeId body) (db_now ctx) db in
          if negb (signature_accepted env body) then
            (Normal (InsertFailed 400 "Invalid device signature"), db1)
          else
            match insert_visit_event env (event_row ctx (uuid_event ctx) visitId body) db1 with
            | (Normal _, db2) => (Normal (InsertOk (uuid_event ctx)), db2)
            | (Throw _, db2) => (Normal (InsertFailed 500 "Failed to save event"), db2)
            end
      end.
Proof.
  unfold insertEvent.
  destruct (JS.gt _ _); [reflexivity|].
  destruct (negb (photoExists _ _ _)); [reflexivity|].
  unfold mbind, M_bind, bind. rewrite verifyChallenge_run.
  destruct (consume_spec _ _ _); [reflexivity|].
  unfold lift. rewrite verifySignature_accepted. cbv zeta.
  destruct (negb (signature_accepted env body)); [reflexivity|].
  unfold try_catch, mret, M_ret, ret.
  destruct (insert_visit_event _ _) as [[[]|e] db2]; reflexivity.
Qed.

Lemma set_used_at_used id t db row :
  server_challenges db !! id = Some row -> challenge_used (set_used_at id t db) id.
Proof.
  intros Hrow. exists (mark_used t row). split; [|simpl; eauto].
  unfold set_used_at. simpl. rewrite lookup_alter_eq, Hrow. reflexivity.
Qed.

Lemma set_used_at_keeps id t db id' :
  challenge_used db id' -> challenge_used (set_used_at id t db) id'.
Proof.
  intros (row & Hrow & Hused). unfold challenge_used, set_used_at. simpl.
  destruct (decide (id = id')) as [->|Hne].
  - exists (mark_used t row). rewrite lookup_alter_eq, Hrow. simpl. eauto.
  - exists row. rewrite lookup_alter_ne by done. eauto.
Qed.

(** What each INSERT leaves alone. *)
Lemma insert_visit_event_frame env row db :
  server_challenges (insert_visit_event env row db).2 = server_challenges db
  /\ visits (insert_visit_event env row db).2 = visits db.
Proof.
  unfold insert_visit_event.
  repeat match goal with |- context [if ?b then _ else _] => destruct b end;
    simpl; auto.
Qed.

Lemma insert_visit_frame id name t db :
  server_challenges (insert_visit id name t db).2 = server_challenges db
  /\ visit_events (insert_visit id name t db).2 = visit_events db.
Proof.
  unfold insert_visit.
  repeat match goal with |- context [if ?b then _ else _] => destruct b end;
    simpl; auto.
Qed.

Lemma challenge_used_ext db db' id :
  server_challenges db' = server_challenges db ->
  challenge_used db id -> challenge_used db' id.
Proof. unfold challenge_used. intros ->. auto. Qed.

Lemma insert_challenge_used id nonce_ expires db id' :
  challenge_used db id' -> challenge_used (insert_challenge id nonce_ expires db).2 id'.
Proof.
  intros (row & Hrow & Hused). unfold insert_challenge.
  destruct (server_challenges db !! id) eqn:Hid; simpl.
  - exists row. auto.
  - exists row. split; [|assumption]. simpl.
    rewrite lookup_insert_ne; [assumption|]. intros ->. congruence.
Qed.

Lemma insertEvent_used env ctx visitId body db id :
  challenge_used db id -> challenge_used (insertEvent env ctx visitId body db).2 id.
Proof.
  intros Hused. rewrite insertEvent_run.
  destruct (JS.gt _ _); [assumption|].
  destruct (negb (photoExists _ _ _)); [assumption|].
  destruct (consume_spec _ _ _); [assumption|]. cbv zeta.
  pose proof (set_used_at_keeps (challengeId body) (db_now ctx) db id Hused) as Hused1.
  destruct (negb (signature_accepted env body)); [assumption|].
  pose proof (insert_visit_event_frame env
                (event_row ctx (uuid_event ctx) visitId body)
                (set_used_at (challengeId body) (db_now ctx) db)) as [Hframe _].
  destruct (insert_visit_event _ _) as [[[]|e] db2]; cbn [snd] in Hframe;
    exact (challenge_used_ext _ db2 id Hframe Hused1).
Qed.

Lemma handle_used env ctx req db id :
  challenge_used db id -> challenge_used (handle env ctx req db).2 id.
Proof.
  intros Hused. destruct req as [|body|visitId body]; simpl.
  - unfold get_challenge, createChallenge. monad.
    pose proof (insert_challenge_used (uuid_challenge ctx) (random_nonce ctx)
                  (date_now ctx + CHALLENGE_TTL_SECONDS env * 1000) db id Hused) as H.
    destruct (insert_challenge _ _ _ db) as [[[]|e] db1]; exact H.
  - unfold check_in. monad.
    destruct (negb (EventSchema_success env body)); [assumption|].
    destruct (negb (EventType_eqb _ _)); [assumption|].
    unfold select_visit_by_vendor.
    destruct (visit_pk <$> find _ (visits db)); [assumption|].
    pose proof (insert_visit_frame (uuid_visit ctx) (JS.trim (vendorName body))
                  (db_now ctx) db) as [Hframe _].
    destruct (insert_visit _ _ _ db) as [[[]|e] dbv]; cbn [snd] in Hframe;
      [|exact (challenge_used_ext db dbv id Hframe Hused)].
    pose proof (insertEvent_used env ctx (uuid_visit ctx) body dbv id
                  (challenge_used_ext db dbv id Hframe Hused)) as H.
    destruct (insertEvent _ _ _ _ dbv) as [[[eid|st err]|e] db']; exact H.
  - unfold check_out. monad.
    destruct (negb (EventSchema_success env body)); [assumption|].
    destruct (negb (EventType_eqb _ _)); [assumption|].
    unfold select_visit_by_id.
    destruct (negb (pg_uuid env visitId)); [assumption|].
    destruct (vendor_name <$> find _ (visits db)); [|assumption].
    destruct (negb (String.eqb _ _)); [assumption|].
    pose proof (insertEvent_used env ctx visitId body db id Hused) as H.
    destruct (insertEvent _ _ _ _ db) as [[[eid|st err]|e] db']; exact H.
Qed.

Lemma run_requests_used env reqs db id :
  challenge_used db id -> challenge_used (run_requests env reqs db) id.
Proof.
  revert db. induction reqs as [|[ctx req] rest IH]; intros db Hused; simpl.
  - assumption.
  - apply IH, handle_used, Hused.
Qed.

Lemma used_is_rejected ctx id presented db :
  challenge_used db id ->
  verifyChallenge ctx id presented db
    = (Normal (ChallengeRejected "Challenge already used"), db).
Proof.
  intros (row & Hrow & Hused). rewrite verifyChallenge_run.
  unfold consume_spec. rewrite Hrow, bool_decide_eq_true_2 by assumption. reflexivity.
Qed.

(** C8: a submission that passes the gate and consumes its challenge
    and whose signature is then refused answers "Invalid device signature"
    and leaves the challenge used, after any further requests too, so that
    every later consumption of it is refused as already used; a
    submission the gate refuses leaves the database as it was. *)
Theorem insertEvent_challenge_spent env ctx visitId body db :
  (JS.gt (accuracyMeters body) (ACCURACY_THRESHOLD_METERS env) = false ->
   photoExists env ctx (photoUrl body) = true ->
   (verifyChallenge ctx (challengeId body) (challengeNonce body) db).1 = Normal ChallengeOk ->
   verifySignature env (devicePublicKey body) (deviceSignature body)
     (buildSigningPayload body) = Normal false ->
   (insertEvent env ctx visitId body db).1
     = Normal (InsertFailed 400 "Invalid device signature")
   /\ forall reqs,
        let later := run_requests env reqs (insertEvent env ctx visitId body db).2 in
        challenge_used later (challengeId body)
        /\ forall ctx' presented,
             verifyChallenge ctx' (challengeId body) presented later
               = (Normal (ChallengeRejected "Challenge already used"), later))
  /\ (JS.gt (accuracyMeters body) (ACCURACY_THRESHOLD_METERS env) = true
      \/ photoExists env ctx (photoUrl body) = false ->
      (insertEvent env ctx visitId body db).2 = db
      /\ exists error,
           (insertEvent env ctx visitId body db).1 = Normal (InsertFailed 400 error)).
Proof.
  split.
  - intros Hacc Hphoto Hconsume Hsig.
    rewrite verifyChallenge_run in Hconsume.
    rewrite insertEvent_run, Hacc, Hphoto. simpl negb. cbv iota.
    destruct (consume_spec _ _ _) eqn:Hspec; [discriminate|].
    assert (signature_accepted env body = false) as ->
      by (unfold signature_accepted; rewrite Hsig; reflexivity).
    simpl. split; [reflexivity|].
    assert (challenge_used (set_used_at (challengeId body) (db_now ctx) db) (challengeId body))
      as Hused.
    { unfold consume_spec in Hspec.
      destruct (server_challenges db !! challengeId body) as [row|] eqn:Hrow; [|discriminate].
      eapply set_used_at_used, Hrow. }
    intros reqs. split.
    + apply run_requests_used, Hused.
    + intros ctx' presented. apply used_is_rejected, run_requests_used, Hused.
  - intros Hgate. rewrite insertEvent_run.
    destruct (JS.gt _ _); [simpl; eauto|].
    destruct Hgate as [?| ->]; [discriminate|]. simpl. eauto.
Qed.

Lemma insertEvent_challenge_spent_witness :
  let body := Fixture.unsigned CHECK_IN "Riverside Market" Fixture.four Fixture.photo
                Fixture.chal1 in
  let ctx := Fixture.ctx_at 2000 Fixture.visit1 Fixture.event1 Fixture.chal2 in
  (insertEvent Fixture.env ctx Fixture.visit1 body Fixture.db1).1
    = Normal (InsertFailed 400 "Invalid device signature")
  /\ (insertEvent Fixture.env ctx Fixture.visit1
        (Fixture.unsigned CHECK_IN "Riverside Market" Fixture.ten Fixture.photo Fixture.chal1)
        Fixture.db1).2 = Fixture.db1.
Proof.
  intros body ctx. split.
  - destruct (insertEvent_challenge_spent Fixture.env ctx Fixture.visit1 body Fixture.db1)
      as [H _].
    apply H; reflexivity.
  - destruct (insertEvent_challenge_spent Fixture.env ctx Fixture.visit1
                (Fixture.unsigned CHECK_IN "Riverside Market" Fixture.ten Fixture.photo
                   Fixture.chal1) Fixture.db1) as [_ H].
    apply H. left. reflexivity.
Defined.

(** ** The visit routes *)

Lemma find_existsb {A} (f : A -> bool) (l : list A) :
  existsb f l = bool_decide (is_Some (find f l)).
Proof.
  induction l as [|a l IH]; cbn [existsb find].
  - symmetry. apply bool_decide_eq_false_2. intros [? ?]; discriminate.
  - destruct (f a); [|exact IH].
    symmetry. apply bool_decide_eq_true_2. eauto.
Qed.

Lemma find_none_existsb {A} (f : A -> bool) (l : list A) :
  existsb f l = false -> find f l = None.
Proof.
  rewrite find_existsb. intros H. apply bool_decide_eq_false_1 in H.
  destruct (find f l); [exfalso; eauto | reflexivity].
Qed.

Lemma find_some_existsb {A} (f : A -> bool) (l : list A) :
  existsb f l = true -> exists a, find f l = Some a.
Proof.
  rewrite find_existsb. intros H. apply bool_decide_eq_true_1 in H.
  destruct H as [a Ha]. eauto.
Qed.

Lemma insert_visit_cases id name t db :
  (has_visit db id = false /\ vendor_taken db name = false
   /\ insert_visit id name t db =
        (Normal tt,
         {| server_challenges := server_challenges db;
            visits := visits db ++ [{| visit_pk := id; vendor_name := name;
                                       visit_created_at := t |}];
            visit_events := visit_events db |}))
  \/ ((has_visit db id = true \/ vendor_taken db name = true)
      /\ exists e, insert_visit id name t db = (Throw e, db)).
Proof.
  unfold insert_visit, has_visit, vendor_taken.
  destruct (existsb (visit_pk_is id) (visits db)); [right; eauto|].
  destruct (existsb (lower_vendor_is name) (visits db)); [right; eauto|].
  left. auto.
Qed.

Lemma insert_visit_event_cases env row db :
  insert_visit_event env row db =
    (Normal tt,
     {| server_challenges := server_challenges db; visits := visits db;
        visit_events := visit_events db ++ [row] |})
  \/ exists e, insert_visit_event env row db = (Throw e, db).
Proof.
  unfold insert_visit_event.
  repeat match goal with |- context [if ?b then _ else _] => destruct b end; eauto.
Qed.


(** [insertEvent] never touches [visits], and appends an event only
    when it answers [InsertOk]. *)
Lemma insertEvent_frame env ctx visitId body db :
  visits (insertEvent env ctx visitId body db).2 = visits db
  /\ (forall st err,
        (insertEvent env ctx visitId body db).1 = Normal (InsertFailed st err) ->
        visit_events (insertEvent env ctx visitId body db).2 = visit_events db)
  /\ exists r, (insertEvent env ctx visitId body db).1 = Normal r.
Proof.
  rewrite insertEvent_run.
  destruct (JS.gt _ _); [simpl; eauto|].
  destruct (negb (photoExists _ _ _)); [simpl; eauto|].
  destruct (consume_spec _ _ _); [simpl; eauto|]. cbv zeta.
  destruct (negb (signature_accepted env body)); [simpl; eauto|].
  destruct (insert_visit_event_cases env (event_row ctx (uuid_event ctx) visitId body)
              (set_used_at (challengeId body) (db_now ctx) db)) as [->|[e ->]];
    simpl; repeat split; eauto; discriminate.
Qed.

(** [POST /api/visits/check-in] as a function of the database. *)
Lemma check_in_run env ctx body db :
  check_in env ctx body db =
    if negb (EventSchema_success env body) then
      (Normal {| status := 400; json := JsonInvalidPayload |}, db)
    else if negb (EventType_eqb (eventType body) CHECK_IN) then
      (Normal {| status := 400; json := JsonError "eventType must be CHECK_IN" |}, db)
    else if vendor_taken db (vendorName body) then
      (Normal {| status := 409; json := JsonError "Vendor name already exists" |}, db)
    else
      match insert_visit (uuid_visit ctx) (JS.trim (vendorName body)) (db_now ctx) db with
      | (Throw _, dbv) =>
          (Normal {| status := 500; json := JsonError "Failed to create visit" |}, dbv)
      | (Normal _, dbv) =>
          match insertEvent env ctx (uuid_visit ctx) body dbv with
          | (Normal (InsertFailed st err), db') =>
              (Normal {| status := st; json := JsonError err |}, db')
          | (Normal (InsertOk id), db') =>
              (Normal {| status := 201; json := JsonCreated (uuid_visit ctx) id |}, db')
          | (Throw e, db') => (Throw e, db')
          end
      end.
Proof.
  unfold check_in. monad.
  destruct (negb (EventSchema_success env body)); [reflexivity|].
  destruct (negb (EventType_eqb _ _)); [reflexivity|].
  unfold select_visit_by_vendor, vendor_taken.
  destruct (existsb (lower_vendor_is (vendorName body)) (visits db)) eqn:Htaken.
  - apply find_some_existsb in Htaken as [v ->]. reflexivity.
  - apply find_none_existsb in Htaken. rewrite Htaken. simpl.
    destruct (insert_visit _ _ _ db) as [[[]|e] dbv]; [|reflexivity].
    destruct (insertEvent _ _ _ _ dbv) as [[[id|st err]|e] db']; reflexivity.
Qed.

(** [POST /api/visits/:visitId/check-out] as a function of the
    database. *)
Lemma check_out_run env ctx visitId body db :
  check_out env ctx visitId body db =
    if negb (EventSchema_success env body) then
      (Normal {| status := 400; json := JsonInvalidPayload |}, db)
    else if negb (EventType_eqb (eventType body) CHECK_OUT) then
      (Normal {| status := 400; json := JsonError "eventType must be CHECK_OUT" |}, db)
    else if negb (pg_uuid env visitId) then
      (Throw "invalid input syntax for type uuid", db)
    else
      match find (visit_pk_is visitId) (visits db) with
      | None => (Normal {| status := 404; json := JsonError "Visit not found" |}, db)
      | Some v =>
          if negb (String.eqb (JS.toLowerCase (JS.trim (vendorName body)))
                              (JS.toLowerCase (JS.trim (vendor_name v)))) then
            (Normal {| status := 400;
                       json := JsonError ("Vendor mismatch: check-in was " +:+ dquote
                                          +:+ vendor_name v +:+ dquote
                                          +:+ " but check-out is " +:+ dquote
                                          +:+ vendorName body +:+ dquote) |}, db)
          else
            match insertEvent env ctx visitId body db with
            | (Normal (InsertFailed st err), db') =>
                (Normal {| status := st; json := JsonError err |}, db')
            | (Normal (InsertOk id), db') =>
                (Normal {| status := 201; json := JsonCreated visitId id |}, db')
            | (Throw e, db') => (Throw e, db')
            end
      end.
Proof.
  unfold check_out. monad.
  destruct (negb (EventSchema_success env body)); [reflexivity|].
  destruct (negb (EventType_eqb _ _)); [reflexivity|].
  unfold select_visit_by_id.
  destruct (negb (pg_uuid env visitId)); [reflexivity|].
  destruct (find _ (visits db)) as [v|]; simpl; [|reflexivity].
  destruct (negb (String.eqb _ _)); [reflexivity|].
  destruct (insertEvent _ _ _ _ db) as [[[id|st err]|e] db']; reflexivity.
Qed.

(** ** The photo gate *)















(** ** Vendor names *)

Lemma vendor_taken_elem db name :
  vendor_taken db name = true <-> JS.toLowerCase name ∈ vendor_keys db.
Proof.
  unfold vendor_taken, vendor_keys. induction (visits db) as [|v l IH]; simpl.
  - split; [discriminate | intros H; inversion H].
  - rewrite orb_true_iff, elem_of_cons, IH. unfold lower_vendor_is.
    destruct (String.eqb_spec (JS.toLowerCase (vendor_name v)) (JS.toLowerCase name));
      intuition congruence.
Qed.

Lemma vendor_taken_row db name v :
  v ∈ visits db ->
  JS.toLowerCase (vendor_name v) = JS.toLowerCase name ->
  vendor_taken db name = true.
Proof.
  intros Hin Hsame. apply vendor_taken_elem. rewrite <- Hsame.
  unfold vendor_keys. apply (list_elem_of_fmap_2 (fun v => JS.toLowerCase (vendor_name v))).
  exact Hin.
Qed.

Lemma insert_visit_unique id name t db :
  vendors_unique db -> vendors_unique (insert_visit id name t db).2.
Proof.
  intros Huniq.
  destruct (insert_visit_cases id name t db) as [(_ & Hfree & ->)|(_ & e & ->)];
    [|assumption].
  unfold vendors_unique, vendor_keys in *. simpl. rewrite fmap_app. simpl.
  apply NoDup_app. split; [assumption|]. split; [|apply NoDup_singleton].
  intros k Hk Hnew. apply list_elem_of_singleton in Hnew. subst k.
  apply vendor_taken_elem in Hk. congruence.
Qed.

Lemma vendors_unique_ext db db' :
  visits db' = visits db -> vendors_unique db -> vendors_unique db'.
Proof. unfold vendors_unique, vendor_keys. intros ->. auto. Qed.

Lemma handle_unique env ctx req db :
  vendors_unique db -> vendors_unique (handle env ctx req db).2.
Proof.
  intros Huniq. destruct req as [|body|visitId body]; simpl.
  - unfold get_challenge, createChallenge, insert_challenge. monad.
    destruct (server_challenges db !! uuid_challenge ctx); exact Huniq.
  - rewrite check_in_run.
    destruct (negb (EventSchema_success env body)); [assumption|].
    destruct (negb (EventType_eqb _ _)); [assumption|].
    destruct (vendor_taken db (vendorName body)); [assumption|].
    pose proof (insert_visit_unique (uuid_visit ctx) (JS.trim (vendorName body))
                  (db_now ctx) db Huniq) as Hv.
    destruct (insert_visit _ _ _ db) as [[[]|e] dbv]; cbn [snd] in Hv; [|assumption].
    destruct (insertEvent_frame env ctx (uuid_visit ctx) body dbv) as (Hvisits & _ & _).
    destruct (insertEvent _ _ _ _ dbv) as [[[id|st err]|e] db']; cbn [snd] in *;
      exact (vendors_unique_ext dbv db' Hvisits Hv).
  - rewrite check_out_run.
    destruct (negb (EventSchema_success env body)); [assumption|].
    destruct (negb (EventType_eqb _ _)); [assumption|].
    destruct (negb (pg_uuid env visitId)); [assumption|].
    destruct (find _ (visits db)) as [v|]; [|assumption].
    destruct (negb (String.eqb _ _)); [assumption|].
    destruct (insertEvent_frame env ctx visitId body db) as (Hvisits & _ & _).
    destruct (insertEvent _ _ _ _ db) as [[[id|st err]|e] db']; cbn [snd] in *;
      exact (vendors_unique_ext db db' Hvisits Huniq).
Qed.

Lemma run_requests_unique env reqs db :
  vendors_unique db -> vendors_unique (run_requests env reqs db).
Proof.
  revert db. induction reqs as [|[ctx req] rest IH]; intros db Huniq; simpl.
  - assumption.
  - apply IH, handle_unique, Huniq.
Qed.

(** C6, as the code has it: in every database the server reaches, no
    two visits have the same vendor name up to case; a check-in whose
    vendor name equals that of a visit up to case is answered 409 "Vendor
    name already exists"; a check-in that passes this test and whose
    INSERT the table then refuses is answered 500 "Failed to create
    visit", the database unchanged. *)
Theorem vendor_names_unique env :
  (forall reqs, vendors_unique (run_requests env reqs empty_db))
  /\ (forall ctx body db v,
        EventSchema_success env body = true ->
        eventType body = CHECK_IN ->
        v ∈ visits db ->
        JS.toLowerCase (vendor_name v) = JS.toLowerCase (vendorName body) ->
        check_in env ctx body db
          = (Normal {| status := 409; json := JsonError "Vendor name already exists" |}, db))
  /\ (forall ctx body db e,
        EventSchema_success env body = true ->
        eventType body = CHECK_IN ->
        vendor_taken db (vendorName body) = false ->
        (insert_visit (uuid_visit ctx) (JS.trim (vendorName body)) (db_now ctx) db).1
          = Throw e ->
        check_in env ctx body db
          = (Normal {| status := 500; json := JsonError "Failed to create visit" |}, db)).
Proof.
  repeat split.
  - intros reqs. apply run_requests_unique. apply NoDup_nil_2.
  - intros ctx body db v Hschema Htype Hin Hsame.
    rewrite check_in_run, Hschema, Htype, (vendor_taken_row db _ v Hin Hsame). reflexivity.
  - intros ctx body db e Hschema Htype Hfree Hthrow.
    rewrite check_in_run, Hschema, Htype, Hfree. simpl.
    destruct (insert_visit_cases (uuid_visit ctx) (JS.trim (vendorName body)) (db_now ctx) db)
      as [(_ & _ & Hins)|(_ & e' & Hins)]; rewrite Hins in *; [discriminate|reflexivity].
Qed.

Lemma vendor_names_unique_witness :
  let ctx := Fixture.ctx_at 3000 Fixture.visit2 Fixture.event2 Fixture.chal2 in
  check_in Fixture.env ctx
    (Fixture.signed CHECK_IN "RIVERSIDE market" Fixture.four Fixture.photo Fixture.chal2)
    Fixture.db_open
  = (Normal {| status := 409; json := JsonError "Vendor name already exists" |},
     Fixture.db_open)
  /\ check_in Fixture.env ctx
       (Fixture.signed CHECK_IN " Riverside Market" Fixture.four Fixture.photo Fixture.chal2)
       Fixture.db_open
     = (Normal {| status := 500; json := JsonError "Failed to create visit" |},
        Fixture.db_open).
Proof.
  intros ctx.
  destruct (vendor_names_unique Fixture.env) as (_ & Hdup & Hstorage). split.
  - apply (Hdup ctx _ Fixture.db_open
             (visit_row (Fixture.ctx_at 2000 Fixture.visit1 Fixture.event1 Fixture.chal1)
                "Riverside Market")); try reflexivity.
    vm_compute. apply list_elem_of_here.
  - apply (Hstorage ctx _ Fixture.db_open
             "duplicate key value violates unique constraint uniq_vendor_name");
      reflexivity.
Defined.

(** C6 as stated does not hold: a check-in whose vendor name differs
    from a stored one by surrounding white space passes the name test,
    its INSERT of the trimmed name violates [uniq_vendor_name], and the
    answer is 500 "Failed to create visit". *)
Lemma duplicate_vendor_counterexample :
  let ctx := Fixture.ctx_at 3000 Fixture.visit2 Fixture.event2 Fixture.chal2 in
  let body := Fixture.signed CHECK_IN "Riverside Market " Fixture.four Fixture.photo
                Fixture.chal2 in
  let r := check_in Fixture.env ctx body Fixture.db_open in
  has_vendor Fixture.db_open "Riverside Market" = true
  /\ (insert_visit (uuid_visit ctx) (JS.trim (vendorName body)) (db_now ctx)
        Fixture.db_open).1
     = Throw "duplicate key value violates unique constraint uniq_vendor_name"
  /\ r.1 = Normal {| status := 500; json := JsonError "Failed to create visit" |}
  /\ (forall resp, r.1 = Normal resp ->
        outcome resp = StorageFailure /\ outcome resp <> DuplicateVendor).
Proof.
  vm_compute. repeat split; try discriminate.
  all: match goal with H : Normal _ = Normal _ |- _ => injection H as <- end.
  all: try reflexivity; discriminate.
Qed.

(** ** Challenge consumption, many callers *)

(** The two statements of a caller, run back to back, are
    [verifyChallenge]. *)
Lemma verifyChallenge_steps ctx id presented db :
  let c := {| call_ctx := ctx; call_id := id; call_nonce := presented |} in
  let after_select := caller_step c AtSelect db in
  exists r,
    caller_step c after_select.1 after_select.2
      = (Returned r, (verifyChallenge ctx id presented db).2)
    /\ (verifyChallenge ctx id presented db).1 = Normal r.
Proof.
  intros c after_select. subst after_select c.
  unfold verifyChallenge, select_challenge, update_challenge_used. monad.
  unfold caller_step. cbn [call_id call_ctx call_nonce].
  destruct (server_challenges db !! id) as [row|]; [|eauto].
  destruct (bool_decide (is_Some (used_at row))); [eauto|].
  destruct (date_now ctx >? expires_at row); [eauto|].
  destruct (negb (String.eqb (nonce row) presented)); eauto.
Qed.

Lemma consume_each_used id calls db :
  challenge_used db id ->
  Forall (fun c => call_id c = id) calls ->
  consume_each calls db
    = (Normal (replicate (length calls) (ChallengeRejected "Challenge already used")), db).
Proof.
  intros Hused Hid. induction Hid as [|c rest Hc _ IH]; [reflexivity|].
  cbn [consume_each]. monad.
  rewrite (used_is_rejected (call_ctx c) (call_id c) (call_nonce c) db) by (rewrite Hc; exact Hused).
  rewrite IH. reflexivity.
Qed.

Lemma successes_rejected n reason :
  successes (replicate n (ChallengeRejected reason)) = 0%nat.
Proof. unfold successes. induction n; simpl; auto. Qed.

Lemma consume_each_at_most_once id calls :
  Forall (fun c => call_id c = id) calls ->
  forall db, exists rs db',
    consume_each calls db = (Normal rs, db')
    /\ length rs = length calls
    /\ (successes rs <= 1)%nat.
Proof.
  induction 1 as [|c rest Hc Hrest IH]; intros db.
  - exists [], db. repeat split; simpl; auto.
  - cbn [consume_each]. monad. rewrite verifyChallenge_run.
    destruct (consume_spec _ _ _) as [reason|] eqn:Hspec.
    + destruct (IH db) as (rs & db' & -> & Hlen & Hle).
      exists (ChallengeRejected (rejection_message reason) :: rs), db'.
      repeat split; simpl; auto.
    + assert (challenge_used (set_used_at (call_id c) (db_now (call_ctx c)) db) id) as Hused.
      { unfold consume_spec in Hspec.
        destruct (server_challenges db !! call_id c) as [row|] eqn:Hrow; [|discriminate].
        rewrite <- Hc. eapply set_used_at_used, Hrow. }
      rewrite (consume_each_used id rest _ Hused Hrest).
      eexists _, _. split; [reflexivity|]. split.
      * simpl. rewrite length_replicate. reflexivity.
      * unfold successes. simpl. fold (successes (replicate (length rest)
                                        (ChallengeRejected "Challenge already used"))).
        rewrite successes_rejected. lia.
Qed.

Lemma consume_each_first_wins id c rest db row :
  call_id c = id ->
  Forall (fun c => call_id c = id) rest ->
  server_challenges db !! id = Some row ->
  used_at row = None ->
  call_nonce c = nonce row ->
  date_now (call_ctx c) <= expires_at row ->
  consume_each (c :: rest) db
    = (Normal (ChallengeOk
               :: replicate (length rest) (ChallengeRejected "Challenge already used")),
       set_used_at id (db_now (call_ctx c)) db).
Proof.
  intros Hc Hrest Hrow Hunused Hnonce Hfresh.
  cbn [consume_each]. monad. rewrite verifyChallenge_run, Hc.
  unfold consume_spec. rewrite Hrow, Hunused.
  rewrite bool_decide_eq_false_2 by (intros [? ?]; discriminate).
  replace (date_now (call_ctx c) >? expires_at row) with false
    by (symmetry; rewrite Z.gtb_ltb; apply Z.ltb_ge; lia).
  rewrite bool_decide_eq_false_2 by (intros H; apply H; exact Hnonce).
  rewrite (consume_each_used id rest); [reflexivity| |assumption].
  eapply set_used_at_used, Hrow.
Qed.

(** C2, as the code has it: [verifyChallenge] is a SELECT followed by
    a separate UPDATE that only names the id. Of calls presenting one
    challenge id that run one after the other, each returns, at most one
    succeeds, and when the challenge is stored unused and the first call
    presents its nonce in time, that call succeeds and every later one is
    refused as already used. *)
Theorem consume_each_serial id calls db :
  Forall (fun c => call_id c = id) calls ->
  (exists rs db',
     consume_each calls db = (Normal rs, db')
     /\ length rs = length calls
     /\ (successes rs <= 1)%nat)
  /\ (forall c rest row,
        calls = c :: rest ->
        server_challenges db !! id = Some row ->
        used_at row = None ->
        call_nonce c = nonce row ->
        date_now (call_ctx c) <= expires_at row ->
        consume_each calls db
          = (Normal (ChallengeOk
                     :: replicate (length rest) (ChallengeRejected "Challenge already used")),
             set_used_at id (db_now (call_ctx c)) db)).
Proof.
  intros Hid. split.
  - apply (consume_each_at_most_once id calls Hid db).
  - intros c rest row -> Hrow Hunused Hnonce Hfresh.
    inversion Hid; subst.
    eapply consume_each_first_wins; eauto.
Qed.

Lemma consume_each_serial_witness :
  (consume_each Fixture.racers Fixture.db1).1
  = Normal [ChallengeOk; ChallengeRejected "Challenge already used"].
Proof.
  destruct (consume_each_serial Fixture.chal1 Fixture.racers Fixture.db1) as [_ H].
  - repeat constructor.
  - rewrite (H _ _ {| nonce := "abc123"; expires_at := 121000; used_at := None |}
               eq_refl); [reflexivity | vm_compute; reflexivity | reflexivity
                          | reflexivity | vm_compute; discriminate].
Defined.

(** C2 as stated does not hold: when both callers' SELECTs run before
    either UPDATE, both observe success, and the second UPDATE, not
    guarded by [used_at], overwrites the first. *)
Lemma consume_race_counterexample :
  let r := run_schedule Fixture.racers [0; 1; 0; 1]%nat [AtSelect; AtSelect] Fixture.db1 in
  r.1 = [Returned ChallengeOk; Returned ChallengeOk]
  /\ length (filter caller_succeeded r.1) <> 1%nat
  /\ used_at <$> (server_challenges r.2 !! Fixture.chal1) = Some (Some 2001)
  /\ (run_schedule Fixture.racers [0; 0; 1; 1]%nat [AtSelect; AtSelect] Fixture.db1).1
     = [Returned ChallengeOk; Returned (ChallengeRejected "Challenge already used")].
Proof. vm_compute. repeat split. discriminate. Qed.

(** ** Injectivity of the payload *)

Lemma append_length a b : String.length (a +:+ b) = (String.length a + String.length b)%nat.
Proof. induction a as [|c a IH]; simpl; auto. Qed.

Lemma append_cons x a b : String x a +:+ b = String x (a +:+ b).
Proof. reflexivity. Qed.

Lemma append_assoc a b c : (a +:+ b) +:+ c = a +:+ b +:+ c.
Proof.
  induction a as [|x a IH]; [reflexivity|]. rewrite !append_cons, IH. reflexivity.
Qed.

Lemma append_nil_l b : "" +:+ b = b.
Proof. reflexivity. Qed.

Lemma append_nil_r s : s +:+ "" = s.
Proof. induction s as [|c s IH]; [reflexivity|]. rewrite append_cons, IH. reflexivity. Qed.

Lemma append_inv_head a x y : a +:+ x = a +:+ y -> x = y.
Proof.
  induction a as [|c a IH]; [auto|]. rewrite !append_cons. intros [= H]. auto.
Qed.

Lemma all_chars_app P a b : all_chars P (a +:+ b) = all_chars P a && all_chars P b.
Proof.
  induction a as [|c a IH]; simpl; [reflexivity|].
  rewrite IH. apply andb_assoc.
Qed.

Lemma all_chars_impl (P Q : ascii -> bool) s :
  (forall c, P c = true -> Q c = true) -> all_chars P s = true -> all_chars Q s = true.
Proof.
  intros HPQ. induction s as [|c s IH]; simpl; [reflexivity|].
  intros [Hc Hs]%andb_true_iff. rewrite (HPQ c Hc), (IH Hs). reflexivity.
Qed.

Lemma digits_chars s : all_chars is_digit (JS.digits s) = true.
Proof. unfold JS.digits. induction s; simpl; auto. Qed.

Lemma zeros_chars m : all_chars is_digit (JS.zeros m) = true.
Proof. induction m; simpl; auto. Qed.

Lemma take_chars P m s : all_chars P s = true -> all_chars P (JS.take m s) = true.
Proof.
  revert m. induction s as [|c s IH]; intros [|m]; simpl; auto.
  intros [Hc Hs]%andb_true_iff. rewrite Hc. simpl. auto.
Qed.

Lemma drop_chars P m s : all_chars P s = true -> all_chars P (JS.drop m s) = true.
Proof.
  revert m. induction s as [|c s IH]; intros [|m]; simpl; auto.
  intros [Hc Hs]%andb_true_iff. auto.
Qed.

Lemma digit_number_char c : is_digit c = true -> number_char c = true.
Proof. unfold number_char. intros ->. reflexivity. Qed.

Lemma digits_number_chars s : all_chars number_char (JS.digits s) = true.
Proof. apply (all_chars_impl is_digit), digits_chars. exact digit_number_char. Qed.

Ltac number_chars :=
  repeat (rewrite all_chars_app; apply andb_true_iff; split);
  try reflexivity;
  try apply take_chars; try apply drop_chars;
  try apply digits_number_chars;
  try (apply (all_chars_impl is_digit); [exact digit_number_char | apply zeros_chars]).

Lemma positive_to_string_chars s n :
  all_chars number_char (JS.positive_to_string s n) = true.
Proof.
  unfold JS.positive_to_string, JS.exponent_part, JS.nat_to_string.
  repeat match goal with |- context [if ?b then _ else _] => destruct b end;
    number_chars.
Qed.

Lemma toString_chars x : all_chars number_char (JS.toString x) = true.
Proof.
  destruct x as [|[|] s n]; simpl; [reflexivity| |]; apply positive_to_string_chars.
Qed.

Lemma number_char_not_bar c : number_char c = true -> negb (Ascii.eqb c "|") = true.
Proof.
  destruct (Ascii.eqb_spec c "|") as [->|]; [discriminate | reflexivity].
Qed.

Lemma toString_bar_free x : bar_free (JS.toString x) = true.
Proof. apply (all_chars_impl number_char), toString_chars. exact number_char_not_bar. Qed.

Lemma EventType_str_bar_free t : bar_free (EventType_str t) = true.
Proof. destruct t; reflexivity. Qed.

Lemma EventType_str_inj t u : EventType_str t = EventType_str u -> t = u.
Proof. destruct t, u; simpl; intros H; try reflexivity; discriminate. Qed.

(** A string is cut at the first occurrence of a character in one way
    only. *)
Lemma cut_unique c a b r1 r2 :
  free_of c a = true -> free_of c b = true ->
  a +:+ String c r1 = b +:+ String c r2 -> a = b /\ r1 = r2.
Proof.
  unfold free_of. revert b. induction a as [|x a IH]; intros [|y b]; simpl.
  - intros _ _ [= ->]. auto.
  - intros _ [Hy _]%andb_true_iff [= <- _].
    rewrite Ascii.eqb_refl in Hy. discriminate.
  - intros [Hx _]%andb_true_iff _ [= -> _].
    rewrite Ascii.eqb_refl in Hx. discriminate.
  - intros [_ Ha]%andb_true_iff [_ Hb]%andb_true_iff [= -> Heq].
    destruct (IH b Ha Hb Heq) as [-> ->]. auto.
Qed.

Lemma cut_at_bar a b r1 r2 :
  bar_free a = true -> bar_free b = true ->
  a +:+ "|" +:+ r1 = b +:+ "|" +:+ r2 -> a = b /\ r1 = r2.
Proof. apply (cut_unique "|"). Qed.

Lemma split_free s : bar_free s = true -> JS.split "|" s = [s].
Proof.
  unfold bar_free, free_of. induction s as [|a s IH]; [reflexivity|].
  cbn [all_chars JS.split]. intros [Ha Hs]%andb_true_iff.
  apply negb_true_iff in Ha. rewrite Ha, (IH Hs). reflexivity.
Qed.

Lemma split_at_bar a r :
  bar_free a = true -> JS.split "|" (a +:+ "|" +:+ r) = a :: JS.split "|" r.
Proof.
  unfold bar_free, free_of. induction a as [|x a IH].
  - intros _. reflexivity.
  - cbn [all_chars]. intros [Hx Ha]%andb_true_iff. apply negb_true_iff in Hx.
    rewrite append_cons. cbn [JS.split]. rewrite Hx, (IH Ha). reflexivity.
Qed.

Lemma buildSigningPayload_fields p q :
  bar_free (challengeNonce p) = true -> bar_free (challengeNonce q) = true ->
  bar_free (vendorName p) = true -> bar_free (vendorName q) = true ->
  bar_free (capturedAt p) = true -> bar_free (capturedAt q) = true ->
  buildSigningPayload p = buildSigningPayload q ->
  challengeNonce p = challengeNonce q
  /\ eventType p = eventType q
  /\ vendorName p = vendorName q
  /\ JS.toString (latitude p) = JS.toString (latitude q)
  /\ JS.toString (longitude p) = JS.toString (longitude q)
  /\ JS.toString (accuracyMeters p) = JS.toString (accuracyMeters q)
  /\ capturedAt p = capturedAt q
  /\ photoSha256 p = photoSha256 q.
Proof.
  intros Hn Hn' Hv Hv' Hc Hc'. unfold buildSigningPayload. cbn [JS.join].
  pose proof (EventType_str_bar_free (eventType p)).
  pose proof (EventType_str_bar_free (eventType q)).
  pose proof (toString_bar_free (latitude p)). pose proof (toString_bar_free (latitude q)).
  pose proof (toString_bar_free (longitude p)). pose proof (toString_bar_free (longitude q)).
  pose proof (toString_bar_free (accuracyMeters p)).
  pose proof (toString_bar_free (accuracyMeters q)).
  intros Heq.
  repeat match type of Heq with
         | ?a +:+ "|" +:+ ?r1 = ?b +:+ "|" +:+ ?r2 =>
             let Hhead := fresh "Hhead" in
             apply cut_at_bar in Heq; [destruct Heq as [Hhead Heq] | assumption..]
         end.
  repeat split; auto using EventType_str_inj.
Qed.

(** ** [String(x)] tells numbers apart *)

Lemma zeros_length m : String.length (JS.zeros m) = m.
Proof. induction m; simpl; auto. Qed.

Lemma take_drop m s : JS.take m s +:+ JS.drop m s = s.
Proof.
  revert m. induction s as [|c s IH]; intros [|m]; simpl; try reflexivity.
  rewrite append_cons, IH. reflexivity.
Qed.

Lemma take_length m s : (m <= String.length s)%nat -> String.length (JS.take m s) = m.
Proof.
  revert m. induction s as [|c s IH]; intros [|m]; simpl; try lia.
  intros H. rewrite IH; lia.
Qed.

Lemma digits_inj s s' : JS.digits s = JS.digits s' -> s = s'.
Proof.
  unfold JS.digits. intros H.
  apply (f_equal NilEmpty.uint_of_string) in H.
  rewrite !NilEmpty.usu in H. congruence.
Qed.

Lemma nat_to_string_inj m m' : JS.nat_to_string m = JS.nat_to_string m' -> m = m'.
Proof.
  unfold JS.nat_to_string. intros H%digits_inj.
  apply (f_equal Nat.of_uint) in H. rewrite !DecimalNat.Unsigned.of_to in H. exact H.
Qed.

Lemma digits_free c s : is_digit c = false -> free_of c (JS.digits s) = true.
Proof.
  intros Hc. apply (all_chars_impl is_digit); [|apply digits_chars].
  intros a Ha. destruct (Ascii.eqb_spec a c) as [->|]; [congruence|reflexivity].
Qed.

Lemma zeros_free c m : is_digit c = false -> free_of c (JS.zeros m) = true.
Proof.
  intros Hc. apply (all_chars_impl is_digit); [|apply zeros_chars].
  intros a Ha. destruct (Ascii.eqb_spec a c) as [->|]; [congruence|reflexivity].
Qed.

Lemma free_of_app c a b : free_of c (a +:+ b) = free_of c a && free_of c b.
Proof. apply all_chars_app. Qed.

Lemma head_is_app c a b : a <> "" -> head_is c (a +:+ b) = head_is c a.
Proof. destruct a; [congruence | reflexivity]. Qed.

Lemma head_is_take c m s : (0 < m)%nat -> head_is c (JS.take m s) = head_is c s.
Proof. destruct m, s; simpl; auto; lia. Qed.

Lemma digits_head s :
  JS.starts_nonzero (JS.digits s) = true ->
  JS.digits s <> "" /\ head_is "0" (JS.digits s) = false /\ head_is "-" (JS.digits s) = false.
Proof.
  intros H. pose proof (digits_chars s) as Hd.
  destruct (JS.digits s) as [|c r]; simpl in *; [discriminate|].
  apply andb_true_iff in Hd as [Hc _].
  repeat split; [congruence | apply negb_true_iff, H |].
  destruct (Ascii.eqb_spec c "-") as [->|]; [discriminate | reflexivity].
Qed.

Lemma take_free c m s : free_of c s = true -> free_of c (JS.take m s) = true.
Proof. apply take_chars. Qed.

Lemma drop_free c m s : free_of c s = true -> free_of c (JS.drop m s) = true.
Proof. apply drop_chars. Qed.

Lemma exponent_part_shape n :
  free_of "e" (JS.exponent_part n) = false /\ free_of "." (JS.exponent_part n) = true.
Proof.
  unfold JS.exponent_part, JS.nat_to_string. cbv zeta. split.
  - rewrite free_of_app. reflexivity.
  - rewrite !free_of_app, digits_free by reflexivity.
    destruct (n - 1 <? 0); reflexivity.
Qed.

Lemma positive_to_string_layout s n :
  JS.positive_to_string s n =
    match JS.layout_of s n with
    | JS.Integral => JS.digits s +:+ JS.zeros (Z.to_nat (n - JS.num_k s))
    | JS.Fractional =>
        JS.take (Z.to_nat n) (JS.digits s) +:+ "." +:+ JS.drop (Z.to_nat n) (JS.digits s)
    | JS.Small => "0." +:+ JS.zeros (Z.to_nat (- n)) +:+ JS.digits s
    | JS.ExponentShort => JS.digits s +:+ JS.exponent_part n
    | JS.ExponentLong =>
        JS.take 1 (JS.digits s) +:+ "." +:+ JS.drop 1 (JS.digits s) +:+ JS.exponent_part n
    end.
Proof.
  unfold JS.positive_to_string, JS.layout_of. cbv zeta.
  repeat match goal with |- context [if ?b then _ else _] => destruct b end; reflexivity.
Qed.

(** Each layout has its own shape. *)
Lemma positive_to_string_shape s n :
  JS.starts_nonzero (JS.digits s) = true ->
  shape (JS.positive_to_string s n) = layout_shape (JS.layout_of s n).
Proof.
  intros Hstart. destruct (digits_head s Hstart) as (Hne & Hzero & Hminus).
  rewrite positive_to_string_layout.
  destruct (exponent_part_shape n) as [He Hdot].
  pose proof (digits_free "e" s eq_refl) as Hde.
  pose proof (digits_free "." s eq_refl) as Hdd.
  unfold shape. destruct (JS.layout_of s n) eqn:Hlayout; simpl layout_shape.
  - rewrite !free_of_app, !head_is_app, Hde, Hdd, !zeros_free, Hzero, Hminus by auto.
    reflexivity.
  - assert (0 < Z.to_nat n)%nat as Hpos.
    { unfold JS.layout_of in Hlayout.
      destruct ((JS.num_k s <=? n) && (n <=? 21)); [discriminate|].
      destruct (0 <? n) eqn:Hn; simpl in Hlayout.
      - apply Z.ltb_lt in Hn. lia.
      - repeat match type of Hlayout with
               | (if ?b then _ else _) = _ => destruct b
               end; discriminate. }
    assert (JS.take (Z.to_nat n) (JS.digits s) <> "") as Htake.
    { destruct (Z.to_nat n); [lia|]. destruct (JS.digits s); [congruence|]. discriminate. }
    rewrite !free_of_app, !head_is_app, !head_is_take, Hzero, Hminus by auto.
    rewrite !take_free, !drop_free by assumption. reflexivity.
  - rewrite !free_of_app, Hde, !zeros_free by reflexivity. reflexivity.
  - rewrite !free_of_app, !head_is_app, Hde, Hdd, He, Hdot, Hzero, Hminus by auto.
    reflexivity.
  - assert (JS.take 1 (JS.digits s) <> "") as Htake
      by (destruct (JS.digits s); [congruence | discriminate]).
    rewrite !free_of_app, !head_is_app, !head_is_take, Hzero, Hminus, He by (auto; lia).
    rewrite !take_free, !drop_free by assumption.
    rewrite andb_false_r. reflexivity.
Qed.

Lemma layout_shape_inj l l' : layout_shape l = layout_shape l' -> l = l'.
Proof. destruct l, l'; simpl; intros H; try reflexivity; discriminate. Qed.

Lemma rstrip_zeros_zeros m : rstrip_zeros (JS.zeros m) = "".
Proof. induction m as [|m IH]; simpl; [reflexivity|]. rewrite IH. reflexivity. Qed.

Lemma rstrip_zeros_app ds m :
  JS.ends_nonzero ds = true -> rstrip_zeros (ds +:+ JS.zeros m) = ds.
Proof.
  induction ds as [|c r IH]; [discriminate|].
  destruct r as [|d r'].
  - cbn [JS.ends_nonzero]. intros Hc.
    rewrite append_cons, append_nil_l. cbn [rstrip_zeros].
    rewrite rstrip_zeros_zeros. destruct (Ascii.eqb c "0"); [discriminate|reflexivity].
  - cbn [JS.ends_nonzero]. intros Hr. specialize (IH Hr).
    rewrite append_cons. cbn [rstrip_zeros]. rewrite IH. reflexivity.
Qed.

Lemma integral_inj ds ds' m m' :
  JS.ends_nonzero ds = true -> JS.ends_nonzero ds' = true ->
  ds +:+ JS.zeros m = ds' +:+ JS.zeros m' -> ds = ds' /\ m = m'.
Proof.
  intros Hds Hds' Heq.
  pose proof (f_equal rstrip_zeros Heq) as Hstrip.
  rewrite !rstrip_zeros_app in Hstrip by assumption. subst ds'.
  split; [reflexivity|].
  apply append_inv_head in Heq. apply (f_equal String.length) in Heq.
  rewrite !zeros_length in Heq. exact Heq.
Qed.

Lemma small_inj ds ds' m m' :
  JS.starts_nonzero ds = true -> JS.starts_nonzero ds' = true ->
  JS.zeros m +:+ ds = JS.zeros m' +:+ ds' -> ds = ds' /\ m = m'.
Proof.
  intros Hds Hds'. revert m'. induction m as [|m IH]; intros [|m']; cbn [JS.zeros];
    rewrite ?append_cons, ?append_nil_l.
  - auto.
  - intros ->. discriminate.
  - intros <-. discriminate.
  - intros [= Heq]. destruct (IH m' Heq) as [-> ->]. auto.
Qed.

Lemma exponent_part_inj n n' : JS.exponent_part n = JS.exponent_part n' -> n = n'.
Proof.
  unfold JS.exponent_part. cbv zeta. rewrite !append_cons, !append_nil_l.
  intros [= Heq].
  destruct (n - 1 <? 0) eqn:Hn, (n' - 1 <? 0) eqn:Hn';
    rewrite !append_cons, !append_nil_l in Heq; injection Heq as Heq;
    try discriminate;
    apply nat_to_string_inj in Heq;
    rewrite ?Z.ltb_lt, ?Z.ltb_ge in *; lia.
Qed.

Lemma cut_exponent a b n n' :
  free_of "e" a = true -> free_of "e" b = true ->
  a +:+ JS.exponent_part n = b +:+ JS.exponent_part n' -> a = b /\ n = n'.
Proof.
  intros Ha Hb Heq.
  assert (forall m, JS.exponent_part m
                    = String "e" ((if m - 1 <? 0 then "-" else "+")
                                  +:+ JS.nat_to_string (Z.abs_nat (m - 1)))) as Hunfold
    by reflexivity.
  pose proof Heq as Hcut. rewrite !Hunfold in Hcut.
  apply (cut_unique "e") in Hcut as [-> _]; [|assumption..].
  split; [reflexivity|]. apply append_inv_head in Heq. apply exponent_part_inj, Heq.
Qed.

Lemma layout_of_bounds s n :
  match JS.layout_of s n with
  | JS.Integral => JS.num_k s <= n
  | JS.Fractional => 0 < n < JS.num_k s
  | JS.Small => n <= 0
  | _ => True
  end.
Proof.
  unfold JS.layout_of.
  destruct (JS.num_k s <=? n) eqn:Hk; destruct (n <=? 21) eqn:H21;
    destruct (0 <? n) eqn:H0; destruct (-6 <? n) eqn:H6; destruct (n <=? 0) eqn:Hn;
    destruct (JS.num_k s =? 1); simpl;
    rewrite ?Z.leb_le, ?Z.leb_gt, ?Z.ltb_lt, ?Z.ltb_ge in *; try lia; auto.
Qed.

Lemma positive_to_string_inj s n s' n' :
  JS.canonical (JS.Finite false s n) = true ->
  JS.canonical (JS.Finite false s' n') = true ->
  JS.positive_to_string s n = JS.positive_to_string s' n' ->
  s = s' /\ n = n'.
Proof.
  cbn [JS.canonical]. intros [Hs He]%andb_true_iff [Hs' He']%andb_true_iff Heq.
  pose proof (f_equal shape Heq) as Hshape.
  rewrite !positive_to_string_shape in Hshape by assumption.
  apply layout_shape_inj in Hshape.
  pose proof (layout_of_bounds s n) as Hb. pose proof (layout_of_bounds s' n') as Hb'.
  rewrite !positive_to_string_layout, <- Hshape in Heq. rewrite <- Hshape in Hb'.
  pose proof (digits_free "." s eq_refl) as Hd.
  pose proof (digits_free "." s' eq_refl) as Hd'.
  pose proof (digits_free "e" s eq_refl) as Hde.
  pose proof (digits_free "e" s' eq_refl) as Hde'.
  destruct (JS.layout_of s n).
  - apply integral_inj in Heq as [Hds Hm]; [|assumption..].
    apply digits_inj in Hds. subst s'. split; [reflexivity|]. lia.
  - apply (cut_unique ".") in Heq as [Htake Hdrop]; [|auto using take_free..].
    assert (JS.digits s = JS.digits s') as Hds.
    { rewrite <- (take_drop (Z.to_nat n) (JS.digits s)), Htake, Hdrop. apply take_drop. }
    apply (f_equal String.length) in Htake.
    unfold JS.num_k in *. rewrite !take_length in Htake by lia.
    apply digits_inj in Hds. split; [assumption | lia].
  - apply (append_inv_head "0.") in Heq.
    apply small_inj in Heq as [Hds Hm]; [|assumption..].
    apply digits_inj in Hds. split; [assumption | lia].
  - apply cut_exponent in Heq as [Hds Hn]; [|assumption..].
    apply digits_inj in Hds. auto.
  - apply (cut_unique ".") in Heq as [Htake Hrest]; [|auto using take_free..].
    apply cut_exponent in Hrest as [Hdrop Hn]; [|auto using drop_free..].
    assert (JS.digits s = JS.digits s') as Hds.
    { rewrite <- (take_drop 1 (JS.digits s)), Htake, Hdrop. apply take_drop. }
    apply digits_inj in Hds. auto.
Qed.

Lemma positive_to_string_head s n :
  JS.starts_nonzero (JS.digits s) = true ->
  JS.positive_to_string s n <> "0" /\ head_is "-" (JS.positive_to_string s n) = false.
Proof.
  intros Hs. pose proof (positive_to_string_shape s n Hs) as Hshape. split.
  - intros Hzero. rewrite Hzero in Hshape. destruct (JS.layout_of s n); discriminate.
  - unfold shape in Hshape. destruct (JS.layout_of s n); injection Hshape; auto.
Qed.

(** [String] is injective on numbers given by their canonical digits. *)
Lemma toString_inj x y :
  JS.canonical x = true -> JS.canonical y = true ->
  JS.toString x = JS.toString y -> x = y.
Proof.
  destruct x as [|neg s n], y as [|neg' s' n']; cbn [JS.toString JS.canonical].
  - reflexivity.
  - intros _ [Hs _]%andb_true_iff Heq.
    destruct (positive_to_string_head s' n' Hs) as [Hne _].
    destruct neg'; [discriminate | congruence].
  - intros [Hs _]%andb_true_iff _ Heq.
    destruct (positive_to_string_head s n Hs) as [Hne _].
    destruct neg; [discriminate | congruence].
  - intros Hx Hy Heq.
    pose proof Hx as [Hs _]%andb_true_iff. pose proof Hy as [Hs' _]%andb_true_iff.
    destruct (positive_to_string_head s n Hs) as [_ Hh].
    destruct (positive_to_string_head s' n' Hs') as [_ Hh'].
    destruct neg, neg'.
    + rewrite !append_cons, !append_nil_l in Heq. injection Heq as Heq.
      destruct (positive_to_string_inj s n s' n' Hx Hy Heq) as [-> ->]. reflexivity.
    + rewrite <- Heq in Hh'. discriminate.
    + rewrite Heq in Hh. discriminate.
    + destruct (positive_to_string_inj s n s' n' Hx Hy Heq) as [-> ->]. reflexivity.
Qed.

(** C9, as the code has it: equal field sets give the same payload;
    two field sets that differ in a field give different payloads when
    the nonce, the vendor name and the timestamp of both are free of the
    delimiter. *)
Theorem buildSigningPayload_sensitive p q :
  (signed_fields p = signed_fields q -> buildSigningPayload p = buildSigningPayload q)
  /\ (delimiter_free p = true -> delimiter_free q = true ->
      numbers_canonical p = true -> numbers_canonical q = true ->
      signed_fields p <> signed_fields q ->
      buildSigningPayload p <> buildSigningPayload q).
Proof.
  split.
  - unfold signed_fields, buildSigningPayload. intros [= -> -> -> -> -> -> -> ->]. reflexivity.
  - unfold delimiter_free, numbers_canonical.
    intros [[Hn Hv]%andb_true_iff Hc]%andb_true_iff
           [[Hn' Hv']%andb_true_iff Hc']%andb_true_iff
           [[Hlat Hlon]%andb_true_iff Hacc]%andb_true_iff
           [[Hlat' Hlon']%andb_true_iff Hacc']%andb_true_iff Hdiff Heq.
    apply Hdiff.
    destruct (buildSigningPayload_fields p q Hn Hn' Hv Hv' Hc Hc' Heq)
      as (E1 & E2 & E3 & E4 & E5 & E6 & E7 & E8).
    apply toString_inj in E4, E5, E6; try assumption.
    unfold signed_fields. congruence.
Qed.

Lemma buildSigningPayload_sensitive_witness :
  buildSigningPayload
    (Fixture.signed CHECK_IN "Riverside Market" Fixture.four Fixture.photo Fixture.chal1)
  <> buildSigningPayload
       (Fixture.signed CHECK_IN "Riverside  Market" Fixture.four Fixture.photo Fixture.chal1).
Proof.
  apply (proj2 (buildSigningPayload_sensitive _ _)); try reflexivity.
  vm_compute. discriminate.
Defined.

(** C9 as stated does not hold: two field sets that differ in the
    nonce and in the vendor name, one holding the delimiter in its vendor
    name and the other in its nonce, give the same payload. *)
Lemma buildSigningPayload_collision_counterexample :
  EventSchema_success Fixture.env straddle_left = true
  /\ EventSchema_success Fixture.env straddle_right = true
  /\ signed_fields straddle_left <> signed_fields straddle_right
  /\ buildSigningPayload straddle_left = buildSigningPayload straddle_right.
Proof. vm_compute. repeat split. discriminate. Qed.


(** ** The numbers of the payload as decimal numerals *)

Lemma read_digits_app a b acc :
  read_digits acc (a +:+ b)
  = match read_digits acc a with Some v => read_digits v b | None => None end.
Proof.
  revert acc. induction a as [|c a IH]; intros acc; [reflexivity|].
  rewrite append_cons. cbn [read_digits]. destruct (is_digit c); [apply IH | reflexivity].
Qed.

Lemma read_digits_digits acc s : read_digits acc (JS.digits s) = Some (uint_value acc s).
Proof.
  unfold JS.digits. revert acc. induction s; intros acc; cbn [NilEmpty.string_of_uint read_digits uint_value];
    try reflexivity;
    match goal with |- context [is_digit ?c] => change (is_digit c) with true; cbv iota end;
    rewrite IHs; try reflexivity.
  change (digit_value "0") with 0. rewrite Z.add_0_r. reflexivity.
Qed.

Lemma uint_value_acc acc s :
  uint_value acc s = acc * 10 ^ JS.num_k s + uint_value 0 s.
Proof.
  unfold JS.num_k, JS.digits. revert acc.
  induction s; intros acc; cbn [uint_value NilEmpty.string_of_uint String.length];
    [cbn; lia|..];
    match goal with |- uint_value ?a s = _ + uint_value ?b s =>
      rewrite (IHs a), (IHs b) end;
    rewrite Nat2Z.inj_succ, Z.pow_succ_r by lia; ring.
Qed.

Lemma of_uint_acc_value d p : Z.pos (Pos.of_uint_acc d p) = uint_value (Z.pos p) d.
Proof.
  revert p. induction d; intros p; cbn [Pos.of_uint_acc uint_value]; try reflexivity;
    rewrite IHd; f_equal; lia.
Qed.

Lemma of_uint_value d : Z.of_N (N.of_uint d) = uint_value 0 d.
Proof.
  unfold N.of_uint. induction d; cbn [Pos.of_uint uint_value]; try reflexivity;
    try (rewrite N2Z.inj_pos, of_uint_acc_value; reflexivity).
  exact IHd.
Qed.

Lemma nat_of_uint_acc_value d a : Z.of_nat (Nat.of_uint_acc d a) = uint_value (Z.of_nat a) d.
Proof.
  revert a. induction d; intros a; cbn [Nat.of_uint_acc uint_value]; try reflexivity;
    rewrite IHd, ?Nat.tail_mul_spec; f_equal; lia.
Qed.

Lemma read_digits_nat m : read_digits 0 (JS.nat_to_string m) = Some (Z.of_nat m).
Proof.
  unfold JS.nat_to_string. rewrite read_digits_digits. f_equal.
  rewrite <- (DecimalNat.Unsigned.of_to m) at 2. unfold Nat.of_uint.
  rewrite nat_of_uint_acc_value. reflexivity.
Qed.

Lemma read_digits_zeros acc m : read_digits acc (JS.zeros m) = Some (acc * 10 ^ Z.of_nat m).
Proof.
  revert acc. induction m as [|m IH]; intros acc; [cbn; f_equal; lia|].
  cbn [JS.zeros read_digits]. change (is_digit "0") with true. cbv iota.
  rewrite IH, Nat2Z.inj_succ, Z.pow_succ_r by lia. f_equal. change (digit_value "0") with 0. lia.
Qed.

Lemma cut_at_free c a : free_of c a = true -> cut_at c a = (a, None).
Proof.
  unfold free_of. induction a as [|x a IH]; [reflexivity|].
  cbn [all_chars cut_at]. intros [Hx Ha]%andb_true_iff. apply negb_true_iff in Hx.
  rewrite Hx, (IH Ha). reflexivity.
Qed.

Lemma cut_at_app c a b : free_of c a = true -> cut_at c (a +:+ String c b) = (a, Some b).
Proof.
  unfold free_of. induction a as [|x a IH].
  - intros _. rewrite append_nil_l. cbn [cut_at]. rewrite Ascii.eqb_refl. reflexivity.
  - cbn [all_chars]. intros [Hx Ha]%andb_true_iff. apply negb_true_iff in Hx.
    rewrite append_cons. cbn [cut_at]. rewrite Hx, (IH Ha). reflexivity.
Qed.

Lemma read_digits_prefix a b acc m :
  read_digits acc (a +:+ b) = Some m -> exists v, read_digits acc a = Some v.
Proof. rewrite read_digits_app. destruct (read_digits acc a); [eauto | discriminate]. Qed.

Lemma read_mantissa_plain w m :
  free_of "." w = true -> w <> "" -> read_digits 0 w = Some m ->
  read_mantissa w = Some (m, 0).
Proof.
  intros Hfree Hne Hm. unfold read_mantissa. rewrite (cut_at_free _ _ Hfree). cbn [fst snd].
  rewrite append_nil_r, Hm. destruct w; [congruence|]. cbn [read_natural]. rewrite Hm.
  reflexivity.
Qed.

Lemma read_mantissa_point w f m :
  free_of "." w = true -> w <> "" -> read_digits 0 (w +:+ f) = Some m ->
  read_mantissa (w +:+ "." +:+ f) = Some (m, - Z.of_nat (String.length f)).
Proof.
  intros Hfree Hne Hm. unfold read_mantissa.
  change ("." +:+ f) with (String "." f). rewrite (cut_at_app _ _ _ Hfree). cbn [fst snd].
  rewrite Hm. destruct (read_digits_prefix _ _ _ _ Hm) as [v Hv].
  destruct w; [congruence|]. cbn [read_natural]. rewrite Hv. reflexivity.
Qed.

Lemma read_unsigned_plain s m d :
  free_of "e" s = true -> read_mantissa s = Some (m, d) -> read_unsigned s = Some (m, d).
Proof.
  intros Hfree Hm. unfold read_unsigned. rewrite (cut_at_free _ _ Hfree). cbn [fst snd].
  rewrite Hm. reflexivity.
Qed.

Lemma read_unsigned_exponent mant t m d e :
  free_of "e" mant = true -> read_mantissa mant = Some (m, d) -> read_exponent t = Some e ->
  read_unsigned (mant +:+ "e" +:+ t) = Some (m, e + d).
Proof.
  intros Hfree Hm He. unfold read_unsigned.
  change ("e" +:+ t) with (String "e" t). rewrite (cut_at_app _ _ _ Hfree). cbn [fst snd].
  rewrite Hm, He. reflexivity.
Qed.

Lemma nat_to_string_nonempty m : JS.nat_to_string m <> "".
Proof.
  unfold JS.nat_to_string, JS.digits. intros H.
  assert (Hnil : Nat.to_uint m = Nil) by (destruct (Nat.to_uint m); [reflexivity | discriminate..]).
  pose proof (DecimalNat.Unsigned.of_to m) as Hm. rewrite Hnil in Hm. cbn in Hm. subst m.
  discriminate Hnil.
Qed.

Lemma read_exponent_part n :
  exists t, JS.exponent_part n = "e" +:+ t /\ read_exponent t = Some (n - 1).
Proof.
  unfold JS.exponent_part. cbv zeta.
  pose proof (nat_to_string_nonempty (Z.abs_nat (n - 1))) as Hne.
  pose proof (read_digits_nat (Z.abs_nat (n - 1))) as Hread.
  destruct (n - 1 <? 0) eqn:Hsign.
  - exists ("-" +:+ JS.nat_to_string (Z.abs_nat (n - 1))). split; [reflexivity|].
    rewrite append_cons, append_nil_l. cbn [read_exponent].
    change (Ascii.eqb "-" "+") with false. change (Ascii.eqb "-" "-") with true. cbv iota.
    destruct (JS.nat_to_string _); [congruence|]. cbn [read_natural]. rewrite Hread.
    cbn. f_equal. apply Z.ltb_lt in Hsign. lia.
  - exists ("+" +:+ JS.nat_to_string (Z.abs_nat (n - 1))). split; [reflexivity|].
    rewrite append_cons, append_nil_l. cbn [read_exponent].
    change (Ascii.eqb "+" "+") with true. cbv iota.
    destruct (JS.nat_to_string _); [congruence|]. cbn [read_natural]. rewrite Hread.
    f_equal. apply Z.ltb_ge in Hsign. lia.
Qed.

Lemma drop_length m s :
  (m <= String.length s)%nat -> String.length (JS.drop m s) = (String.length s - m)%nat.
Proof.
  intros H. pose proof (f_equal String.length (take_drop m s)) as Hlen.
  rewrite append_length, take_length in Hlen by assumption. lia.
Qed.

Lemma take_nonempty m s : (0 < m)%nat -> s <> "" -> JS.take m s <> "".
Proof. destruct m; [lia|]. destruct s; [congruence|]. discriminate. Qed.

Lemma positive_denotes s n :
  JS.digits s <> "" ->
  exists m e,
    read_unsigned (JS.positive_to_string s n) = Some (m, e)
    /\ m * 10 ^ (e - Z.min e (n - JS.num_k s))
       = uint_value 0 s * 10 ^ (n - JS.num_k s - Z.min e (n - JS.num_k s)).
Proof.
  intros Hne.
  assert (Hk : 0 < JS.num_k s).
  { unfold JS.num_k. destruct (JS.digits s); [congruence|]. cbn [String.length]. lia. }
  assert (Hds : read_digits 0 (JS.digits s) = Some (uint_value 0 s))
    by apply read_digits_digits.
  assert (Hpoint : free_of "." (JS.digits s) = true) by (apply digits_free; reflexivity).
  assert (He : free_of "e" (JS.digits s) = true) by (apply digits_free; reflexivity).
  rewrite positive_to_string_layout. unfold JS.layout_of.
  destruct ((JS.num_k s <=? n) && (n <=? 21)) eqn:H1.
  { apply andb_true_iff in H1 as [H1 _]. apply Z.leb_le in H1.
    exists (uint_value 0 s * 10 ^ (n - JS.num_k s)), 0. split.
    - apply read_unsigned_plain; [rewrite free_of_app, He, zeros_free by reflexivity; reflexivity|].
      apply read_mantissa_plain.
      + rewrite free_of_app, Hpoint, zeros_free by reflexivity. reflexivity.
      + destruct (JS.digits s); [congruence | discriminate].
      + rewrite read_digits_app, Hds, read_digits_zeros, Z2Nat.id by lia. reflexivity.
    - rewrite Z.min_l by lia. rewrite !Z.sub_0_r, Z.mul_1_r. reflexivity. }
  destruct ((0 <? n) && (n <=? 21)) eqn:H2.
  { apply andb_true_iff in H2 as [H2 H21]. apply Z.ltb_lt in H2. apply Z.leb_le in H21.
    apply andb_false_iff in H1 as [H1|H1]; [apply Z.leb_gt in H1|apply Z.leb_gt in H1; lia].
    assert (Hlen : (Z.to_nat n <= String.length (JS.digits s))%nat)
      by (unfold JS.num_k in H1; lia).
    exists (uint_value 0 s), (n - JS.num_k s). split.
    - apply read_unsigned_plain.
      + rewrite !free_of_app, take_free, drop_free by assumption. reflexivity.
      + replace (n - JS.num_k s)
          with (- Z.of_nat (String.length (JS.drop (Z.to_nat n) (JS.digits s))))
          by (rewrite drop_length by assumption; unfold JS.num_k; lia).
        apply read_mantissa_point.
        * apply take_free, Hpoint.
        * apply take_nonempty; [lia | assumption].
        * rewrite take_drop. exact Hds.
    - reflexivity. }
  destruct ((-6 <? n) && (n <=? 0)) eqn:H3.
  { apply andb_true_iff in H3 as [_ H3]. apply Z.leb_le in H3.
    exists (uint_value 0 s), (n - JS.num_k s). split.
    - apply read_unsigned_plain.
      + change "0." with ("0" +:+ "."). rewrite !free_of_app, He, zeros_free by reflexivity.
        reflexivity.
      + replace (n - JS.num_k s)
          with (- Z.of_nat (String.length (JS.zeros (Z.to_nat (- n)) +:+ JS.digits s)))
          by (rewrite append_length, zeros_length; unfold JS.num_k; lia).
        change ("0." +:+ JS.zeros (Z.to_nat (- n)) +:+ JS.digits s)
          with ("0" +:+ "." +:+ (JS.zeros (Z.to_nat (- n)) +:+ JS.digits s)).
        apply read_mantissa_point; [reflexivity | discriminate |].
        rewrite append_cons, append_nil_l. cbn [read_digits].
        change (is_digit "0") with true. cbv iota.
        rewrite read_digits_app, read_digits_zeros.
        replace ((10 * 0 + digit_value "0") * 10 ^ Z.of_nat (Z.to_nat (- n))) with 0
          by (change (digit_value "0") with 0; lia).
        exact Hds.
    - reflexivity. }
  destruct (read_exponent_part n) as (t & -> & Ht).
  destruct (JS.num_k s =? 1) eqn:H4.
  { apply Z.eqb_eq in H4.
    exists (uint_value 0 s), (n - 1 + 0). split.
    - apply read_unsigned_exponent; [assumption | | assumption].
      apply read_mantissa_plain; [assumption | assumption | assumption].
    - rewrite H4, Z.add_0_r. reflexivity. }
  exists (uint_value 0 s),
    (n - 1 + - Z.of_nat (String.length (JS.drop 1 (JS.digits s)))). split.
  - replace (JS.take 1 (JS.digits s) +:+ "." +:+ JS.drop 1 (JS.digits s) +:+ "e" +:+ t)
      with ((JS.take 1 (JS.digits s) +:+ "." +:+ JS.drop 1 (JS.digits s)) +:+ "e" +:+ t)
      by (rewrite !append_assoc; reflexivity).
    apply read_unsigned_exponent; [|apply read_mantissa_point|assumption].
    + change "." with ("." +:+ ""). rewrite !free_of_app, take_free, drop_free by assumption.
      reflexivity.
    + apply take_free, Hpoint.
    + apply take_nonempty; [lia | assumption].
    + rewrite take_drop. exact Hds.
  - apply Z.eqb_neq in H4.
    rewrite drop_length by (unfold JS.num_k in Hk; lia).
    replace (n - 1 + - Z.of_nat (String.length (JS.digits s) - 1)) with (n - JS.num_k s)
      by (unfold JS.num_k in *; lia).
    reflexivity.
Qed.

Lemma toString_denotes x : JS.canonical x = true -> denotes (JS.toString x) x.
Proof.
  destruct x as [|negative s n]; [intros _; exists 0, 0; split; reflexivity|].
  cbn [JS.canonical]. intros [Hs _]%andb_true_iff.
  destruct (digits_head s Hs) as (Hne & _ & _).
  destruct (positive_to_string_head s n Hs) as [_ Hminus].
  destruct (positive_denotes s n Hne) as (m & e & Hread & Hvalue).
  unfold denotes. cbn [JS.toString JS.significand JS.exponent10].
  rewrite of_uint_value. destruct negative.
  - exists (- m), e. split.
    + rewrite append_cons, append_nil_l. cbn [decimal_value].
      change (Ascii.eqb "-" "-") with true. cbv iota. rewrite Hread. reflexivity.
    + rewrite !Z.mul_opp_l, Hvalue. reflexivity.
  - exists m, e. split; [|exact Hvalue].
    destruct (JS.positive_to_string s n) as [|c r] eqn:Hp; [discriminate Hread|].
    cbn [decimal_value]. cbn [head_is] in Hminus. rewrite Hminus. exact Hread.
Qed.

(** C4: the payload is the eight fields in the order nonce, event
    type, vendor name as submitted, latitude, longitude, accuracy, capture
    timestamp, photo digest, joined by the one delimiter, where each of
    the three numbers is given by the text [String] prints for it; that
    text is a decimal numeral of exactly the value of the number; and cut
    at the delimiters, a payload whose text fields hold none gives back
    these eight strings in this order. *)
Theorem buildSigningPayload_canonicalize (p : Body) :
  buildSigningPayload p
  = canonicalize (challengeNonce p) (eventType p) (vendorName p)
      (JS.toString (latitude p)) (JS.toString (longitude p))
      (JS.toString (accuracyMeters p)) (capturedAt p) (photoSha256 p)
  /\ (numbers_canonical p = true ->
      denotes (JS.toString (latitude p)) (latitude p)
      /\ denotes (JS.toString (longitude p)) (longitude p)
      /\ denotes (JS.toString (accuracyMeters p)) (accuracyMeters p))
  /\ (delimiter_free p = true ->
      bar_free (photoSha256 p) = true ->
      JS.split "|" (buildSigningPayload p)
      = [challengeNonce p; EventType_str (eventType p); vendorName p;
         JS.toString (latitude p); JS.toString (longitude p);
         JS.toString (accuracyMeters p); capturedAt p; photoSha256 p]).
Proof.
  split; [reflexivity|]. split.
  - unfold numbers_canonical. intros [[Hlat Hlng]%andb_true_iff Hacc]%andb_true_iff.
    repeat split; apply toString_denotes; assumption.
  - unfold delimiter_free. intros [[Hn Hv]%andb_true_iff Hc]%andb_true_iff Hd.
    unfold buildSigningPayload. cbn [JS.join].
    rewrite !split_at_bar, split_free
      by auto using EventType_str_bar_free, toString_bar_free.
    reflexivity.
Qed.

Lemma buildSigningPayload_canonicalize_witness :
  let p := Fixture.signed CHECK_IN " Riverside Market" Fixture.four Fixture.photo
             Fixture.chal1 in
  JS.split "|" (buildSigningPayload p)
  = ["abc123"; "CHECK_IN"; " Riverside Market"; "37"; "-122"; "4";
     "2024-01-01T00:00:00Z"; Fixture.digest]
  /\ denotes "-122" (longitude p).
Proof.
  intros p. split.
  - apply (proj2 (proj2 (buildSigningPayload_canonicalize p))); reflexivity.
  - apply (proj1 (proj2 (proj1 (proj2 (buildSigningPayload_canonicalize p)) eq_refl))).
Defined.

(** * Further properties of the server and the client *)

(** ** [trim] *)

Lemma trimStart_head s :
  JS.trimStart s = "" \/ exists c r, JS.trimStart s = String c r /\ JS.is_space c = false.
Proof.
  induction s as [|c s IH]; [left; reflexivity|].
  cbn [JS.trimStart]. destruct (JS.is_space c) eqn:Hc; [exact IH|].
  right. eauto.
Qed.

Lemma trimEnd_cons c s :
  JS.is_space c = false -> JS.trimEnd (String c s) = String c (JS.trimEnd s).
Proof. intros Hc. cbn [JS.trimEnd]. rewrite Hc. destruct (JS.trimEnd s); reflexivity. Qed.

Lemma trimEnd_cons_kept c s :
  JS.trimEnd s <> "" -> JS.trimEnd (String c s) = String c (JS.trimEnd s).
Proof. intros Hs. cbn [JS.trimEnd]. destruct (JS.trimEnd s); congruence. Qed.

Lemma trimEnd_idempotent s : JS.trimEnd (JS.trimEnd s) = JS.trimEnd s.
Proof.
  induction s as [|c s IH]; [reflexivity|].
  destruct (JS.trimEnd s) as [|d k] eqn:Hk.
  - cbn [JS.trimEnd]. rewrite Hk.
    destruct (JS.is_space c) eqn:Hc; [reflexivity|].
    cbn [JS.trimEnd]. rewrite Hc. reflexivity.
  - rewrite (trimEnd_cons_kept c s) by congruence. rewrite Hk.
    rewrite (trimEnd_cons_kept c (String d k)) by (rewrite IH; discriminate).
    rewrite IH. reflexivity.
Qed.

Lemma trimStart_fixed c r : JS.is_space c = false -> JS.trimStart (String c r) = String c r.
Proof. intros Hc. cbn [JS.trimStart]. rewrite Hc. reflexivity. Qed.

Lemma trim_idempotent s : JS.trim (JS.trim s) = JS.trim s.
Proof.
  unfold JS.trim. destruct (trimStart_head s) as [->|(c & r & -> & Hc)]; [reflexivity|].
  rewrite (trimEnd_cons c r Hc), (trimStart_fixed c _ Hc), <- (trimEnd_cons c r Hc).
  apply trimEnd_idempotent.
Qed.

(** ** What the tables keep *)

Lemma existsb_false_elem {A} (f : A -> bool) (l : list A) x :
  existsb f l = false -> x ∈ l -> f x = false.
Proof.
  induction l as [|a l IH]; cbn [existsb].
  - intros _ H. inversion H.
  - intros [Ha Hl]%orb_false_iff [->|Hin]%elem_of_cons; auto.
Qed.

Lemma find_elem {A} (f : A -> bool) (l : list A) x :
  find f l = Some x -> x ∈ l /\ f x = true.
Proof.
  induction l as [|a l IH]; cbn [find]; [discriminate|].
  destruct (f a) eqn:Ha.
  - intros [= ->]. split; [apply list_elem_of_here | assumption].
  - intros H. destruct (IH H). split; [apply list_elem_of_further|]; assumption.
Qed.

Lemma insert_visit_event_ok env row db db' :
  insert_visit_event env row db = (Normal tt, db') ->
  existsb (fun e => String.eqb (event_pk e) (event_pk row)) (visit_events db) = false
  /\ has_visit db (visit_id row) = true
  /\ has_event db (visit_id row) (event_type row) = false
  /\ db' = {| server_challenges := server_challenges db; visits := visits db;
              visit_events := visit_events db ++ [row] |}.
Proof.
  unfold insert_visit_event, has_visit, has_event.
  destruct (pg_accepts env row); [|discriminate]. cbn [negb].
  destruct (existsb _ (visit_events db)); [discriminate|].
  destruct (existsb (visit_pk_is (visit_id row)) (visits db)); [|discriminate].
  cbn [negb].
  destruct (negb (bool_decide _)); [discriminate|].
  destruct (existsb (event_of _ _) (visit_events db)); [discriminate|].
  intros [= <-]. auto.
Qed.

Lemma insert_visit_event_accepted env row db db' :
  insert_visit_event env row db = (Normal tt, db') -> pg_accepts env row = true.
Proof.
  unfold insert_visit_event. destruct (pg_accepts env row); [reflexivity | discriminate].
Qed.

Lemma consume_spec_accepts now o presented :
  consume_spec now o presented = None ->
  exists row, o = Some row /\ used_at row = None
              /\ now <= expires_at row /\ nonce row = presented.
Proof.
  unfold consume_spec. destruct o as [row|]; [|discriminate].
  destruct (used_at row) as [t|] eqn:Hused.
  - rewrite bool_decide_eq_true_2 by eauto. discriminate.
  - rewrite bool_decide_eq_false_2 by (intros [? ?]; discriminate).
    destruct (now >? expires_at row) eqn:Hnow; [discriminate|].
    destruct (bool_decide (presented <> nonce row)) eqn:Hnonce; [discriminate|].
    intros _. exists row. repeat split; auto.
    + rewrite Z.gtb_ltb in Hnow. apply Z.ltb_ge in Hnow. exact Hnow.
    + apply bool_decide_eq_false_1 in Hnonce.
      destruct (String.eqb_spec (nonce row) presented); [assumption|].
      exfalso. apply Hnonce. congruence.
Qed.

(** The three ways [insertEvent] leaves the database: untouched, with
    the challenge consumed, or with the challenge consumed and the event
    stored. *)
Lemma insertEvent_cases env ctx visitId body db :
  (exists st err,
     insertEvent env ctx visitId body db = (Normal (InsertFailed st err), db))
  \/ (exists st err row,
        server_challenges db !! challengeId body = Some row /\ used_at row = None
        /\ insertEvent env ctx visitId body db
           = (Normal (InsertFailed st err),
              set_used_at (challengeId body) (db_now ctx) db))
  \/ (exists row,
        server_challenges db !! challengeId body = Some row /\ used_at row = None
        /\ existsb (fun e => String.eqb (event_pk e) (uuid_event ctx)) (visit_events db) = false
        /\ has_visit db visitId = true
        /\ has_event db visitId (eventType body) = false
        /\ insertEvent env ctx visitId body db
           = (Normal (InsertOk (uuid_event ctx)),
              {| server_challenges :=
                   alter (mark_used (db_now ctx)) (challengeId body) (server_challenges db);
                 visits := visits db;
                 visit_events :=
                   visit_events db ++ [event_row ctx (uuid_event ctx) visitId body] |})).
Proof.
  rewrite insertEvent_run.
  destruct (JS.gt _ _); [left; eauto|].
  destruct (negb (photoExists _ _ _)); [left; eauto|].
  destruct (consume_spec _ _ _) as [reason|] eqn:Hspec; [left; eauto|].
  apply consume_spec_accepts in Hspec as (row & Hrow & Hunused & _ & _). cbv zeta.
  destruct (negb (signature_accepted env body)); [right; left; eauto 6|].
  destruct (insert_visit_event _ _) as [[[]|e] db2] eqn:Hins.
  - apply insert_visit_event_ok in Hins as (Hpk & Hvisit & Hevent & ->).
    right. right. exists row. repeat split; auto.
  - destruct (insert_visit_event_cases env (event_row ctx (uuid_event ctx) visitId body)
                (set_used_at (challengeId body) (db_now ctx) db)) as [H|[e' H]];
      rewrite H in Hins; [discriminate|]. injection Hins as _ <-.
    right. left. eauto 6.
Qed.

Lemma consistent_empty : consistent empty_db.
Proof.
  split; cbn; try apply NoDup_nil_2; intros ? H; inversion H.
Qed.

Lemma consistent_challenges db db' :
  visits db' = visits db -> visit_events db' = visit_events db ->
  (forall id, challenge_used db id -> challenge_used db' id) ->
  consistent db -> consistent db'.
Proof.
  intros Hv He Hused [H1 H2 H3 H4 H5 H6 H7].
  split; rewrite ?Hv, ?He; auto.
Qed.

Lemma consistent_set_used id t db : consistent db -> consistent (set_used_at id t db).
Proof.
  apply consistent_challenges; try reflexivity. intros id'. apply set_used_at_keeps.
Qed.

Lemma consistent_insert_challenge id nonce_ expires db :
  consistent db -> consistent (insert_challenge id nonce_ expires db).2.
Proof.
  apply consistent_challenges.
  - unfold insert_challenge. destruct (server_challenges db !! id); reflexivity.
  - unfold insert_challenge. destruct (server_challenges db !! id); reflexivity.
  - intros id'. apply insert_challenge_used.
Qed.

Lemma consistent_insert_visit id name t db :
  consistent db -> consistent (insert_visit id (JS.trim name) t db).2.
Proof.
  intros Hdb.
  destruct (insert_visit_cases id (JS.trim name) t db)
    as [(Hfresh & _ & ->)|(_ & e & ->)]; [|assumption].
  destruct Hdb as [H1 H2 H3 H4 H5 H6 H7]. split; cbn [snd visits visit_events]; auto.
  - rewrite fmap_app. apply NoDup_app. split; [assumption|].
    split; [|apply NoDup_singleton].
    intros k Hk Hnew. apply list_elem_of_singleton in Hnew. cbn in Hnew. subst k.
    apply list_elem_of_fmap in Hk as (v & Hid & Hv).
    pose proof (existsb_false_elem _ _ v Hfresh Hv) as Hne.
    unfold visit_pk_is in Hne. rewrite <- Hid, String.eqb_refl in Hne. discriminate.
  - intros v [Hv|Hv]%elem_of_app; [auto|].
    apply list_elem_of_singleton in Hv. subst v. apply trim_idempotent.
  - intros e He. destruct (H4 e He) as (v & Hv & Hrest).
    exists v. split; [apply elem_of_app; auto | assumption].
Qed.

(** Storing the event of a request that has just consumed an unused
    challenge keeps the tables consistent. *)
Lemma consistent_add_event ctx visitId body db row v :
  consistent db ->
  server_challenges db !! challengeId body = Some row -> used_at row = None ->
  existsb (fun e => String.eqb (event_pk e) (uuid_event ctx)) (visit_events db) = false ->
  has_event db visitId (eventType body) = false ->
  v ∈ visits db -> visit_pk v = visitId -> same_vendor (vendorName body) (vendor_name v) ->
  consistent
    {| server_challenges :=
         alter (mark_used (db_now ctx)) (challengeId body) (server_challenges db);
       visits := visits db;
       visit_events := visit_events db ++ [event_row ctx (uuid_event ctx) visitId body] |}.
Proof.
  intros [H1 H2 H3 H4 H5 H6 H7] Hrow Hunused Hpk Hevent Hv Hvid Hsame.
  assert (forall id, challenge_used db id ->
            challenge_used
              {| server_challenges :=
                   alter (mark_used (db_now ctx)) (challengeId body) (server_challenges db);
                 visits := visits db;
                 visit_events :=
                   visit_events db ++ [event_row ctx (uuid_event ctx) visitId body] |} id)
    as Hkeep.
  { intros id Hid.
    apply (challenge_used_ext (set_used_at (challengeId body) (db_now ctx) db));
      [reflexivity | apply set_used_at_keeps, Hid]. }
  split; cbn [visits visit_events]; auto.
  - rewrite fmap_app. apply NoDup_app. split; [assumption|].
    split; [|apply NoDup_singleton].
    intros k Hk Hnew. apply list_elem_of_singleton in Hnew. cbn in Hnew. subst k.
    apply list_elem_of_fmap in Hk as (e & Hid & He).
    pose proof (existsb_false_elem _ _ e Hpk He) as Hne. cbn in Hne.
    rewrite <- Hid, String.eqb_refl in Hne. discriminate.
  - intros e [He|He]%elem_of_app; [auto|].
    apply list_elem_of_singleton in He. subst e. exists v. auto.
  - intros e [He|He]%elem_of_app; [auto|].
    apply list_elem_of_singleton in He. subst e. cbn [server_challenge_id event_row].
    apply (challenge_used_ext (set_used_at (challengeId body) (db_now ctx) db));
      [reflexivity | eapply set_used_at_used, Hrow].
  - rewrite fmap_app. apply NoDup_app. split; [assumption|].
    split; [|apply NoDup_singleton].
    intros k Hk Hnew. apply list_elem_of_singleton in Hnew. subst k.
    apply list_elem_of_fmap in Hk as (e & Hkey & He).
    pose proof (existsb_false_elem _ _ e Hevent He) as Hne.
    unfold event_key in Hkey. cbn in Hkey. injection Hkey as Hvis Htype.
    apply EventType_str_inj in Htype.
    unfold event_of in Hne. rewrite <- Hvis, <- Htype, String.eqb_refl in Hne.
    destruct (eventType body); cbn in Hne; discriminate.
  - rewrite fmap_app. apply NoDup_app. split; [assumption|].
    split; [|apply NoDup_singleton].
    intros k Hk Hnew. apply list_elem_of_singleton in Hnew. cbn in Hnew. subst k.
    apply list_elem_of_fmap in Hk as (e & Hid & He).
    destruct (H5 e He) as (row' & Hrow' & [t Hused]).
    rewrite <- Hid, Hrow in Hrow'. congruence.
Qed.

Lemma insertEvent_consistent env ctx visitId body db v :
  consistent db ->
  v ∈ visits db -> visit_pk v = visitId -> same_vendor (vendorName body) (vendor_name v) ->
  consistent (insertEvent env ctx visitId body db).2.
Proof.
  intros Hdb Hv Hvid Hsame.
  destruct (insertEvent_cases env ctx visitId body db)
    as [(st & err & ->)|[(st & err & row & _ & _ & ->)
                        |(row & Hrow & Hunused & Hpk & _ & Hevent & ->)]]; cbn [snd].
  - assumption.
  - apply consistent_set_used, Hdb.
  - eapply consistent_add_event; eauto.
Qed.

Lemma handle_consistent env ctx req db :
  consistent db -> consistent (handle env ctx req db).2.
Proof.
  intros Hdb. destruct req as [|body|visitId body]; cbn [handle].
  - unfold get_challenge, createChallenge. monad.
    pose proof (consistent_insert_challenge (uuid_challenge ctx) (random_nonce ctx)
                  (date_now ctx + CHALLENGE_TTL_SECONDS env * 1000) db Hdb) as H.
    destruct (insert_challenge _ _ _ db) as [[[]|e] db1]; exact H.
  - rewrite check_in_run.
    destruct (negb (EventSchema_success env body)); [assumption|].
    destruct (negb (EventType_eqb _ _)); [assumption|].
    destruct (vendor_taken db (vendorName body)); [assumption|].
    pose proof (consistent_insert_visit (uuid_visit ctx) (vendorName body) (db_now ctx) db Hdb)
      as Hdbv.
    destruct (insert_visit_cases (uuid_visit ctx) (JS.trim (vendorName body)) (db_now ctx) db)
      as [(_ & _ & Hins)|(_ & e & Hins)]; rewrite Hins in *; cbn [snd] in Hdbv;
      [|assumption].
    match goal with |- context [insertEvent env ctx ?i body ?d] =>
      pose proof (insertEvent_consistent env ctx i body d
                    (visit_row ctx (JS.trim (vendorName body))) Hdbv) as Hev;
      destruct (insertEvent_frame env ctx i body d) as (_ & _ & r & Hr) end.
    cbn [visits] in Hev.
    assert (consistent
              (insertEvent env ctx (uuid_visit ctx) body
                 {| server_challenges := server_challenges db;
                    visits := visits db ++ [visit_row ctx (JS.trim (vendorName body))];
                    visit_events := visit_events db |}).2) as Hgoal.
    { apply Hev.
      - apply elem_of_app. right. apply list_elem_of_here.
      - reflexivity.
      - unfold same_vendor. cbn [vendor_name visit_row]. rewrite trim_idempotent.
        reflexivity. }
    unfold visit_row in Hgoal, Hr. cbn [uuid_visit] in *.
    destruct (insertEvent _ _ _ _ _) as [c db']. cbn [fst snd] in *. subst c.
    destruct r; exact Hgoal.
  - rewrite check_out_run.
    destruct (negb (EventSchema_success env body)); [assumption|].
    destruct (negb (EventType_eqb _ _)); [assumption|].
    destruct (negb (pg_uuid env visitId)); [assumption|].
    destruct (find _ (visits db)) as [v|] eqn:Hfind; [|assumption].
    apply find_elem in Hfind as [Hv Hpk].
    destruct (String.eqb_spec (JS.toLowerCase (JS.trim (vendorName body)))
                (JS.toLowerCase (JS.trim (vendor_name v)))) as [Hsame|]; [|assumption].
    cbn [negb].
    pose proof (insertEvent_consistent env ctx visitId body db v Hdb Hv) as Hev.
    destruct (insertEvent_frame env ctx visitId body db) as (_ & _ & r & Hr).
    assert (consistent (insertEvent env ctx visitId body db).2) as Hgoal.
    { apply Hev; [|exact Hsame]. apply String.eqb_eq, Hpk. }
    destruct (insertEvent _ _ _ _ _) as [c db']. cbn [fst snd] in *. subst c.
    destruct r; exact Hgoal.
Qed.

Lemma run_requests_consistent env reqs db :
  consistent db -> consistent (run_requests env reqs db).
Proof.
  revert db. induction reqs as [|[ctx req] rest IH]; intros db Hdb; cbn [run_requests].
  - assumption.
  - apply IH, handle_consistent, Hdb.
Qed.

(** X1: in every database the server reaches by handling requests one
    after the other, visit ids and event ids are unique, a visit has at
    most one event of each type, and every event belongs to a stored
    visit whose vendor name is the event's up to [trim] and case. *)
Theorem reachable_events_per_visit env reqs :
  let db := run_requests env reqs empty_db in
  NoDup (visit_pk <$> visits db)
  /\ NoDup (event_pk <$> visit_events db)
  /\ NoDup (event_key <$> visit_events db)
  /\ forall e, e ∈ visit_events db ->
       exists v, v ∈ visits db /\ visit_pk v = visit_id e
                 /\ same_vendor (event_vendor_name e) (vendor_name v).
Proof.
  destruct (run_requests_consistent env reqs empty_db consistent_empty)
    as [H1 H2 H3 H4 H5 H6 H7].
  cbv zeta. auto.
Qed.

Lemma reachable_events_per_visit_witness :
  exists v, v ∈ visits Fixture.db_closed /\ visit_pk v = Fixture.visit1
            /\ same_vendor "Riverside Market" (vendor_name v).
Proof.
  apply (proj2 (proj2 (proj2
           (reachable_events_per_visit Fixture.env (Fixture.opening ++ Fixture.closing))))
           (event_row (Fixture.ctx_at 2000 Fixture.visit1 Fixture.event1 Fixture.chal1)
              Fixture.event1 Fixture.visit1
              (Fixture.signed CHECK_IN "Riverside Market" Fixture.four Fixture.photo
                 Fixture.chal1))).
  vm_compute. apply list_elem_of_here.
Defined.

(** X2: in every database the server reaches by handling requests one
    after the other, the challenge of every stored event is marked used
    and no two stored events carry the same challenge. *)
Theorem reachable_one_event_per_challenge env reqs :
  let db := run_requests env reqs empty_db in
  NoDup (server_challenge_id <$> visit_events db)
  /\ forall e, e ∈ visit_events db -> challenge_used db (server_challenge_id e).
Proof.
  destruct (run_requests_consistent env reqs empty_db consistent_empty)
    as [H1 H2 H3 H4 H5 H6 H7].
  cbv zeta. auto.
Qed.

Lemma reachable_one_event_per_challenge_witness :
  challenge_used Fixture.db_closed Fixture.chal1.
Proof.
  apply (proj2 (reachable_one_event_per_challenge Fixture.env
                  (Fixture.opening ++ Fixture.closing))
           (event_row (Fixture.ctx_at 2000 Fixture.visit1 Fixture.event1 Fixture.chal1)
              Fixture.event1 Fixture.visit1
              (Fixture.signed CHECK_IN "Riverside Market" Fixture.four Fixture.photo
                 Fixture.chal1))).
  vm_compute. apply list_elem_of_here.
Defined.

(** ** When an event is stored *)

Lemma insert_visit_event_succeeds env row db :
  pg_accepts env row = true ->
  existsb (fun e => String.eqb (event_pk e) (event_pk row)) (visit_events db) = false ->
  has_visit db (visit_id row) = true ->
  is_Some (server_challenges db !! server_challenge_id row) ->
  has_event db (visit_id row) (event_type row) = false ->
  insert_visit_event env row db
    = (Normal tt,
       {| server_challenges := server_challenges db; visits := visits db;
          visit_events := visit_events db ++ [row] |}).
Proof.
  unfold insert_visit_event, has_visit, has_event. intros -> -> -> Hchallenge ->.
  rewrite bool_decide_eq_true_2 by assumption. reflexivity.
Qed.

Lemma consume_spec_ok ctx id presented db :
  (verifyChallenge ctx id presented db).1 = Normal ChallengeOk <->
  consume_spec (date_now ctx) (server_challenges db !! id) presented = None.
Proof.
  rewrite verifyChallenge_run. destruct (consume_spec _ _ _); cbn [fst]; split;
    intros H; try reflexivity; discriminate.
Qed.

Lemma insertEvent_ok_iff env ctx visitId body db :
  (insertEvent env ctx visitId body db).1 = Normal (InsertOk (uuid_event ctx)) <->
  JS.gt (accuracyMeters body) (ACCURACY_THRESHOLD_METERS env) = false
  /\ photoExists env ctx (photoUrl body) = true
  /\ (verifyChallenge ctx (challengeId body) (challengeNonce body) db).1 = Normal ChallengeOk
  /\ verifySignature env (devicePublicKey body) (deviceSignature body)
       (buildSigningPayload body) = Normal true
  /\ pg_accepts env (event_row ctx (uuid_event ctx) visitId body) = true
  /\ existsb (fun e => String.eqb (event_pk e) (uuid_event ctx)) (visit_events db) = false
  /\ has_visit db visitId = true
  /\ has_event db visitId (eventType body) = false.
Proof.
  rewrite consume_spec_ok, insertEvent_run, verifySignature_accepted. split.
  - destruct (JS.gt _ _); [discriminate|].
    destruct (photoExists _ _ _); [|discriminate]. cbn [negb].
    destruct (consume_spec _ _ _); [discriminate|]. cbv zeta.
    destruct (signature_accepted env body); [|discriminate]. cbn [negb].
    destruct (insert_visit_event _ _ _) as [[[]|e] db2] eqn:Hins; [|discriminate].
    pose proof (insert_visit_event_accepted _ _ _ _ Hins) as Hpg.
    apply insert_visit_event_ok in Hins as (Hpk & Hvisit & Hevent & _).
    intros _. repeat split; assumption.
  - intros (-> & -> & Hspec & [= ->] & Hpg & Hpk & Hvisit & Hevent). cbn [negb].
    rewrite Hspec. cbv zeta. cbn [negb].
    apply consume_spec_accepts in Hspec as (row & Hrow & _).
    rewrite insert_visit_event_succeeds; try assumption; [reflexivity|].
    cbn. rewrite lookup_alter_eq, Hrow. cbn. eauto.
Qed.

Lemma insertEvent_ok_db env ctx visitId body db id :
  (insertEvent env ctx visitId body db).1 = Normal (InsertOk id) ->
  id = uuid_event ctx
  /\ (insertEvent env ctx visitId body db).2
     = {| server_challenges :=
            alter (mark_used (db_now ctx)) (challengeId body) (server_challenges db);
          visits := visits db;
          visit_events :=
            visit_events db ++ [event_row ctx (uuid_event ctx) visitId body] |}.
Proof.
  intros Hok.
  destruct (insertEvent_cases env ctx visitId body db)
    as [(st & err & H)|[(st & err & row & _ & _ & H)|(row & _ & _ & _ & _ & _ & H)]];
    rewrite H in *; [discriminate..|]. cbn [fst snd] in *. split; congruence.
Qed.

(** X3: for a visit id and a challenge id in canonical text,
    [insertEvent] answers with a new event id exactly when the accuracy
    is within the threshold, the photo exists, the challenge is consumed,
    the signature verifies, PostgreSQL takes the values of the row, the
    event id is new, the visit is stored and it has no event of this type
    yet; the challenge is then marked used and the event is appended to
    [visit_events], nothing else changes. *)
Theorem insertEvent_stores_iff env ctx visitId body db :
  canonical_uuid visitId = true ->
  canonical_uuid (challengeId body) = true ->
  ((insertEvent env ctx visitId body db).1 = Normal (InsertOk (uuid_event ctx)) <->
   JS.gt (accuracyMeters body) (ACCURACY_THRESHOLD_METERS env) = false
   /\ photoExists env ctx (photoUrl body) = true
   /\ (verifyChallenge ctx (challengeId body) (challengeNonce body) db).1 = Normal ChallengeOk
   /\ verifySignature env (devicePublicKey body) (deviceSignature body)
        (buildSigningPayload body) = Normal true
   /\ pg_accepts env (event_row ctx (uuid_event ctx) visitId body) = true
   /\ existsb (fun e => String.eqb (event_pk e) (uuid_event ctx)) (visit_events db) = false
   /\ has_visit db visitId = true
   /\ has_event db visitId (eventType body) = false)
  /\ ((insertEvent env ctx visitId body db).1 = Normal (InsertOk (uuid_event ctx)) ->
      (insertEvent env ctx visitId body db).2
      = {| server_challenges :=
             alter (mark_used (db_now ctx)) (challengeId body) (server_challenges db);
           visits := visits db;
           visit_events :=
             visit_events db ++ [event_row ctx (uuid_event ctx) visitId body] |}).
Proof.
  intros _ _.
  split; [apply insertEvent_ok_iff|]. intros Hok. apply (insertEvent_ok_db _ _ _ _ _ _ Hok).
Qed.

Lemma insertEvent_stores_iff_witness :
  (insertEvent Fixture.env (Fixture.ctx_at 4000 Fixture.visit2 Fixture.event2 Fixture.chal2)
     Fixture.visit1
     (Fixture.signed CHECK_OUT "Riverside Market" Fixture.four Fixture.photo Fixture.chal2)
     (Fixture.db_challenge Fixture.chal2 Fixture.db_open)).1
  = Normal (InsertOk Fixture.event2).
Proof.
  apply (proj2 (proj1 (insertEvent_stores_iff Fixture.env
                         (Fixture.ctx_at 4000 Fixture.visit2 Fixture.event2 Fixture.chal2)
                         Fixture.visit1
                         (Fixture.signed CHECK_OUT "Riverside Market" Fixture.four
                            Fixture.photo Fixture.chal2)
                         (Fixture.db_challenge Fixture.chal2 Fixture.db_open)
                         eq_refl eq_refl))).
  repeat split; vm_compute; reflexivity.
Defined.

Lemma has_visit_new db v :
  has_visit {| server_challenges := server_challenges db;
               visits := visits db ++ [v];
               visit_events := visit_events db |} (visit_pk v) = true.
Proof.
  unfold has_visit. cbn [visits]. rewrite existsb_app. cbn.
  unfold visit_pk_is. rewrite String.eqb_refl. apply orb_true_iff. right. reflexivity.
Qed.

(** X4: for a challenge id in canonical text,
    [POST /api/visits/check-in] answers 201 exactly when the body passes
    the schema as a CHECK_IN, no visit has its vendor name or its trimmed
    vendor name up to case, the visit id is new, the event pipeline
    accepts the event and PostgreSQL takes the values of its row; the
    database then gains the visit row with the trimmed name and the
    CHECK_IN event, and the challenge is marked used. *)
Theorem check_in_created_iff env ctx body db :
  canonical_uuid (challengeId body) = true ->
  ((check_in env ctx body db).1
     = Normal {| status := 201; json := JsonCreated (uuid_visit ctx) (uuid_event ctx) |} <->
   EventSchema_success env body = true
   /\ eventType body = CHECK_IN
   /\ vendor_taken db (vendorName body) = false
   /\ vendor_taken db (JS.trim (vendorName body)) = false
   /\ has_visit db (uuid_visit ctx) = false
   /\ JS.gt (accuracyMeters body) (ACCURACY_THRESHOLD_METERS env) = false
   /\ photoExists env ctx (photoUrl body) = true
   /\ (verifyChallenge ctx (challengeId body) (challengeNonce body) db).1 = Normal ChallengeOk
   /\ verifySignature env (devicePublicKey body) (deviceSignature body)
        (buildSigningPayload body) = Normal true
   /\ pg_accepts env (event_row ctx (uuid_event ctx) (uuid_visit ctx) body) = true
   /\ existsb (fun e => String.eqb (event_pk e) (uuid_event ctx)) (visit_events db) = false
   /\ has_event db (uuid_visit ctx) CHECK_IN = false)
  /\ ((check_in env ctx body db).1
        = Normal {| status := 201; json := JsonCreated (uuid_visit ctx) (uuid_event ctx) |} ->
      (check_in env ctx body db).2
      = {| server_challenges :=
             alter (mark_used (db_now ctx)) (challengeId body) (server_challenges db);
           visits := visits db ++ [visit_row ctx (JS.trim (vendorName body))];
           visit_events :=
             visit_events db
             ++ [event_row ctx (uuid_event ctx) (uuid_visit ctx) body] |}).
Proof.
  intros _.
  rewrite check_in_run.
  destruct (EventSchema_success env body); cbn [negb];
    [|split; [split; [discriminate | intros (? & _); discriminate] | discriminate]].
  destruct (eventType body) eqn:Htype; cbn [EventType_eqb negb];
    [|split; [split; [discriminate | intros (_ & ? & _); discriminate] | discriminate]].
  destruct (vendor_taken db (vendorName body)) eqn:Hraw;
    [split; [split; [discriminate | intros (_ & _ & ? & _); discriminate] | discriminate]|].
  destruct (insert_visit_cases (uuid_visit ctx) (JS.trim (vendorName body)) (db_now ctx) db)
    as [(Hfresh & Hfree & Hins)|([Hdup|Hdup] & e & Hins)]; rewrite Hins.
  2,3: split; [split; [discriminate | intros (_ & _ & _ & ? & ? & _); congruence]
              | discriminate].
  set (dbv := {| server_challenges := server_challenges db;
                 visits := visits db ++ [_];
                 visit_events := visit_events db |}).
  pose proof (insertEvent_ok_iff env ctx (uuid_visit ctx) body dbv) as Hiff.
  pose proof (has_visit_new db {| visit_pk := uuid_visit ctx;
                                  vendor_name := JS.trim (vendorName body);
                                  visit_created_at := db_now ctx |}) as Hnew.
  cbn [visit_pk] in Hnew. fold dbv in Hnew.
  rewrite !consume_spec_ok in *. rewrite Htype in Hiff.
  change (server_challenges dbv) with (server_challenges db) in Hiff.
  change (visit_events dbv) with (visit_events db) in Hiff.
  change (has_event dbv) with (has_event db) in Hiff.
  pose proof (insertEvent_ok_db env ctx (uuid_visit ctx) body dbv) as Hdb.
  destruct (insertEvent env ctx (uuid_visit ctx) body dbv) as [[[id|st err]|e] db'];
    cbn [fst snd] in *.
  - specialize (Hdb id eq_refl) as [-> ->]. split; [|reflexivity]. split.
    + intros _. destruct (proj1 Hiff eq_refl) as (? & ? & ? & ? & ? & ? & ? & ?).
      repeat split; assumption.
    + reflexivity.
  - split; [|discriminate]. split; [discriminate|].
    intros (_ & _ & _ & _ & _ & H).
    assert (Normal (InsertFailed st err) = Normal (InsertOk (uuid_event ctx))) as Habs;
      [|discriminate].
    apply Hiff. destruct H as (? & ? & ? & ? & ? & ? & ?). repeat split; assumption.
  - split; [|discriminate]. split; [discriminate|].
    intros (_ & _ & _ & _ & _ & H).
    assert (@Throw InsertResult e = Normal (InsertOk (uuid_event ctx))) as Habs;
      [|discriminate].
    apply Hiff. destruct H as (? & ? & ? & ? & ? & ? & ?). repeat split; assumption.
Qed.

Lemma check_in_created_iff_witness :
  (check_in Fixture.env Scenario.check_in_ctx Scenario.check_in_body Fixture.db1).1
  = Normal {| status := 201; json := JsonCreated Fixture.visit1 Fixture.event1 |}.
Proof.
  apply (proj2 (proj1 (check_in_created_iff Fixture.env Scenario.check_in_ctx
                         Scenario.check_in_body Fixture.db1 eq_refl))).
  repeat split; vm_compute; reflexivity.
Defined.

(** X5: for a visit id and a challenge id in canonical text,
    [POST /api/visits/:visitId/check-out] answers 201 exactly when the
    body passes the schema as a CHECK_OUT, PostgreSQL reads the visit
    id of the URL as a UUID, the visit is stored with the
    same vendor name up to [trim] and case, the event pipeline accepts
    the event, PostgreSQL takes the values of its row and the visit has
    no CHECK_OUT yet, whether or not a CHECK_IN is stored for it; the
    database then gains the CHECK_OUT event and the challenge is marked
    used. *)
Theorem check_out_created_iff env ctx visitId body db :
  canonical_uuid visitId = true ->
  canonical_uuid (challengeId body) = true ->
  ((check_out env ctx visitId body db).1
     = Normal {| status := 201; json := JsonCreated visitId (uuid_event ctx) |} <->
   EventSchema_success env body = true
   /\ eventType body = CHECK_OUT
   /\ pg_uuid env visitId = true
   /\ (exists v, find (visit_pk_is visitId) (visits db) = Some v
                 /\ same_vendor (vendorName body) (vendor_name v))
   /\ JS.gt (accuracyMeters body) (ACCURACY_THRESHOLD_METERS env) = false
   /\ photoExists env ctx (photoUrl body) = true
   /\ (verifyChallenge ctx (challengeId body) (challengeNonce body) db).1 = Normal ChallengeOk
   /\ verifySignature env (devicePublicKey body) (deviceSignature body)
        (buildSigningPayload body) = Normal true
   /\ pg_accepts env (event_row ctx (uuid_event ctx) visitId body) = true
   /\ existsb (fun e => String.eqb (event_pk e) (uuid_event ctx)) (visit_events db) = false
   /\ has_event db visitId CHECK_OUT = false)
  /\ ((check_out env ctx visitId body db).1
        = Normal {| status := 201; json := JsonCreated visitId (uuid_event ctx) |} ->
      (check_out env ctx visitId body db).2
      = {| server_challenges :=
             alter (mark_used (db_now ctx)) (challengeId body) (server_challenges db);
           visits := visits db;
           visit_events := visit_events db ++ [event_row ctx (uuid_event ctx) visitId body] |}).
Proof.
  intros _ _.
  rewrite check_out_run.
  destruct (EventSchema_success env body); cbn [negb];
    [|split; [split; [discriminate | intros (? & _); discriminate] | discriminate]].
  destruct (eventType body) eqn:Htype; cbn [EventType_eqb negb];
    [split; [split; [discriminate | intros (_ & ? & _); discriminate] | discriminate]|].
  destruct (pg_uuid env visitId) eqn:Huuid; cbn [negb];
    [|split; [split; [discriminate | intros (_ & _ & ? & _); discriminate] | discriminate]].
  destruct (find (visit_pk_is visitId) (visits db)) as [v|] eqn:Hfind;
    [|split; [split; [discriminate | intros (_ & _ & _ & (? & ? & _) & _); discriminate]
             | discriminate]].
  unfold same_vendor.
  destruct (String.eqb_spec (JS.toLowerCase (JS.trim (vendorName body)))
              (JS.toLowerCase (JS.trim (vendor_name v)))) as [Hsame|Hdiff]; cbn [negb].
  2:{ split; [|discriminate]. split; [discriminate|].
      intros (_ & _ & _ & (v' & [= <-] & Hsame) & _). contradiction. }
  pose proof (insertEvent_ok_iff env ctx visitId body db) as Hiff.
  rewrite Htype in Hiff.
  assert (has_visit db visitId = true) as Hvisit.
  { unfold has_visit. rewrite find_existsb, Hfind. apply bool_decide_eq_true_2. eauto. }
  pose proof (insertEvent_ok_db env ctx visitId body db) as Hdb.
  destruct (insertEvent env ctx visitId body db) as [[[id|st err]|e] db'];
    cbn [fst snd] in *.
  - specialize (Hdb id eq_refl) as [-> ->]. split; [|reflexivity]. split.
    + intros _. destruct (proj1 Hiff eq_refl) as (? & ? & ? & ? & ? & ? & ? & ?).
      repeat split; eauto.
    + reflexivity.
  - split; [|discriminate]. split; [discriminate|].
    intros (_ & _ & _ & _ & H).
    assert (Normal (InsertFailed st err) = Normal (InsertOk (uuid_event ctx))) as Habs;
      [|discriminate].
    apply Hiff. destruct H as (? & ? & ? & ? & ? & ? & ?). repeat split; assumption.
  - split; [|discriminate]. split; [discriminate|].
    intros (_ & _ & _ & _ & H).
    assert (@Throw InsertResult e = Normal (InsertOk (uuid_event ctx))) as Habs;
      [|discriminate].
    apply Hiff. destruct H as (? & ? & ? & ? & ? & ? & ?). repeat split; assumption.
Qed.

Lemma check_out_created_iff_witness :
  has_event Scenario.db_orphan Fixture.visit1 CHECK_IN = false
  /\ (check_out Fixture.env Scenario.check_out_ctx Fixture.visit1 Scenario.check_out_body
        Scenario.db_orphan).1
     = Normal {| status := 201; json := JsonCreated Fixture.visit1 Fixture.event2 |}.
Proof.
  split; [reflexivity|].
  apply (proj2 (proj1 (check_out_created_iff Fixture.env Scenario.check_out_ctx
                         Fixture.visit1 Scenario.check_out_body Scenario.db_orphan
                         eq_refl eq_refl))).
  repeat split; try (vm_compute; reflexivity).
  eexists. split; vm_compute; reflexivity.
Defined.

(** ** Issuing challenges *)

Lemma get_challenge_run env ctx db :
  get_challenge env ctx db =
    match server_challenges db !! uuid_challenge ctx with
    | Some _ =>
        (Normal {| status := 500; json := JsonError "Failed to create challenge" |}, db)
    | None =>
        let expiresAt := date_now ctx + CHALLENGE_TTL_SECONDS env * 1000 in
        (Normal {| status := 200;
                   json := JsonChallenge (uuid_challenge ctx) (random_nonce ctx) expiresAt |},
         {| server_challenges :=
              <[uuid_challenge ctx := {| nonce := random_nonce ctx; expires_at := expiresAt;
                                         used_at := None |}]> (server_challenges db);
            visits := visits db;
            visit_events := visit_events db |})
    end.
Proof.
  unfold get_challenge, createChallenge, insert_challenge. monad. unfold mret, M_ret, ret.
  destruct (server_challenges db !! uuid_challenge ctx); reflexivity.
Qed.

(** X6: [GET /api/challenge] with a new id stores an unused challenge
    that expires [CHALLENGE_TTL_SECONDS] after [Date.now()] and answers
    with its id, nonce and expiry; that challenge is then consumed by its
    nonce up to the expiry and refused as expired after it, and refused
    for any other nonce. With an id already stored the route answers 500
    and leaves the stored challenge as it is. *)
Theorem issued_challenge_consumable env ctx db :
  (server_challenges db !! uuid_challenge ctx = None ->
   let expiresAt := date_now ctx + CHALLENGE_TTL_SECONDS env * 1000 in
   (get_challenge env ctx db).1
     = Normal {| status := 200;
                 json := JsonChallenge (uuid_challenge ctx) (random_nonce ctx) expiresAt |}
   /\ forall ctx' presented,
        (verifyChallenge ctx' (uuid_challenge ctx) presented (get_challenge env ctx db).2).1
        = Normal (if date_now ctx' >? expiresAt then ChallengeRejected "Challenge expired"
                  else if String.eqb (random_nonce ctx) presented then ChallengeOk
                  else ChallengeRejected "Challenge nonce mismatch"))
  /\ (is_Some (server_challenges db !! uuid_challenge ctx) ->
      get_challenge env ctx db
        = (Normal {| status := 500; json := JsonError "Failed to create challenge" |}, db)).
Proof.
  rewrite get_challenge_run. split.
  - intros ->. cbv zeta. cbn [fst snd]. split; [reflexivity|].
    intros ctx' presented. rewrite verifyChallenge_run. unfold consume_spec.
    cbn [server_challenges]. rewrite lookup_insert_eq. cbn [used_at expires_at nonce].
    rewrite bool_decide_eq_false_2 by (intros [? ?]; discriminate).
    destruct (date_now ctx' >? _); [reflexivity|].
    destruct (String.eqb_spec (random_nonce ctx) presented) as [->|Hne].
    + rewrite bool_decide_eq_false_2 by (intros H; apply H; reflexivity). reflexivity.
    + rewrite bool_decide_eq_true_2 by congruence. reflexivity.
  - intros [row ->]. reflexivity.
Qed.

Lemma issued_challenge_consumable_witness :
  (verifyChallenge (Fixture.ctx_at 2000 Fixture.visit1 Fixture.event1 Fixture.chal2)
     Fixture.chal1 "abc123" Fixture.db1).1 = Normal ChallengeOk
  /\ get_challenge Fixture.env (Fixture.ctx_at 3000 Fixture.visit1 Fixture.event1 Fixture.chal1)
       Fixture.db1
     = (Normal {| status := 500; json := JsonError "Failed to create challenge" |},
        Fixture.db1).
Proof.
  split.
  - apply (proj2 (proj1 (issued_challenge_consumable Fixture.env
                           (Fixture.ctx_at 1000 Fixture.visit1 Fixture.event1 Fixture.chal1)
                           empty_db) eq_refl)
             (Fixture.ctx_at 2000 Fixture.visit1 Fixture.event1 Fixture.chal2) "abc123").
  - apply (proj2 (issued_challenge_consumable Fixture.env
                    (Fixture.ctx_at 3000 Fixture.visit1 Fixture.event1 Fixture.chal1)
                    Fixture.db1)).
    vm_compute. eauto.
Defined.

(** ** Vendor names sent trimmed *)

(** X7: for a check-in whose vendor name is already trimmed, as the
    web client sends it, and holds no NUL character (which PostgreSQL
    refuses in a text parameter), the name test of the route and the
    unique index [uniq_vendor_name] on [LOWER(vendor_name)] agree: with a
    new visit id the route answers 409 when the name is taken up to case,
    and otherwise inserts the visit row under that name; it never answers
    "Failed to create visit". *)
Theorem check_in_trimmed_name env ctx body db :
  JS.trim (vendorName body) = vendorName body ->
  pg_text (vendorName body) = true ->
  EventSchema_success env body = true ->
  eventType body = CHECK_IN ->
  has_visit db (uuid_visit ctx) = false ->
  (vendor_taken db (vendorName body) = true
   /\ check_in env ctx body db
      = (Normal {| status := 409; json := JsonError "Vendor name already exists" |}, db))
  \/ (vendor_taken db (vendorName body) = false
      /\ visits (check_in env ctx body db).2
         = visits db ++ [visit_row ctx (vendorName body)]
      /\ (insert_visit (uuid_visit ctx) (JS.trim (vendorName body)) (db_now ctx) db).1
         = Normal tt).
Proof.
  intros Htrim _ Hschema Htype Hfresh.
  rewrite check_in_run, Hschema, Htype, Htrim. cbn [negb EventType_eqb].
  destruct (vendor_taken db (vendorName body)) eqn:Htaken; [left; auto|].
  right. split; [reflexivity|].
  destruct (insert_visit_cases (uuid_visit ctx) (vendorName body) (db_now ctx) db)
    as [(_ & _ & ->)|([Hdup|Hdup] & _)]; [|congruence..].
  split; [|reflexivity].
  match goal with |- context [insertEvent env ctx ?v body ?d] =>
    destruct (insertEvent_frame env ctx v body d) as (Hvisits & _ & r & Hr);
    destruct (insertEvent env ctx v body d) as [c db'] end.
  cbn [fst snd] in *. subst c.
  destruct r as [id|st err]; cbn [fst snd]; rewrite Hvisits; reflexivity.
Qed.

Lemma check_in_trimmed_name_witness :
  check_in Fixture.env (Fixture.ctx_at 3000 Fixture.visit2 Fixture.event2 Fixture.chal2)
    (Fixture.signed CHECK_IN "riverside market" Fixture.four Fixture.photo Fixture.chal2)
    Fixture.db_open
  = (Normal {| status := 409; json := JsonError "Vendor name already exists" |},
     Fixture.db_open).
Proof.
  destruct (check_in_trimmed_name Fixture.env
              (Fixture.ctx_at 3000 Fixture.visit2 Fixture.event2 Fixture.chal2)
              (Fixture.signed CHECK_IN "riverside market" Fixture.four Fixture.photo
                 Fixture.chal2)
              Fixture.db_open eq_refl eq_refl eq_refl eq_refl eq_refl) as [[_ H]|[H _]].
  - exact H.
  - vm_compute in H. discriminate.
Defined.

(** ** Nothing stored is lost *)

Lemma grows_refl db : grows db db.
Proof. repeat split; try reflexivity. intros id row Hrow. exists row. auto. Qed.

Lemma grows_trans db1 db2 db3 : grows db1 db2 -> grows db2 db3 -> grows db1 db3.
Proof.
  intros (Hv & He & Hc) (Hv' & He' & Hc'). repeat split; try (etrans; eassumption).
  intros id row Hrow.
  destruct (Hc id row Hrow) as (row2 & Hrow2 & Hn & Hx & Hu).
  destruct (Hc' id row2 Hrow2) as (row3 & Hrow3 & Hn' & Hx' & Hu').
  exists row3. repeat split; try congruence.
  intros Hused. rewrite Hu', Hu; auto. rewrite Hu; assumption.
Qed.

Lemma grows_consume id t db row :
  server_challenges db !! id = Some row -> used_at row = None ->
  grows db (set_used_at id t db).
Proof.
  intros Hrow Hunused. repeat split; try reflexivity.
  intros id' row' Hrow'. cbn [set_used_at server_challenges].
  destruct (decide (id = id')) as [<-|Hne].
  - rewrite lookup_alter_eq, Hrow. cbn. exists (mark_used t row).
    assert (row' = row) as -> by congruence.
    repeat split. rewrite Hunused. intros [? ?]; discriminate.
  - rewrite lookup_alter_ne by assumption. exists row'. auto.
Qed.

Lemma grows_append db vs es :
  grows db {| server_challenges := server_challenges db;
              visits := visits db ++ vs;
              visit_events := visit_events db ++ es |}.
Proof.
  repeat split; cbn; try (apply prefix_app_r; reflexivity).
  intros id row Hrow. exists row. auto.
Qed.

Lemma insertEvent_grows env ctx visitId body db :
  grows db (insertEvent env ctx visitId body db).2.
Proof.
  destruct (insertEvent_cases env ctx visitId body db)
    as [(st & err & ->)|[(st & err & row & Hrow & Hunused & ->)
                        |(row & Hrow & Hunused & _ & _ & _ & ->)]]; cbn [snd].
  - apply grows_refl.
  - eapply grows_consume; eassumption.
  - eapply grows_trans; [eapply (grows_consume _ (db_now ctx)); eassumption|].
    pose proof (grows_append (set_used_at (challengeId body) (db_now ctx) db) []
                  [event_row ctx (uuid_event ctx) visitId body]) as H.
    cbn [set_used_at server_challenges visits visit_events] in H.
    rewrite app_nil_r in H. exact H.
Qed.

Lemma handle_grows env ctx req db : grows db (handle env ctx req db).2.
Proof.
  destruct req as [|body|visitId body]; cbn [handle].
  - rewrite get_challenge_run.
    destruct (server_challenges db !! uuid_challenge ctx) as [row|] eqn:Hid;
      [apply grows_refl|].
    cbv zeta. repeat split; cbn; try reflexivity.
    intros id row Hrow. exists row. rewrite lookup_insert_ne by congruence. auto.
  - rewrite check_in_run.
    destruct (negb (EventSchema_success env body)); [apply grows_refl|].
    destruct (negb (EventType_eqb _ _)); [apply grows_refl|].
    destruct (vendor_taken db (vendorName body)); [apply grows_refl|].
    destruct (insert_visit_cases (uuid_visit ctx) (JS.trim (vendorName body)) (db_now ctx) db)
      as [(_ & _ & ->)|(_ & e & ->)]; [|apply grows_refl].
    match goal with |- context [insertEvent env ctx ?v body ?d] =>
      pose proof (insertEvent_grows env ctx v body d) as Hg;
      destruct (insertEvent_frame env ctx v body d) as (_ & _ & r & Hr);
      destruct (insertEvent env ctx v body d) as [c db'] end.
    cbn [fst snd] in *. subst c.
    assert (grows db db') as Hgoal.
    { eapply grows_trans; [|exact Hg].
      pose proof (grows_append db
                    [{| visit_pk := uuid_visit ctx; vendor_name := JS.trim (vendorName body);
                        visit_created_at := db_now ctx |}] []) as H.
      rewrite app_nil_r in H. exact H. }
    destruct r; exact Hgoal.
  - rewrite check_out_run.
    destruct (negb (EventSchema_success env body)); [apply grows_refl|].
    destruct (negb (EventType_eqb _ _)); [apply grows_refl|].
    destruct (negb (pg_uuid env visitId)); [apply grows_refl|].
    destruct (find _ (visits db)) as [v|]; [|apply grows_refl].
    destruct (negb (String.eqb _ _)); [apply grows_refl|].
    pose proof (insertEvent_grows env ctx visitId body db) as Hg.
    destruct (insertEvent_frame env ctx visitId body db) as (_ & _ & r & Hr).
    destruct (insertEvent env ctx visitId body db) as [c db'].
    cbn [fst snd] in *. subst c. destruct r; exact Hg.
Qed.

Lemma run_requests_grows env reqs db : grows db (run_requests env reqs db).
Proof.
  revert db. induction reqs as [|[ctx req] rest IH]; intros db; cbn [run_requests].
  - apply grows_refl.
  - eapply grows_trans; [apply handle_grows | apply IH].
Qed.

(** X8: no sequence of requests removes or changes what is stored: the
    visits and the events of a database stay, in their order, in front of
    any later rows, every challenge keeps its nonce and its expiry, and a
    challenge that is marked used keeps its [used_at]. *)
Theorem stored_rows_stay env reqs db :
  let db' := run_requests env reqs db in
  visits db `prefix_of` visits db'
  /\ visit_events db `prefix_of` visit_events db'
  /\ forall id row,
       server_challenges db !! id = Some row ->
       exists row',
         server_challenges db' !! id = Some row'
         /\ nonce row' = nonce row /\ expires_at row' = expires_at row
         /\ (is_Some (used_at row) -> used_at row' = used_at row).
Proof. exact (run_requests_grows env reqs db). Qed.

Lemma stored_rows_stay_witness :
  exists row',
    server_challenges Fixture.db_closed !! Fixture.chal1 = Some row'
    /\ nonce row' = "abc123" /\ expires_at row' = 121000
    /\ used_at row' = Some 2000.
Proof.
  destruct (proj2 (proj2 (stored_rows_stay Fixture.env Fixture.closing Fixture.db_open))
              Fixture.chal1
              {| nonce := "abc123"; expires_at := 121000; used_at := Some 2000 |})
    as (row' & Hrow & Hn & Hx & Hu); [vm_compute; reflexivity|].
  exists row'. repeat split; try assumption. apply Hu. cbn. eauto.
Defined.

Lemma vendor_taken_prefix db db' name :
  visits db `prefix_of` visits db' ->
  vendor_taken db name = true -> vendor_taken db' name = true.
Proof.
  intros [k Hk]. unfold vendor_taken. rewrite Hk, existsb_app. intros ->. reflexivity.
Qed.

(** X9: a vendor name, once a visit row holds it, is taken for good:
    after any further requests, check-outs included, a well-formed
    check-in with that name up to case is answered 409 and changes
    nothing. *)
Theorem vendor_name_taken_for_good env reqs ctx body db :
  vendor_taken db (vendorName body) = true ->
  EventSchema_success env body = true ->
  eventType body = CHECK_IN ->
  check_in env ctx body (run_requests env reqs db)
    = (Normal {| status := 409; json := JsonError "Vendor name already exists" |},
       run_requests env reqs db).
Proof.
  intros Htaken Hschema Htype.
  rewrite check_in_run, Hschema, Htype. cbn [negb EventType_eqb].
  rewrite (vendor_taken_prefix db (run_requests env reqs db) (vendorName body));
    [reflexivity | apply run_requests_grows | assumption].
Qed.

Lemma vendor_name_taken_for_good_witness :
  (check_in Fixture.env (Fixture.ctx_at 7000 Fixture.visit2 Fixture.event3 Fixture.chal3)
     (Fixture.signed CHECK_IN "Riverside Market" Fixture.four Fixture.photo Fixture.chal3)
     Fixture.db_closed).1
  = Normal {| status := 409; json := JsonError "Vendor name already exists" |}.
Proof.
  pose proof (vendor_name_taken_for_good Fixture.env Fixture.closing
                (Fixture.ctx_at 7000 Fixture.visit2 Fixture.event3 Fixture.chal3)
                (Fixture.signed CHECK_IN "Riverside Market" Fixture.four Fixture.photo
                   Fixture.chal3)
                Fixture.db_open eq_refl eq_refl eq_refl) as H.
  exact (f_equal fst H).
Defined.

(** ** The client and the server *)

Lemma append_inv_tail a b r : a +:+ r = b +:+ r -> a = b.
Proof.
  revert b. induction a as [|x a IH]; intros [|y b]; rewrite ?append_cons, ?append_nil_l.
  - reflexivity.
  - intros H. apply (f_equal String.length) in H. cbn in H. rewrite append_length in H. lia.
  - intros H. apply (f_equal String.length) in H. cbn in H. rewrite append_length in H. lia.
  - intros [= -> H]. rewrite (IH b H). reflexivity.
Qed.

Lemma client_payload_agrees_iff_helper t st challengeId_ nonce_ capturedAt_ signature :
  buildSigningPayload (client_body t st challengeId_ nonce_ capturedAt_ signature)
    = client_payload t st nonce_ capturedAt_ ->
  JS.trim (cl_vendorName st) = cl_vendorName st.
Proof.
  unfold buildSigningPayload, client_payload, client_body.
  cbn [challengeNonce eventType vendorName latitude longitude accuracyMeters capturedAt
       photoSha256 JS.join].
  intros H. do 2 apply append_inv_head in H.
  rewrite <- !append_assoc in H.
  repeat (apply append_inv_tail in H || rewrite append_assoc in H).
  do 2 apply append_inv_head in H. exact H.
Qed.

(** X10: the payload the server rebuilds from a body posted by the web
    client is the payload the client signed exactly when the vendor name
    typed has no surrounding white space: the client signs the name as
    typed and posts it trimmed. *)
Theorem client_payload_agrees_iff t st challengeId_ nonce_ capturedAt_ signature :
  buildSigningPayload (client_body t st challengeId_ nonce_ capturedAt_ signature)
    = client_payload t st nonce_ capturedAt_
  <-> JS.trim (cl_vendorName st) = cl_vendorName st.
Proof.
  split; [apply client_payload_agrees_iff_helper|].
  unfold buildSigningPayload, client_payload, client_body.
  cbn [challengeNonce eventType vendorName latitude longitude accuracyMeters capturedAt
       photoSha256 JS.join].
  intros ->. reflexivity.
Qed.

Lemma client_payload_agrees_iff_witness :
  buildSigningPayload (client_body CHECK_IN Scenario.padded Fixture.chal1 "abc123"
                         "2024-01-01T00:00:00Z" "c2ln")
  <> client_payload CHECK_IN Scenario.padded "abc123" "2024-01-01T00:00:00Z".
Proof.
  intros H.
  apply (proj1 (client_payload_agrees_iff CHECK_IN Scenario.padded Fixture.chal1 "abc123"
                  "2024-01-01T00:00:00Z" "c2ln")) in H.
  vm_compute in H. discriminate.
Defined.

(** X11: when the device's signatures verify for the signed payload
    only, a check-in or check-out the web client builds from a vendor
    name typed with surrounding white space is never stored: the event
    pipeline does not accept it, and once its challenge is consumed the
    answer is "Invalid device signature" with the challenge spent. *)
Theorem client_padded_name_refused env ctx st t visitId challengeId_ nonce_ capturedAt_
    (sign : string -> string) db :
  (forall payload data,
     verifySignature env (cl_publicKeyB64 st) (sign payload) data = Normal true ->
     data = payload) ->
  JS.trim (cl_vendorName st) <> cl_vendorName st ->
  let body := client_body t st challengeId_ nonce_ capturedAt_
                (sign (client_payload t st nonce_ capturedAt_)) in
  (insertEvent env ctx visitId body db).1 <> Normal (InsertOk (uuid_event ctx))
  /\ (JS.gt (accuracyMeters body) (ACCURACY_THRESHOLD_METERS env) = false ->
      photoExists env ctx (photoUrl body) = true ->
      (verifyChallenge ctx challengeId_ nonce_ db).1 = Normal ChallengeOk ->
      insertEvent env ctx visitId body db
        = (Normal (InsertFailed 400 "Invalid device signature"),
           set_used_at challengeId_ (db_now ctx) db)).
Proof.
  intros Hsound Hpadded body.
  assert (signature_accepted env body = false) as Hsig.
  { unfold signature_accepted.
    destruct (verifySignature env (devicePublicKey body) (deviceSignature body)
                (buildSigningPayload body)) as [[|]|e] eqn:Hv; try reflexivity.
    exfalso. apply Hpadded. apply Hsound in Hv.
    apply (client_payload_agrees_iff_helper t st challengeId_ nonce_ capturedAt_ _ Hv). }
  split.
  - intros Hok. apply insertEvent_ok_iff in Hok as (_ & _ & _ & Hv & _).
    unfold signature_accepted in Hsig. rewrite Hv in Hsig. discriminate.
  - intros Hacc Hphoto Hconsume. apply consume_spec_ok in Hconsume.
    rewrite insertEvent_run, Hacc, Hphoto. cbn [negb].
    change (challengeId body) with challengeId_.
    change (challengeNonce body) with nonce_.
    rewrite Hconsume. cbv zeta. rewrite Hsig. reflexivity.
Qed.

Lemma list_byte_of_string_app a b :
  String.list_byte_of_string (a +:+ b)
  = String.list_byte_of_string a ++ String.list_byte_of_string b.
Proof.
  unfold String.list_byte_of_string.
  induction a as [|c a IH]; [reflexivity|].
  rewrite append_cons. cbn. rewrite IH. reflexivity.
Qed.

Lemma to_N_fmap_inj (l k : list Byte.byte) : Byte.to_N <$> l = Byte.to_N <$> k -> l = k.
Proof.
  revert k. induction l as [|x l IH]; intros [|y k]; cbn; try discriminate; [reflexivity|].
  intros [= Hxy Hlk]. apply (f_equal Byte.of_N) in Hxy. rewrite !Byte.of_to_N in Hxy.
  injection Hxy as ->. rewrite (IH k Hlk). reflexivity.
Qed.

(** Under the stand-in provider a signature made with the device key
    verifies for the signed payload only. *)
Lemma device_sign_sound payload data :
  verifySignature Fixture.env Fixture.device_key (Scenario.device_sign payload) data
    = Normal true ->
  data = payload.
Proof.
  unfold verifySignature, completion_catch, completion_bind, Scenario.device_sign,
    Buffer_from_utf8.
  cbn [Fixture.env Buffer_from_base64 createPublicKey crypto_verify].
  rewrite list_byte_of_string_app.
  change (String.list_byte_of_string Fixture.device_key)
    with (x30 :: String.list_byte_of_string "device-key-A").
  cbn [app]. intros [= H]. apply bool_decide_eq_true_1 in H.
  repeat (injection H as H). apply (to_N_fmap_inj _ _) in H.
  apply (f_equal String.string_of_list_byte) in H.
  rewrite !String.string_of_list_byte_of_string in H. congruence.
Qed.

Lemma client_padded_name_refused_witness :
  let body := client_body CHECK_IN Scenario.padded Fixture.chal1 "abc123"
                "2024-01-01T00:00:00Z"
                (Scenario.device_sign
                   (client_payload CHECK_IN Scenario.padded "abc123" "2024-01-01T00:00:00Z")) in
  insertEvent Fixture.env Scenario.check_in_ctx Fixture.visit1 body Fixture.db1
  = (Normal (InsertFailed 400 "Invalid device signature"),
     set_used_at Fixture.chal1 2000 Fixture.db1).
Proof.
  intros body.
  refine (proj2 (client_padded_name_refused Fixture.env Scenario.check_in_ctx Scenario.padded
                   CHECK_IN Fixture.visit1 Fixture.chal1 "abc123" "2024-01-01T00:00:00Z"
                   Scenario.device_sign Fixture.db1 device_sign_sound _) _ _ _);
    try reflexivity.
  vm_compute. discriminate.
Defined.

(** ** Photo upload *)

(** X12: the upload request the web client sends carries no vendor
    name, so the route never stores its photo: a file over multer's size
    limit is refused before the handler runs, and any other is answered
    with status 400 ("Missing vendorName" for an image, "Invalid file
    type" otherwise); nothing is written. *)
Theorem client_upload_refused pf file disk :
  post_photos pf (client_photo_request file) disk
  = (if within_fileSize pf (5 * 1024 * 1024) (buffer file)
     then PhotoError 400 (if JS.startsWith (mimetype file) "image/"
                          then "Missing vendorName" else "Invalid file type")
     else PhotoRefused "LIMIT_FILE_SIZE",
     disk).
Proof.
  unfold post_photos, upload_single, client_photo_request.
  cbn [req_file req_vendorName text_or_empty].
  destruct (within_fileSize pf _ (buffer file)); [|reflexivity].
  destruct (JS.startsWith (mimetype file) "image/"); reflexivity.
Qed.

Lemma dash_runs_no_space in_run s :
  all_chars (fun c => negb (JS.is_space c)) (dash_runs in_run s) = true.
Proof.
  revert in_run. induction s as [|c s IH]; intros in_run; [reflexivity|].
  cbn [dash_runs]. destruct (JS.is_space c) eqn:Hc.
  - destruct in_run; [apply IH|]. cbn [all_chars]. rewrite IH. reflexivity.
  - cbn [all_chars]. rewrite Hc, IH. reflexivity.
Qed.

Lemma dash_runs_fixed s :
  all_chars (fun c => negb (JS.is_space c)) s = true -> dash_runs false s = s.
Proof.
  induction s as [|c s IH]; [reflexivity|].
  cbn [all_chars dash_runs]. intros [Hc Hs]%andb_true_iff.
  apply negb_true_iff in Hc. rewrite Hc, (IH Hs). reflexivity.
Qed.

Lemma startsWith_app p x : JS.startsWith (p +:+ x) p = true.
Proof.
  unfold JS.startsWith. induction p as [|c p IH]; [destruct x; reflexivity|].
  rewrite append_cons. cbn [String.prefix].
  destruct (ascii_dec c c); [exact IH | congruence].
Qed.

(** X13: when the upload route answers with a photo URL, the URL is
    ["/uploads/"] followed by the file name, contains no white space, and
    passes the prefix test of [photoExists], which therefore asks the
    disk; the digest returned is that of the bytes received; for a vendor
    name without white space the file name is the name, a dot and the
    extension. *)
Theorem upload_answer_url pf req disk url sha disk' :
  post_photos pf req disk = (PhotoJson url sha, disk') ->
  exists file name,
    req_file req = Some file /\ req_vendorName req = Some name
    /\ url = "/uploads/" +:+ photo_filename name (mimetype file)
    /\ sha = sha256Hex pf (buffer file)
    /\ all_chars (fun c => negb (JS.is_space c)) url = true
    /\ (forall env ctx, photoExists env ctx url = existsSync ctx (path_join_dirname env url))
    /\ (all_chars (fun c => negb (JS.is_space c)) name = true ->
        JS.trim name = name ->
        url = "/uploads/" +:+ name +:+ "."
              +:+ (if includes "png" (mimetype file) then "png" else "jpg")).
Proof.
  unfold post_photos, upload_single. cbv zeta.
  destruct (req_file req) as [file|]; [|discriminate].
  destruct (within_fileSize pf _ (buffer file)); [|discriminate].
  destruct (negb (JS.startsWith (mimetype file) "image/")); [discriminate|].
  destruct (req_vendorName req) as [name|]; [|cbn; discriminate]. cbn [text_or_empty].
  destruct (String.eqb (JS.trim name) ""); [discriminate|].
  destruct (writeFileSync pf _ _ disk) as [[[]|e] d]; [|discriminate].
  intros [= <- <- <-]. exists file, name. repeat split.
  - unfold photo_filename. rewrite !all_chars_app.
    unfold replace_space_runs. rewrite dash_runs_no_space.
    destruct (includes "png" (mimetype file)); reflexivity.
  - intros env ctx. unfold photoExists. rewrite startsWith_app. reflexivity.
  - intros Hname Htrim. unfold photo_filename, replace_space_runs.
    rewrite Htrim, (dash_runs_fixed name Hname). reflexivity.
Qed.

Lemma upload_answer_url_witness :
  photoExists Fixture.env Scenario.check_in_ctx "/uploads/Riverside-Market.jpg"
  = existsSync Scenario.check_in_ctx
      (path_join_dirname Fixture.env "/uploads/Riverside-Market.jpg").
Proof.
  destruct (upload_answer_url Scenario.platform
              {| req_file := Some Scenario.jpeg; req_vendorName := Some "Riverside Market" |}
              ∅ "/uploads/Riverside-Market.jpg" "3"
              {["/srv/api/uploads/Riverside-Market.jpg" := buffer Scenario.jpeg]} eq_refl)
    as (file & name & _ & _ & _ & _ & _ & Hgate & _).
  apply Hgate.
Defined.

(** ** The client address *)

Lemma trimStart_chars P s : all_chars P s = true -> all_chars P (JS.trimStart s) = true.
Proof.
  induction s as [|c s IH]; [reflexivity|]. cbn [JS.trimStart].
  destruct (JS.is_space c); [|auto]. cbn [all_chars]. intros [_ Hs]%andb_true_iff. auto.
Qed.

Lemma trimEnd_chars P s : all_chars P s = true -> all_chars P (JS.trimEnd s) = true.
Proof.
  induction s as [|c s IH]; [reflexivity|]. cbn [all_chars JS.trimEnd].
  intros [Hc Hs]%andb_true_iff. specialize (IH Hs).
  destruct (JS.trimEnd s) as [|d k].
  - destruct (JS.is_space c); [reflexivity|]. cbn [all_chars]. rewrite Hc. reflexivity.
  - cbn [all_chars] in *. rewrite Hc, IH. reflexivity.
Qed.

Lemma trim_chars P s : all_chars P s = true -> all_chars P (JS.trim s) = true.
Proof. intros H. apply trimEnd_chars, trimStart_chars, H. Qed.

Lemma split_hd c s : hd "" (JS.split c s) = (cut_at c s).1.
Proof.
  induction s as [|x s IH]; [reflexivity|]. cbn [JS.split cut_at].
  destruct (Ascii.eqb x c); [reflexivity|]. cbn [fst]. rewrite <- IH.
  destruct (JS.split c s); reflexivity.
Qed.

Lemma cut_at_fst_free c s : free_of c (cut_at c s).1 = true.
Proof.
  unfold free_of. induction s as [|x s IH]; [reflexivity|]. cbn [cut_at].
  destruct (Ascii.eqb x c) eqn:Hx; [reflexivity|]. cbn [fst all_chars]. rewrite Hx, IH.
  reflexivity.
Qed.

(** X14: when [X-Forwarded-For] is a non-empty string, [getClientIp]
    returns the text before its first comma, or the whole text when it
    has no comma, trimmed, whatever the socket address is: the result
    holds no comma and no surrounding white space. Otherwise it returns
    the socket address, or null when that is absent or empty. *)
Theorem getClientIp_first_hop xf remoteAddress :
  (forall s, xf = HeaderText s -> s <> "" ->
     getClientIp xf remoteAddress = Some (JS.trim (cut_at "," s).1)
     /\ free_of "," (JS.trim (cut_at "," s).1) = true
     /\ JS.trim (JS.trim (cut_at "," s).1) = JS.trim (cut_at "," s).1
     /\ (forall a r, free_of "," a = true -> s = a +:+ "," +:+ r -> (cut_at "," s).1 = a)
     /\ (free_of "," s = true -> (cut_at "," s).1 = s))
  /\ ((forall s, xf = HeaderText s -> s = "") ->
      getClientIp xf remoteAddress
      = match remoteAddress with
        | Some "" | None => None
        | Some a => Some a
        end).
Proof.
  split.
  - intros s -> Hs. cbn [getClientIp].
    destruct s as [|c s]; [congruence|]. cbn [String.length Nat.ltb Nat.leb].
    rewrite split_hd. repeat split.
    + apply trim_chars, cut_at_fst_free.
    + apply trim_idempotent.
    + intros a r Ha ->. change ("," +:+ r) with (String "," r).
      rewrite (cut_at_app _ _ _ Ha). reflexivity.
    + intros Hfree. rewrite (cut_at_free _ _ Hfree). reflexivity.
  - intros Hxf. unfold getClientIp.
    assert (match remoteAddress with
            | Some a => if String.eqb a "" then None else Some a
            | None => None
            end = match remoteAddress with
                  | Some "" | None => None
                  | Some a => Some a
                  end) as Hfallback.
    { destruct remoteAddress as [[|c a]|]; reflexivity. }
    destruct xf as [|s|l]; try exact Hfallback.
    rewrite (Hxf s eq_refl). exact Hfallback.
Qed.

Lemma getClientIp_first_hop_witness :
  getClientIp (HeaderText " 203.0.113.7 , 10.0.0.1") (Some "127.0.0.1") = Some "203.0.113.7"
  /\ getClientIp (HeaderText "203.0.113.7 ") (Some "127.0.0.1") = Some "203.0.113.7".
Proof.
  split.
  - apply (proj1 (proj1 (getClientIp_first_hop (HeaderText " 203.0.113.7 , 10.0.0.1")
                           (Some "127.0.0.1")) " 203.0.113.7 , 10.0.0.1" eq_refl
                    ltac:(discriminate))).
  - apply (proj1 (proj1 (getClientIp_first_hop (HeaderText "203.0.113.7 ")
                           (Some "127.0.0.1")) "203.0.113.7 " eq_refl
                    ltac:(discriminate))).
Defined.

(** ** CSV export *)

Lemma csv_read_close m field record t :
  m <> InQuoted -> ends_field t = true ->
  csv_read m field record t = csv_close field record t.
Proof.
  intros Hm Ht. destruct t as [|c t]; [reflexivity|].
  cbn [ends_field] in Ht. cbn [csv_read csv_close].
  destruct (Ascii.eqb c ","); [destruct m; congruence|].
  cbn [orb] in Ht. rewrite Ht. destruct m; congruence.
Qed.

Lemma plain_char c s :
  contains quote_char (String c s) || contains "," (String c s)
  || contains newline_char (String c s) = false ->
  Ascii.eqb c quote_char = false /\ Ascii.eqb c "," = false
  /\ Ascii.eqb c newline_char = false
  /\ contains quote_char s || contains "," s || contains newline_char s = false.
Proof.
  unfold contains, free_of. cbn [all_chars].
  destruct (Ascii.eqb c quote_char), (Ascii.eqb c ","), (Ascii.eqb c newline_char),
    (all_chars (fun a => negb (Ascii.eqb a quote_char)) s),
    (all_chars (fun a => negb (Ascii.eqb a ",")) s),
    (all_chars (fun a => negb (Ascii.eqb a newline_char)) s);
    cbn [negb andb orb]; intros H; try discriminate H; repeat split.
Qed.

Lemma csv_read_plain s field record t :
  contains quote_char s || contains "," s || contains newline_char s = false ->
  csv_read InPlain field record (s +:+ t) = csv_read InPlain (field +:+ s) record t.
Proof.
  revert field. induction s as [|c s IH]; intros field Hs.
  - rewrite append_nil_l, append_nil_r. reflexivity.
  - apply plain_char in Hs as (Hq & Hc & Hn & Hs).
    rewrite append_cons. cbn [csv_read]. rewrite Hc, Hn, Hq, (IH _ Hs), append_assoc.
    reflexivity.
Qed.

Lemma csv_read_quoted s field record t :
  ends_field t = true ->
  csv_read InQuoted field record (double_quotes s +:+ String quote_char t)
  = csv_close (field +:+ s) record t.
Proof.
  intros Ht. revert field. induction s as [|c s IH]; intros field.
  - rewrite append_nil_r. cbn [double_quotes]. rewrite append_nil_l. cbn [csv_read].
    rewrite Ascii.eqb_refl. apply csv_read_close; [discriminate | assumption].
  - cbn [double_quotes]. destruct (Ascii.eqb c quote_char) eqn:Hq.
    + apply Ascii.eqb_eq in Hq. subst c. rewrite !append_cons. cbn [csv_read].
      rewrite Ascii.eqb_refl.
      change (Ascii.eqb quote_char ",") with false.
      change (Ascii.eqb quote_char newline_char) with false. cbv iota.
      rewrite IH, append_assoc. reflexivity.
    + rewrite append_cons. cbn [csv_read]. rewrite Hq, IH, append_assoc. reflexivity.
Qed.

(** The reader gets back a field written by [escape_text]. *)
Lemma csv_read_field s record t :
  ends_field t = true ->
  csv_read FieldStart "" record (escape_text s +:+ t) = csv_close s record t.
Proof.
  intros Ht. unfold escape_text.
  destruct (contains quote_char s || contains "," s || contains newline_char s) eqn:Hs.
  - rewrite append_cons, append_assoc, append_cons, append_nil_l. cbn [csv_read].
    change (Ascii.eqb quote_char ",") with false.
    change (Ascii.eqb quote_char newline_char) with false.
    rewrite Ascii.eqb_refl. cbv iota.
    rewrite csv_read_quoted by assumption. reflexivity.
  - destruct s as [|c s]; [rewrite append_nil_l; apply csv_read_close; [discriminate|auto]|].
    apply plain_char in Hs as (Hq & Hc & Hn & Hs).
    rewrite append_cons. cbn [csv_read]. rewrite Hc, Hn, Hq.
    rewrite csv_read_plain by assumption.
    rewrite csv_read_close by (discriminate || assumption). reflexivity.
Qed.

Lemma join_cons sep x y l : JS.join sep (x :: y :: l) = x +:+ sep +:+ JS.join sep (y :: l).
Proof. reflexivity. Qed.

Lemma csv_read_line fields record t :
  fields <> [] -> ends_line t = true ->
  csv_read FieldStart "" record (JS.join "," (map escape_text fields) +:+ t)
  = match t with
    | EmptyString => [record ++ fields]
    | String _ rest => (record ++ fields) :: csv_read FieldStart "" [] rest
    end.
Proof.
  intros Hne Ht. revert record. induction fields as [|x [|y l] IH]; intros record.
  - congruence.
  - cbn [map JS.join]. rewrite csv_read_field.
    + destruct t as [|c t]; [reflexivity|]. cbn [ends_line] in Ht.
      apply Ascii.eqb_eq in Ht. subst c. reflexivity.
    + destruct t as [|c t]; [reflexivity|]. cbn [ends_line ends_field] in *.
      rewrite Ht. apply orb_true_r.
  - cbn [map]. rewrite join_cons, !append_assoc. rewrite csv_read_field by reflexivity.
    rewrite append_cons, append_nil_l. cbn [csv_close]. rewrite Ascii.eqb_refl.
    cbn [map] in IH. rewrite IH by discriminate.
    rewrite <- !app_assoc. reflexivity.
Qed.

Lemma read_csv_lines (lines : list (list string)) :
  lines <> [] -> Forall (fun l => l <> []) lines ->
  csv_read FieldStart "" []
    (JS.join (String newline_char "")
       (map (fun l => JS.join "," (map escape_text l)) lines))
  = lines.
Proof.
  intros Hne Hall.
  induction lines as [|l [|l' rest] IH].
  - congruence.
  - cbn [map JS.join]. inversion Hall; subst.
    rewrite <- (append_nil_r (JS.join "," (map escape_text l))).
    rewrite csv_read_line by auto. reflexivity.
  - inversion Hall; subst. cbn [map]. rewrite join_cons, ?append_assoc.
    rewrite append_cons, append_nil_l.
    rewrite csv_read_line by auto.
    cbn [map] in IH. rewrite IH by (discriminate || assumption). reflexivity.
Qed.

Lemma escapeCsv_text v : escapeCsv v = escape_text (cell_text v).
Proof. destruct v; reflexivity. Qed.

(** X15: the CSV text of the export reads back, field by field, as the
    header line followed by one record per row holding the texts of its
    twelve columns (the empty text for null): commas, quotes and line
    feeds inside a value do not shift or split fields. *)
Theorem export_csv_reads_back (rows : list (string -> Cell)) :
  read_csv (export_csv rows)
  = csv_headers :: map (fun row => map (fun h => cell_text (row h)) csv_headers) rows.
Proof.
  unfold read_csv, export_csv. cbv zeta.
  set (texts := csv_headers
                :: map (fun row => map (fun h => cell_text (row h)) csv_headers) rows).
  etransitivity; [|apply (read_csv_lines texts)].
  - f_equal. f_equal. unfold texts. cbn [map]. f_equal.
    rewrite map_map. apply map_ext. intros row. f_equal.
    rewrite map_map. apply map_ext. intros h. apply escapeCsv_text.
  - discriminate.
  - unfold texts. constructor; [discriminate|].
    apply Forall_forall. intros l Hl. apply list_elem_of_In, in_map_iff in Hl as (row & <- & _).
    discriminate.
Qed.

(** X16: [escape_text] loses nothing: two texts with the same CSV cell
    are the same text. *)
Theorem escape_text_inj s1 s2 : escape_text s1 = escape_text s2 -> s1 = s2.
Proof.
  intros H.
  pose proof (csv_read_field s1 [] "" eq_refl) as H1.
  pose proof (csv_read_field s2 [] "" eq_refl) as H2.
  rewrite H, H2 in H1. cbn [csv_close app] in H1. congruence.
Qed.

Lemma escape_text_inj_witness :
  escape_text "a,b" = escape_text "a,b" /\ "a,b" = "a,b".
Proof. split; [reflexivity | apply (escape_text_inj "a,b" "a,b"); reflexivity]. Defined.

(** ** The photo digest as text *)

Lemma hex_byte_digits b :
  hex_byte b
  = String (digit_char (Byte.to_N b / 16)) (String (digit_char (Byte.to_N b mod 16)) "").
Proof. destruct b; vm_compute; reflexivity. Qed.

Lemma hex_byte_chars b :
  is_lower_hex (digit_char (Byte.to_N b / 16)) = true
  /\ is_lower_hex (digit_char (Byte.to_N b mod 16)) = true.
Proof. destruct b; vm_compute; split; reflexivity. Qed.

Lemma hashFile_hex_cons b bs :
  hashFile_hex (b :: bs) = hex_byte b +:+ hashFile_hex bs.
Proof.
  unfold hashFile_hex. destruct bs as [|b' bs]; cbn [map JS.join].
  - rewrite append_nil_r. reflexivity.
  - rewrite append_nil_l. reflexivity.
Qed.

Lemma digit_char_inj (d1 d2 : N) :
  (d1 < 16)%N -> (d2 < 16)%N -> digit_char d1 = digit_char d2 -> d1 = d2.
Proof.
  intros H1 H2 H.
  assert (Hn : forall d, (d < 16)%N -> exists k, (k < 16)%nat /\ d = N.of_nat k).
  { intros d Hd. exists (N.to_nat d). split; lia. }
  destruct (Hn _ H1) as (k1 & Hk1 & ->). destruct (Hn _ H2) as (k2 & Hk2 & ->).
  clear H1 H2 Hn. f_equal.
  do 16 (destruct k1 as [|k1]; [do 16 (destruct k2 as [|k2];
    [first [reflexivity | vm_compute in H; discriminate H]|]); lia|]).
  lia.
Qed.

Lemma hex_byte_inj a b : hex_byte a = hex_byte b -> a = b.
Proof.
  rewrite !hex_byte_digits. intros H. injection H as Hhi Hlo.
  apply digit_char_inj in Hhi; [|apply N.Div0.div_lt_upper_bound; destruct a; vm_compute; reflexivity
                                 |apply N.Div0.div_lt_upper_bound; destruct b; vm_compute; reflexivity].
  apply digit_char_inj in Hlo; [|apply N.mod_upper_bound; discriminate
                                 |apply N.mod_upper_bound; discriminate].
  assert (Hn : Byte.to_N a = Byte.to_N b).
  { rewrite (N.div_mod (Byte.to_N a) 16), (N.div_mod (Byte.to_N b) 16) by discriminate.
    congruence. }
  pose proof (Byte.of_to_N a) as Ha. pose proof (Byte.of_to_N b) as Hb.
  congruence.
Qed.

(** X17: for a digest of [n] bytes, [hashFile] returns [2 * n] lower-case
    hexadecimal digits: 64 characters for a SHA-256 digest, as the
    server's schema demands of [photoSha256], with no bar among them. *)
Theorem hashFile_hex_shape (digest_bytes : list Byte.byte) :
  String.length (hashFile_hex digest_bytes) = (2 * length digest_bytes)%nat
  /\ all_chars is_lower_hex (hashFile_hex digest_bytes) = true
  /\ bar_free (hashFile_hex digest_bytes) = true.
Proof.
  assert (H : String.length (hashFile_hex digest_bytes) = (2 * length digest_bytes)%nat
              /\ all_chars is_lower_hex (hashFile_hex digest_bytes) = true).
  { induction digest_bytes as [|b bs [IHlen IHchars]]; [split; reflexivity|].
    rewrite hashFile_hex_cons, hex_byte_digits, !append_cons, append_nil_l.
    destruct (hex_byte_chars b) as [Hhi Hlo]. split.
    - cbn [String.length length]. rewrite IHlen. lia.
    - cbn [all_chars]. rewrite Hhi, Hlo, IHchars. reflexivity. }
  destruct H as [Hlen Hchars]. repeat split; try assumption.
  unfold bar_free, free_of. revert Hchars. apply all_chars_impl.
  intros c Hc. destruct (Ascii.eqb_spec c "|") as [->|]; [discriminate Hc | reflexivity].
Qed.

(** X18: [hashFile]'s text determines the digest: different digests
    never get the same text. *)
Theorem hashFile_hex_inj (d1 d2 : list Byte.byte) :
  hashFile_hex d1 = hashFile_hex d2 -> d1 = d2.
Proof.
  revert d2. induction d1 as [|a d1 IH]; intros [|b d2] H.
  - reflexivity.
  - rewrite hashFile_hex_cons, hex_byte_digits in H. discriminate H.
  - rewrite hashFile_hex_cons, hex_byte_digits in H. discriminate H.
  - rewrite !hashFile_hex_cons, !hex_byte_digits, !append_cons, !append_nil_l in H.
    injection H as Hhi Hlo Hrest.
    f_equal; [|apply IH; assumption].
    apply hex_byte_inj. rewrite !hex_byte_digits. congruence.
Qed.

Lemma hashFile_hex_inj_witness :
  hashFile_hex [x00; xff]%byte = hashFile_hex [x00; xff]%byte
  /\ [x00; xff]%byte = [x00; xff]%byte.
Proof.
  split; [reflexivity|].
  apply (hashFile_hex_inj [x00; xff]%byte [x00; xff]%byte). reflexivity.
Defined.

(** ** The device key as a PEM file *)

Lemma join_empty_cons x l : JS.join "" (x :: l) = x +:+ JS.join "" l.
Proof.
  destruct l as [|y l]; cbn [JS.join].
  - rewrite append_nil_r. reflexivity.
  - rewrite append_nil_l. reflexivity.
Qed.

Lemma match_chunks_lines width cur room s :
  (1 <= width)%nat -> (String.length cur + room = width)%nat ->
  all_chars (fun c => negb (line_terminator c)) s = true ->
  let ls := match_chunks width cur room s in
  JS.join "" ls = cur +:+ s
  /\ Forall (fun l => (1 <= String.length l <= width)%nat) ls
  /\ (forall i l, ls !! i = Some l -> (S i < length ls)%nat -> String.length l = width)
  /\ (cur +:+ s <> "" -> ls <> []).
Proof.
  intros Hw. revert cur room. induction s as [|c s IH]; intros cur room Hroom Hs; cbv zeta.
  - cbn [match_chunks]. rewrite append_nil_r. destruct cur as [|a cur]; cbn [flush].
    + repeat split; [constructor | intros i l Hl; destruct i; discriminate Hl | congruence].
    + repeat split.
      * constructor; [|constructor]. cbn [String.length] in *. lia.
      * intros i l Hl Hi. cbn [length] in Hi. lia.
      * discriminate.
  - cbn [all_chars] in Hs. apply andb_true_iff in Hs as [Hc Hs].
    apply negb_true_iff in Hc. cbn [match_chunks]. rewrite Hc. destruct room as [|room].
    + assert (Hcur : String.length cur = width) by lia.
      destruct cur as [|a cur]; [cbn [String.length] in Hcur; lia|].
      cbn [flush app].
      destruct (IH (String c "") (width - 1)%nat) as (Hjoin & Hall & Hfull & Hne);
        [cbn [String.length]; lia | assumption |].
      repeat split.
      * rewrite join_empty_cons, Hjoin, !append_cons, append_nil_l. reflexivity.
      * constructor; [lia | assumption].
      * intros [|i] l Hl Hi; cbn in Hl.
        -- injection Hl as <-. assumption.
        -- apply (Hfull i l Hl). cbn [length] in Hi. lia.
      * discriminate.
    + destruct (IH (cur +:+ String c "") room) as (Hjoin & Hall & Hfull & Hne);
        [rewrite append_length; cbn [String.length]; lia | assumption |].
      rewrite append_assoc, append_cons, append_nil_l in Hjoin, Hne.
      repeat split; assumption.
Qed.

(** X19: for a key text that is not empty and holds no line break,
    [exportPublicKeyPEM] offers a file made of the BEGIN line, the key
    text cut into lines, and the END line: the lines put end to end are
    the key text, each has from 1 to 64 characters, and every line but
    the last has exactly 64. *)
Theorem exportPublicKeyPEM_lines (key : string) :
  key <> "" ->
  all_chars (fun c => negb (line_terminator c)) key = true ->
  exists ls,
    exportPublicKeyPEM (Some key)
    = PemFile ("-----BEGIN PUBLIC KEY-----" +:+ String newline_char ""
               +:+ JS.join (String newline_char "") ls
               +:+ String newline_char "" +:+ "-----END PUBLIC KEY-----")
    /\ JS.join "" ls = key
    /\ Forall (fun l => (1 <= String.length l <= 64)%nat) ls
    /\ (forall i l, ls !! i = Some l -> (S i < length ls)%nat -> String.length l = 64%nat).
Proof.
  intros Hkey Hchars.
  destruct (match_chunks_lines 64 "" 64 key) as (Hjoin & Hall & Hfull & Hne);
    [lia | reflexivity | assumption |].
  rewrite append_nil_l in Hjoin, Hne. specialize (Hne Hkey).
  exists (match_chunks 64 "" 64 key). repeat split; try assumption.
  unfold exportPublicKeyPEM, match_lines.
  destruct (String.eqb_spec key "") as [->|_]; [congruence|].
  destruct (match_chunks 64 "" 64 key); [congruence | reflexivity].
Qed.

Lemma exportPublicKeyPEM_lines_witness :
  exists ls,
    exportPublicKeyPEM (Some "MIIBIjANBgkqhkiG9w0BAQEFAAOCAQ8AMIIBCgKCAQEAu1SU1LfVLPHCozMxH2Mo4lgOEePzNm0tRgeLezV6ffAt0g")
    = PemFile ("-----BEGIN PUBLIC KEY-----" +:+ String newline_char ""
               +:+ JS.join (String newline_char "") ls
               +:+ String newline_char "" +:+ "-----END PUBLIC KEY-----")
    /\ JS.join "" ls
       = "MIIBIjANBgkqhkiG9w0BAQEFAAOCAQ8AMIIBCgKCAQEAu1SU1LfVLPHCozMxH2Mo4lgOEePzNm0tRgeLezV6ffAt0g"
    /\ Forall (fun l => (1 <= String.length l <= 64)%nat) ls
    /\ (forall i l, ls !! i = Some l -> (S i < length ls)%nat -> String.length l = 64%nat).
Proof.
  apply (exportPublicKeyPEM_lines
           "MIIBIjANBgkqhkiG9w0BAQEFAAOCAQ8AMIIBCgKCAQEAu1SU1LfVLPHCozMxH2Mo4lgOEePzNm0tRgeLezV6ffAt0g").
  - discriminate.
  - reflexivity.
Defined.

(** ** Allowed origins *)

Lemma nullable_Matches r : nullable r = true -> Matches r "".
Proof.
  induction r; cbn [nullable]; try discriminate; intros H.
  - constructor.
  - apply andb_true_iff in H as [H1 H2].
    change "" with ("" +:+ ""). constructor; auto.
  - apply orb_true_iff in H as [H|H]; [apply MAltL | apply MAltR]; auto.
  - constructor.
Qed.

Lemma deriv_Matches c r s : Matches (deriv c r) s -> Matches r (String c s).
Proof.
  revert s. induction r; intros s; cbn [deriv]; intros H.
  - inversion H.
  - inversion H.
  - destruct (Ascii.eqb_spec c0 c) as [->|]; inversion H; subst. constructor.
  - destruct (is_digit c) eqn:Hc; inversion H; subst. constructor. assumption.
  - destruct (in_range lo hi c) eqn:Hc; inversion H; subst. constructor. assumption.
  - assert (Hseq : forall t, Matches (Seq (deriv c r1) r2) t -> Matches (Seq r1 r2) (String c t)).
    { intros t Ht. inversion Ht; subst. rewrite <- append_cons. constructor; auto. }
    destruct (nullable r1) eqn:Hn; [|auto].
    inversion H; subst; [auto|].
    change (String c s) with ("" +:+ String c s).
    constructor; [apply nullable_Matches; assumption | auto].
  - inversion H; subst; [apply MAltL | apply MAltR]; auto.
  - inversion H; subst. rewrite <- append_cons. constructor; auto.
Qed.

Lemma test_Matches r s : test r s = true -> Matches r s.
Proof.
  revert r. induction s as [|c s IH]; intros r; cbn [test]; intros H.
  - apply nullable_Matches. assumption.
  - apply deriv_Matches. auto.
Qed.

Lemma append_eq_nil a b : a +:+ b = "" -> a = "" /\ b = "".
Proof. destruct a; [rewrite append_nil_l; auto | rewrite append_cons; discriminate]. Qed.

Lemma Matches_nullable r s : Matches r s -> s = "" -> nullable r = true.
Proof.
  induction 1; intros Hs; try discriminate Hs; cbn [nullable]; try reflexivity.
  - apply append_eq_nil in Hs as [-> ->]. rewrite IHMatches1, IHMatches2; reflexivity.
  - rewrite IHMatches by assumption. reflexivity.
  - rewrite IHMatches by assumption. apply orb_true_r.
Qed.

Lemma Matches_deriv r t : Matches r t -> forall c s, t = String c s -> Matches (deriv c r) s.
Proof.
  induction 1; intros a t Ht; try discriminate Ht; cbn [deriv].
  - injection Ht as -> <-. rewrite Ascii.eqb_refl. constructor.
  - injection Ht as -> <-. rewrite H. constructor.
  - injection Ht as -> <-. rewrite H. constructor.
  - destruct s1 as [|b s1].
    + rewrite append_nil_l in Ht.
      rewrite (Matches_nullable _ _ H eq_refl). apply MAltR. eauto.
    + rewrite append_cons in Ht. injection Ht as -> <-.
      assert (Hseq : Matches (Seq (deriv a r1) r2) (s1 +:+ s2)) by (constructor; eauto).
      destruct (nullable r1); [apply MAltL|]; assumption.
  - apply MAltL. eauto.
  - apply MAltR. eauto.
  - destruct s1 as [|b s1].
    + rewrite append_nil_l in Ht. apply (IHMatches2 _ _ Ht).
    + rewrite append_cons in Ht. injection Ht as -> <-. constructor; eauto.
Qed.

Lemma Matches_test r s : Matches r s -> test r s = true.
Proof.
  revert r. induction s as [|c s IH]; intros r H; cbn [test].
  - apply (Matches_nullable _ _ H eq_refl).
  - apply IH. apply (Matches_deriv _ _ H _ _ eq_refl).
Qed.

Lemma Matches_Str p s : Matches (Str p) s -> s = p.
Proof.
  revert s. induction p as [|c p IH]; intros s H; cbn [Str] in H.
  - inversion H. reflexivity.
  - inversion H as [| | | |? ? s1 s2 H1 H2| | | |]; subst.
    inversion H1; subst. rewrite append_cons, append_nil_l. f_equal. auto.
Qed.

Lemma Str_Matches p : Matches (Str p) p.
Proof.
  induction p as [|c p IH]; cbn [Str]; [constructor|].
  change (String c p) with (String c "" +:+ p). constructor; [constructor | assumption].
Qed.

Lemma Matches_Seq r1 r2 s :
  Matches (Seq r1 r2) s -> exists s1 s2, s = s1 +:+ s2 /\ Matches r1 s1 /\ Matches r2 s2.
Proof. intros H. inversion H; subst. eauto. Qed.

Lemma Matches_Star_Digit r s : Matches r s -> r = Star Digit -> all_chars is_digit s = true.
Proof.
  induction 1; intros Hr; try discriminate Hr; [reflexivity|].
  injection Hr as ->. rewrite all_chars_app, IHMatches2 by reflexivity.
  inversion H as [| |c Hc| | | | | |]; subst. cbn [all_chars]. rewrite Hc. reflexivity.
Qed.

Lemma Matches_Plus_Digit s :
  Matches (Plus Digit) s -> s <> "" /\ all_chars is_digit s = true.
Proof.
  intros H. apply Matches_Seq in H as (s1 & s2 & -> & H1 & H2).
  inversion H1 as [| |c Hc| | | | | |]; subst.
  rewrite append_cons, append_nil_l. split; [discriminate|].
  cbn [all_chars]. rewrite Hc. apply (Matches_Star_Digit _ _ H2 eq_refl).
Qed.

Lemma Star_Digit_Matches s : all_chars is_digit s = true -> Matches (Star Digit) s.
Proof.
  induction s as [|c s IH]; cbn [all_chars]; intros H; [constructor|].
  apply andb_true_iff in H as [Hc Hs].
  change (String c s) with (String c "" +:+ s). constructor; [constructor|]; auto.
Qed.

Lemma Plus_Digit_Matches s :
  s <> "" -> all_chars is_digit s = true -> Matches (Plus Digit) s.
Proof.
  destruct s as [|c s]; [congruence|]. cbn [all_chars]. intros _ H.
  apply andb_true_iff in H as [Hc Hs].
  change (String c s) with (String c "" +:+ s).
  constructor; [constructor | apply Star_Digit_Matches]; assumption.
Qed.

Lemma forallb_seq_range (P : nat -> bool) lo len n :
  forallb P (seq lo len) = true -> (lo <= n < lo + len)%nat -> P n = true.
Proof.
  intros H Hn. rewrite forallb_forall in H. apply H. apply in_seq. lia.
Qed.

Lemma Matches_within P r s : Matches r s -> within P r = true -> all_chars P s = true.
Proof.
  induction 1; cbn [within]; intros Hw; try reflexivity.
  - cbn [all_chars]. rewrite Hw. reflexivity.
  - cbn [all_chars]. rewrite andb_true_r.
    cbn [all_chars] in Hw. unfold is_digit in H.
    apply andb_true_iff in H as [Hlo Hhi].
    apply Nat.leb_le in Hlo, Hhi.
    rewrite <- (ascii_nat_embedding c).
    remember (nat_of_ascii c) as n eqn:Hn. clear Hn c.
    do 48 (destruct n as [|n]; [lia|]).
    do 10 (destruct n as [|n];
      [repeat (apply andb_true_iff in Hw as [? Hw]); assumption|]).
    lia.
  - cbn [all_chars]. rewrite andb_true_r. unfold in_range in H.
    apply andb_true_iff in H as [Hlo Hhi]. apply Nat.leb_le in Hlo, Hhi.
    rewrite <- (ascii_nat_embedding c).
    apply (forallb_seq_range (fun n => P (ascii_of_nat n)) _ _ _ Hw). lia.
  - apply andb_true_iff in Hw as [H1 H2].
    rewrite all_chars_app, IHMatches1, IHMatches2 by assumption. reflexivity.
  - apply andb_true_iff in Hw as [H1 H2]. auto.
  - apply andb_true_iff in Hw as [H1 H2]. auto.
  - rewrite all_chars_app, IHMatches1, IHMatches2 by assumption. reflexivity.
Qed.

Lemma Matches_origin_re host o :
  Matches (origin_re host) o ->
  exists h port,
    o = "http://" +:+ h +:+ ":" +:+ port
    /\ Matches host h /\ port <> "" /\ all_chars is_digit port = true.
Proof.
  unfold origin_re. intros H.
  apply Matches_Seq in H as (s1 & s2 & -> & H1 & H).
  apply Matches_Str in H1 as ->.
  apply Matches_Seq in H as (h & s3 & -> & Hh & H).
  apply Matches_Seq in H as (s4 & port & -> & Hc & Hp).
  inversion Hc; subst. apply Matches_Plus_Digit in Hp as [Hne Hd].
  exists h, port. repeat split; assumption.
Qed.

Lemma Matches_prefix p r s : Matches (Seq (Str p) r) s -> JS.startsWith s p = true.
Proof.
  intros H. apply Matches_Seq in H as (s1 & s2 & -> & H1 & _).
  apply Matches_Str in H1 as ->. apply startsWith_app.
Qed.

(** X20: an origin the callback lets through is the configured origin,
    or a plain-http origin with an explicit port number whose host is
    [localhost], [127.0.0.1], or digits and dots that begin with
    [192.168.], [10.] or [172.]: no other scheme and no other host name
    passes. *)
Theorem origin_allowed_shape setting (o : string) :
  origin_allowed setting (Some o) = true ->
  o = "" \/ o = CORS_ORIGIN setting
  \/ exists host port,
       o = "http://" +:+ host +:+ ":" +:+ port
       /\ port <> "" /\ all_chars is_digit port = true
       /\ (host = "localhost" \/ host = "127.0.0.1"
           \/ (all_chars digit_or_dot host = true
               /\ (JS.startsWith host "192.168." = true
                   \/ JS.startsWith host "10." = true
                   \/ JS.startsWith host "172." = true))).
Proof.
  unfold origin_allowed. intros H.
  destruct (String.eqb o "") eqn:E0; [apply String.eqb_eq in E0; auto|].
  destruct (String.eqb o (CORS_ORIGIN setting)) eqn:E1; [apply String.eqb_eq in E1; auto|].
  right. right.
  assert (Hhost : forall host,
            test (origin_re host) o = true ->
            exists h port,
              o = "http://" +:+ h +:+ ":" +:+ port
              /\ port <> "" /\ all_chars is_digit port = true /\ Matches host h).
  { intros host Ht. apply test_Matches, Matches_origin_re in Ht as (h & port & ? & ? & ? & ?).
    exists h, port. auto. }
  destruct (test (origin_re host_localhost) o) eqn:H1.
  { destruct (Hhost _ H1) as (h & port & ? & ? & ? & Hm).
    apply Matches_Str in Hm. exists h, port. repeat split; try assumption.
    left. assumption. }
  destruct (test (origin_re host_loopback) o) eqn:H2.
  { destruct (Hhost _ H2) as (h & port & ? & ? & ? & Hm).
    apply Matches_Str in Hm. exists h, port. repeat split; try assumption.
    right. left. assumption. }
  destruct (test (origin_re host_192) o) eqn:H3.
  { destruct (Hhost _ H3) as (h & port & ? & ? & ? & Hm).
    exists h, port. repeat split; try assumption. right. right. split.
    - apply (Matches_within _ _ _ Hm). reflexivity.
    - left. apply (Matches_prefix _ _ _ Hm). }
  destruct (test (origin_re host_10) o) eqn:H4.
  { destruct (Hhost _ H4) as (h & port & ? & ? & ? & Hm).
    exists h, port. repeat split; try assumption. right. right. split.
    - apply (Matches_within _ _ _ Hm). reflexivity.
    - right. left. apply (Matches_prefix _ _ _ Hm). }
  destruct (test (origin_re host_172) o) eqn:H5; [|discriminate H].
  destruct (Hhost _ H5) as (h & port & ? & ? & ? & Hm).
  exists h, port. repeat split; try assumption. right. right. split.
  - apply (Matches_within _ _ _ Hm). reflexivity.
  - right. right. apply (Matches_prefix _ _ _ Hm).
Qed.

Lemma origin_allowed_shape_witness :
  let o := "http://192.168.1.20:5173" in
  o = "" \/ o = CORS_ORIGIN None
  \/ exists host port,
       o = "http://" +:+ host +:+ ":" +:+ port
       /\ port <> "" /\ all_chars is_digit port = true
       /\ (host = "localhost" \/ host = "127.0.0.1"
           \/ (all_chars digit_or_dot host = true
               /\ (JS.startsWith host "192.168." = true
                   \/ JS.startsWith host "10." = true
                   \/ JS.startsWith host "172." = true))).
Proof. apply (origin_allowed_shape None "http://192.168.1.20:5173"). reflexivity. Defined.

Lemma origin_allowed_local setting o :
  test (origin_re host_localhost) o = true \/ test (origin_re host_loopback) o = true ->
  origin_allowed setting (Some o) = true.
Proof.
  unfold origin_allowed. intros H.
  destruct (String.eqb o ""); [reflexivity|].
  destruct (String.eqb o (CORS_ORIGIN setting)); [reflexivity|].
  destruct (test (origin_re host_localhost) o); [reflexivity|].
  destruct (test (origin_re host_loopback) o); [reflexivity|].
  destruct H; discriminate.
Qed.

(** X21: every port of [localhost] and of [127.0.0.1] passes: an origin
    [http://localhost:] or [http://127.0.0.1:] followed by one or more
    digits is let through, whatever origin is configured. *)
Theorem origin_allowed_any_local_port setting (port : string) :
  port <> "" -> all_chars is_digit port = true ->
  origin_allowed setting (Some ("http://localhost:" +:+ port)) = true
  /\ origin_allowed setting (Some ("http://127.0.0.1:" +:+ port)) = true.
Proof.
  intros Hne Hd.
  assert (Hre : forall h, test (origin_re (Str h)) ("http://" +:+ h +:+ ":" +:+ port) = true).
  { intros h. apply Matches_test. unfold origin_re.
    constructor; [apply Str_Matches|]. constructor; [apply Str_Matches|].
    constructor; [constructor | apply Plus_Digit_Matches; assumption]. }
  split; apply origin_allowed_local.
  - left. exact (Hre "localhost").
  - right. exact (Hre "127.0.0.1").
Qed.

Lemma origin_allowed_any_local_port_witness :
  origin_allowed (Some "https://tracker.example") (Some ("http://localhost:" +:+ "3000")) = true
  /\ origin_allowed (Some "https://tracker.example") (Some ("http://127.0.0.1:" +:+ "3000")) = true.
Proof.
  apply (origin_allowed_any_local_port (Some "https://tracker.example") "3000").
  - discriminate.
  - reflexivity.
Defined.

(** ** The duplicate guard of the web client *)

Lemma handle_names_trimmed env ctx req db :
  names_trimmed db -> names_trimmed (handle env ctx req db).2.
Proof.
  unfold names_trimmed. intros H. destruct req as [|body|visitId body]; cbn [handle].
  - rewrite get_challenge_run.
    destruct (server_challenges db !! uuid_challenge ctx); exact H.
  - rewrite check_in_run.
    destruct (negb (EventSchema_success env body)); [assumption|].
    destruct (negb (EventType_eqb _ _)); [assumption|].
    destruct (vendor_taken db (vendorName body)); [assumption|].
    destruct (insert_visit_cases (uuid_visit ctx) (JS.trim (vendorName body)) (db_now ctx) db)
      as [(_ & _ & ->)|(_ & e & ->)]; [|assumption].
    match goal with |- context [insertEvent env ctx ?v body ?d] =>
      destruct (insertEvent_frame env ctx v body d) as (Hv & _ & _);
      destruct (insertEvent env ctx v body d) as [[[id|st err]|e] db'] end;
      cbn [snd] in *; rewrite Hv; cbn [visits]; apply Forall_app; split; auto;
      (constructor; [apply trim_idempotent | constructor]).
  - rewrite check_out_run.
    destruct (negb (EventSchema_success env body)); [assumption|].
    destruct (negb (EventType_eqb _ _)); [assumption|].
    destruct (negb (pg_uuid env visitId)); [assumption|].
    destruct (find _ (visits db)) as [v|]; [|assumption].
    destruct (negb (String.eqb _ _)); [assumption|].
    destruct (insertEvent_frame env ctx visitId body db) as (Hv & _ & _).
    destruct (insertEvent _ _ _ _ db) as [[[id|st err]|e] db']; cbn [snd] in *;
      rewrite Hv; assumption.
Qed.

Lemma run_requests_names_trimmed env reqs db :
  names_trimmed db -> names_trimmed (run_requests env reqs db).
Proof.
  revert db. induction reqs as [|[ctx req] rest IH]; intros db Hdb; cbn [run_requests].
  - assumption.
  - apply IH, handle_names_trimmed, Hdb.
Qed.

Lemma toLowerCase_empty s : JS.toLowerCase s = "" -> s = "".
Proof. destruct s; [reflexivity | discriminate]. Qed.

(** X22: in every database the server reaches, the duplicate guard of
    the web client is sound for the server's name test on the trimmed
    name the client posts: when every listed visit is a stored visit and
    the guard finds a duplicate, the name is taken on the server; and
    when every stored visit is listed and something is typed, a guard
    that finds nothing means the name is free on the server. *)
Theorem duplicateVisit_server env reqs typed (listed : list VisitItem) :
  let db := run_requests env reqs empty_db in
  ((forall it, it ∈ listed ->
      exists v, v ∈ visits db /\ vendor_name v = item_vendorName it) ->
   duplicateVisit typed listed <> None ->
   vendor_taken db (JS.trim typed) = true)
  /\ ((forall v, v ∈ visits db ->
         exists it, it ∈ listed /\ item_vendorName it = vendor_name v) ->
      JS.trim typed <> "" ->
      duplicateVisit typed listed = None ->
      vendor_taken db (JS.trim typed) = false).
Proof.
  intros db.
  assert (Htrim : names_trimmed db).
  { apply run_requests_names_trimmed. constructor. }
  unfold names_trimmed in Htrim. rewrite Forall_forall in Htrim.
  unfold duplicateVisit, vendor_taken. cbv zeta. split.
  - intros Hlisted Hdup.
    destruct (String.eqb _ ""); [congruence|].
    destruct (find _ listed) as [it|] eqn:Hfind; [|congruence].
    apply find_elem in Hfind as [Hin Heq]. apply String.eqb_eq in Heq.
    destruct (Hlisted it Hin) as (v & Hv & Hname).
    apply existsb_exists. exists v. split; [apply list_elem_of_In; assumption|].
    unfold lower_vendor_is. apply String.eqb_eq.
    rewrite <- Heq, <- Hname, (Htrim v) by assumption.
    reflexivity.
  - intros Hall Htyped Hdup.
    destruct (String.eqb_spec (JS.toLowerCase (JS.trim typed)) "") as [Hempty|_];
      [apply toLowerCase_empty in Hempty; congruence|].
    destruct (existsb (lower_vendor_is (JS.trim typed)) (visits db)) eqn:Htaken;
      [|reflexivity].
    apply existsb_exists in Htaken as (v & Hv & Hlow).
    apply list_elem_of_In in Hv.
    destruct (Hall v Hv) as (it & Hit & Hname).
    apply list_elem_of_In in Hit.
    apply (find_none _ _ Hdup) in Hit. cbv beta in Hit.
    unfold lower_vendor_is in Hlow.
    rewrite Hname, (Htrim v) in Hit by assumption.
    congruence.
Qed.

Lemma duplicateVisit_server_witness :
  vendor_taken (run_requests Fixture.env Fixture.opening empty_db)
    (JS.trim "  riverside MARKET ") = true.
Proof.
  apply (proj1 (duplicateVisit_server Fixture.env Fixture.opening "  riverside MARKET "
                  [{| item_visitId := Fixture.visit1;
                      item_vendorName := "Riverside Market" |}])).
  - intros it Hit. apply list_elem_of_singleton in Hit. subst it.
    exists {| visit_pk := Fixture.visit1; vendor_name := "Riverside Market";
              visit_created_at := 2000 |}.
    split; [vm_compute; apply list_elem_of_here | reflexivity].
  - vm_compute. discriminate.
Defined.
